(** * TETRA downlink receiver: synchronizer, upper MAC dissector and MAC
    defragmenter.

    A shallow embedding of [decoder.cc] (burst synchronizer), [mac.cc]
    (upper MAC: TDMA time, PDU dissection, dissociation loop) and
    [macdefrag.cc] (fragment reassembly), followed by the properties of
    the specification that concern them. *)

From Stdlib Require Import ZArith List Bool Lia Recdef.
From Stdlib Require String Ascii.
Import ListNotations.
Local Open Scope Z_scope.

(** ** Fixed-width integers

    C++ integers are embedded as [Z]; the wrap-around of a [w]-bit
    unsigned value is written out with [wrap w]. *)

Definition wrap (w x : Z) : Z := x mod 2 ^ w.
Definition uint8 : Z -> Z := wrap 8.
Definition uint32 : Z -> Z := wrap 32.
Definition uint64 : Z -> Z := wrap 64.

(** Conversion to [int32_t] (two's complement). *)
Definition int32 (x : Z) : Z := (x + 2 ^ 31) mod 2 ^ 32 - 2 ^ 31.

(** ** Exceptions

    A computation that may leave through a C++ exception (an out-of-range
    read) or touch memory outside an array returns [None]. *)

Definition bind {A B : Type} (c : option A) (k : A -> option B) : option B :=
  match c with
  | Some a => k a
  | None => None
  end.

Notation "x <- c ;; k" := (bind c (fun x => k))
  (at level 61, c at next level, right associativity).
Notation "' p <- c ;; k" := (bind c (fun x => let 'p := x in k))
  (at level 61, p pattern, c at next level, right associativity).

(** ** PDU *)

(** Modelled from the spec: the [Pdu] class of [common/pdu.h], which is not
    among the sources.  "PDU: a bit-addressable sequence supporting
    extract(start, len), get_value(start, len) -> unsigned integer
    (MSB-first), append(other), size(), sub_from(offset), resize(n)";
    "get_value(pos, n) -> u64: read n bits starting at pos; fails with
    OutOfRange if pos + n > size()". *)
Definition Pdu : Type := list bool.

Definition Pdu_size (p : Pdu) : Z := Z.of_nat (length p).

Definition Pdu_isEmpty (p : Pdu) : bool :=
  match p with
  | [] => true
  | _ :: _ => false
  end.

(** Modelled from the spec: [Pdu::at], the read of one bit, which fails
    out of range as [get_value] does.  The index is a [size_t]. *)
Definition Pdu_at (p : Pdu) (i : Z) : option Z :=
  if i <? Pdu_size p then option_map Z.b2z (nth_error p (Z.to_nat i)) else None.

Fixpoint value_msb (acc : Z) (bits : list bool) : Z :=
  match bits with
  | [] => acc
  | b :: rest => value_msb (2 * acc + Z.b2z b) rest
  end.

(** Modelled from the spec: [Pdu::getValue]. *)
Definition Pdu_getValue (p : Pdu) (pos len : Z) : option Z :=
  if pos + len <=? Pdu_size p
  then Some (uint64 (value_msb 0 (firstn (Z.to_nat len) (skipn (Z.to_nat pos) p))))
  else None.

(** Modelled from the spec: the constructor [Pdu(pdu, offset)]. *)
Definition Pdu_from (p : Pdu) (pos : Z) : Pdu := skipn (Z.to_nat pos) p.

(** Modelled from the spec: the constructor [Pdu(pdu, offset, len)]. *)
Definition Pdu_sub (p : Pdu) (pos len : Z) : Pdu :=
  firstn (Z.to_nat len) (skipn (Z.to_nat pos) p).

(** Modelled from the spec: [Pdu::append]. *)
Definition Pdu_append (p q : Pdu) : Pdu := p ++ q.

(** Modelled from the spec: [Pdu::resize]; the code only ever shrinks. *)
Definition Pdu_resize (p : Pdu) (n : Z) : Pdu :=
  firstn (Z.to_nat n) p ++ repeat false (Z.to_nat n - length p).

(** ** Shared types of [common/tetra.h] *)

(** Modelled from the spec: "TetraTime: (tn, fn, mn)".  The fields are
    unsigned; their width is a parameter of the functions that increment
    or assign them. *)
Record TetraTime : Type := mkTetraTime { tn : Z; fn : Z; mn : Z }.

(** The ranges the specification declares for a TDMA time. *)
Definition TetraTime_valid (t : TetraTime) : Prop :=
  1 <= tn t <= 4 /\ 1 <= fn t <= 18 /\ 1 <= mn t <= 60.

Definition TetraTime_validb (t : TetraTime) : bool :=
  (1 <=? tn t) && (tn t <=? 4) && (1 <=? fn t) && (fn t <=? 18)
  && (1 <=? mn t) && (mn t <=? 60).

(** Modelled from the spec: "Burst type (tagged variant): SB, NDB, NDB_SF". *)
Inductive BurstType : Type := SB | NDB | NDB_SF.

(** The logical channels, as listed in the comment of [serviceUpperMac]. *)
Inductive MacLogicalChannel : Type :=
  | AACH | BLCH | BNCH | BSCH | SCH_F | SCH_HD | STCH | TCH_S | TCH | unknown.

(** Modelled from the spec: "downlink_usage in UNALLOCATED, ASSIGNED_CONTROL,
    COMMON_CONTROL, RESERVED, TRAFFIC". *)
Inductive DownlinkUsage : Type :=
  | UNALLOCATED | ASSIGNED_CONTROL | COMMON_CONTROL | RESERVED | TRAFFIC.

(** Modelled from the spec: "MacState: (downlink_usage,
    downlink_usage_marker, logical_channel)". *)
Record MacState : Type := mkMacState {
  downlinkUsage : DownlinkUsage;
  downlinkUsageMarker : Z;
  logicalChannel : MacLogicalChannel
}.

(** Modelled from the spec: "MacAddress: (address_type, ssi, ussi, smi,
    event_label, usage_marker, encryption_mode)". *)
Record MacAddress : Type := mkMacAddress {
  addressType : Z;
  ssi : Z;
  ussi : Z;
  smi : Z;
  eventLabel : Z;
  usageMarker : Z;
  encryptionMode : Z
}.

Definition set_addressType (v : Z) (a : MacAddress) : MacAddress :=
  mkMacAddress v (ssi a) (ussi a) (smi a) (eventLabel a) (usageMarker a) (encryptionMode a).
Definition set_ssi (v : Z) (a : MacAddress) : MacAddress :=
  mkMacAddress (addressType a) v (ussi a) (smi a) (eventLabel a) (usageMarker a) (encryptionMode a).
Definition set_ussi (v : Z) (a : MacAddress) : MacAddress :=
  mkMacAddress (addressType a) (ssi a) v (smi a) (eventLabel a) (usageMarker a) (encryptionMode a).
Definition set_smi (v : Z) (a : MacAddress) : MacAddress :=
  mkMacAddress (addressType a) (ssi a) (ussi a) v (eventLabel a) (usageMarker a) (encryptionMode a).
Definition set_eventLabel (v : Z) (a : MacAddress) : MacAddress :=
  mkMacAddress (addressType a) (ssi a) (ussi a) (smi a) v (usageMarker a) (encryptionMode a).
Definition set_usageMarker (v : Z) (a : MacAddress) : MacAddress :=
  mkMacAddress (addressType a) (ssi a) (ussi a) (smi a) (eventLabel a) v (encryptionMode a).
Definition set_encryptionMode (v : Z) (a : MacAddress) : MacAddress :=
  mkMacAddress (addressType a) (ssi a) (ussi a) (smi a) (eventLabel a) (usageMarker a) v.

(** ** MAC defragmenter ([macdefrag.cc]) *)

Module MacDefrag.

Record t : Type := mk {
  macAddress : MacAddress;
  startTime : TetraTime;
  m_sdu : Pdu;
  b_stopped : bool;
  m_fragmentsCount : Z            (* uint8_t *)
}.

(** The constructor; the two public members are left as they are. *)
Definition create (a : MacAddress) (ts : TetraTime) : t :=
  mk a ts [] true 0.

(** [MacDefrag::start]: the report of a flushed reassembly is a log line
    only. *)
Definition start (address : MacAddress) (timeSlot : TetraTime) (d : t) : t :=
  mk address timeSlot [] false 0.

(** [MacDefrag::stop]. *)
Definition stop (d : t) : t :=
  mk (macAddress d) (startTime d) [] true 0.

(** [MacDefrag::append]. *)
Definition append (sdu : Pdu) (address : MacAddress) (d : t) : t :=
  if b_stopped d then d
  else if negb (ssi address =? ssi (macAddress d)) then stop d
  else mk (macAddress d) (startTime d) (Pdu_append (m_sdu d) sdu) (b_stopped d)
          (uint8 (m_fragmentsCount d + 1)).

(** [MacDefrag::getSdu].  The two [uint8_t] out-parameters are written
    in the running branch only: [None] stands for "left untouched". *)
Definition getSdu (d : t) : Pdu * option (Z * Z) :=
  if b_stopped d then ([], None)
  else (m_sdu d, Some (uint8 (encryptionMode (macAddress d)),
                       uint8 (usageMarker (macAddress d)))).

End MacDefrag.

(** ** Upper MAC ([mac.cc]) *)

(** Calls made to the collaborators of the MAC, which are outside the
    sources: the cell ([TetraCell]), the LLC and the U-plane. *)
Inductive Event : Type :=
  | LlcService (tmSdu : Pdu) (ch : MacLogicalChannel) (time : TetraTime)
               (address : MacAddress)
  | UPlaneService (pdu : Pdu) (ch : MacLogicalChannel) (time : TetraTime)
                  (address : MacAddress) (state : MacState) (encryption : Z)
  | UpdateScramblingCode (mcc mnc colorCode : Z)
  | SetFrequencies (downlink uplink : Z).

(** A C array with its bounds: an access outside them has no defined
    result. *)
Definition array_get (a : list Z) (i : Z) : option Z :=
  if (0 <=? i) && (i <? Z.of_nat (length a)) then nth_error a (Z.to_nat i) else None.

Definition array_set (a : list Z) (i v : Z) : option (list Z) :=
  if (0 <=? i) && (i <? Z.of_nat (length a))
  then Some (firstn (Z.to_nat i) a ++ v :: skipn (S (Z.to_nat i)) a)
  else None.

Module Mac.

Record t : Type := mk {
  m_tetraTime : TetraTime;
  m_macState : MacState;
  m_macAddress : MacAddress;
  m_usageMarkerEncryptionMode : list Z;     (* uint8_t [64] *)
  m_secondSlotStolenFlag : Z;               (* uint8_t *)
  m_bRemoveFillBits : bool;
  m_macDefrag : MacDefrag.t;
  calls : list Event                        (* oldest first *)
}.

Definition set_tetraTime (v : TetraTime) (m : t) : t :=
  mk v (m_macState m) (m_macAddress m) (m_usageMarkerEncryptionMode m)
     (m_secondSlotStolenFlag m) (m_bRemoveFillBits m) (m_macDefrag m) (calls m).
Definition set_macState (v : MacState) (m : t) : t :=
  mk (m_tetraTime m) v (m_macAddress m) (m_usageMarkerEncryptionMode m)
     (m_secondSlotStolenFlag m) (m_bRemoveFillBits m) (m_macDefrag m) (calls m).
Definition set_macAddress (v : MacAddress) (m : t) : t :=
  mk (m_tetraTime m) (m_macState m) v (m_usageMarkerEncryptionMode m)
     (m_secondSlotStolenFlag m) (m_bRemoveFillBits m) (m_macDefrag m) (calls m).
Definition set_usageMarkerEncryptionMode (v : list Z) (m : t) : t :=
  mk (m_tetraTime m) (m_macState m) (m_macAddress m) v
     (m_secondSlotStolenFlag m) (m_bRemoveFillBits m) (m_macDefrag m) (calls m).
Definition set_secondSlotStolenFlag (v : Z) (m : t) : t :=
  mk (m_tetraTime m) (m_macState m) (m_macAddress m) (m_usageMarkerEncryptionMode m)
     v (m_bRemoveFillBits m) (m_macDefrag m) (calls m).
Definition set_macDefrag (v : MacDefrag.t) (m : t) : t :=
  mk (m_tetraTime m) (m_macState m) (m_macAddress m) (m_usageMarkerEncryptionMode m)
     (m_secondSlotStolenFlag m) (m_bRemoveFillBits m) v (calls m).
Definition call (e : Event) (m : t) : t :=
  mk (m_tetraTime m) (m_macState m) (m_macAddress m) (m_usageMarkerEncryptionMode m)
     (m_secondSlotStolenFlag m) (m_bRemoveFillBits m) (m_macDefrag m) (calls m ++ [e]).

(** The constructor.  [m_macState], [m_macAddress] and
    [m_secondSlotStolenFlag] are not initialised by it, nor are the public
    members of the defragmenter: what they hold is given. *)
Definition create (bRemoveFillBits : bool) (st : MacState) (a : MacAddress)
    (stolen : Z) : t :=
  mk (mkTetraTime 1 1 1) st a (repeat 0 64) stolen bRemoveFillBits
     (MacDefrag.create a (mkTetraTime 1 1 1)) [].

(** [Mac::getTime]. *)
Definition getTime (m : t) : TetraTime := m_tetraTime m.

(** [Mac::decodeLength]; [val] is a [uint32_t], the result an [int32_t]. *)
Definition decodeLength (val : Z) : Z :=
  let Y2 := 1 in
  let Z2 := 1 in
  let ret :=
    if (val =? 0) || (val =? 59 (* 0b111011 *)) || (val =? 60 (* 0b111100 *)) then 0
    else if val <=? 18 (* 0b010010 *) then uint32 (val * Y2)
    else if val <=? 58 (* 0b111010 *) then uint32 (18 * Y2 + uint32 (uint32 (val - 18) * Z2))
    else if val =? 61 (* 0b111101 *) then 0
    else if val =? 62 (* 0b111110 *) then val
    else if val =? 63 (* 0b111111 *) then val
    else 0 in
  int32 ret.

(** The loop [while (ret.at(ret.size() - 1) == 0) ret.resize(ret.size() - 1)]
    of [removeFillBits]. *)
Function strip_zeros (ret : Pdu) {measure length ret} : option Pdu :=
  match Pdu_at ret (uint64 (Pdu_size ret - 1)) with
  | None => None
  | Some b =>
      if b =? 0
      then strip_zeros (Pdu_resize ret (uint64 (Pdu_size ret - 1)))
      else Some ret
  end.
Proof.
  intros ret b Hat _.
  unfold Pdu_at in Hat.
  destruct (uint64 (Pdu_size ret - 1) <? Pdu_size ret) eqn:Hlt; [|discriminate].
  apply Z.ltb_lt in Hlt.
  assert (0 <= uint64 (Pdu_size ret - 1)) by (apply Z.mod_pos_bound; lia).
  unfold Pdu_resize, Pdu_size in *.
  rewrite length_app, length_firstn, repeat_length. lia.
Defined.

(** [Mac::removeFillBits]. *)
Definition removeFillBits (bRemoveFillBits : bool) (pdu : Pdu) : option Pdu :=
  let ret := pdu in
  if bRemoveFillBits then
    last <- Pdu_at ret (uint64 (Pdu_size ret - 1)) ;;
    if last =? 1
    then Some (Pdu_resize ret (uint64 (Pdu_size ret - 1)))
    else
      ret <- strip_zeros ret ;;
      Some (Pdu_resize ret (uint64 (Pdu_size ret - 1)))
  else Some ret.

(** [Mac::pduProcessAach]. *)
Definition pduProcessAach (pdu : Pdu) (m : t) : option t :=
  let pos := 0 in
  header <- Pdu_getValue pdu pos 2 ;;
  let header := uint8 header in
  let pos := pos + 2 in
  field1 <- Pdu_getValue pdu pos 6 ;;
  let field1 := uint8 field1 in
  let st := m_macState m in
  let st := mkMacState (downlinkUsage st) 0 (logicalChannel st) in
  let st :=
    if fn (m_tetraTime m) =? 18
    then mkMacState COMMON_CONTROL (downlinkUsageMarker st) (logicalChannel st)
    else if header =? 0
    then mkMacState COMMON_CONTROL (downlinkUsageMarker st) (logicalChannel st)
    else if field1 =? 0
    then mkMacState UNALLOCATED (downlinkUsageMarker st) (logicalChannel st)
    else if field1 =? 1
    then mkMacState ASSIGNED_CONTROL (downlinkUsageMarker st) (logicalChannel st)
    else if field1 =? 2
    then mkMacState COMMON_CONTROL (downlinkUsageMarker st) (logicalChannel st)
    else if field1 =? 3
    then mkMacState RESERVED (downlinkUsageMarker st) (logicalChannel st)
    else mkMacState TRAFFIC field1 (logicalChannel st) in
  Some (set_macState st m).

(** The address part of a MAC-RESOURCE header, by address type;
    returns the position after it. *)
Definition resourceAddress (pdu : Pdu) (pos : Z) (m : t) : option (Z * t) :=
  let a := m_macAddress m in
  match addressType a with
  | 1 (* 0b001, SSI *) =>
      v <- Pdu_getValue pdu pos 24 ;;
      Some (pos + 24, set_macAddress (set_ssi v a) m)
  | 3 (* 0b011, USSI *) =>
      v <- Pdu_getValue pdu pos 24 ;;
      Some (pos + 24, set_macAddress (set_ussi v a) m)
  | 4 (* 0b100, SMI *) =>
      v <- Pdu_getValue pdu pos 24 ;;
      Some (pos + 24, set_macAddress (set_smi v a) m)
  | 2 (* 0b010, event label *) =>
      v <- Pdu_getValue pdu pos 10 ;;
      Some (pos + 10, set_macAddress (set_eventLabel v a) m)
  | 5 (* 0b101, SSI + event label *) =>
      v <- Pdu_getValue pdu pos 24 ;;
      let a := set_ssi v a in
      let pos := pos + 24 in
      e <- Pdu_getValue pdu pos 10 ;;
      Some (pos + 10, set_macAddress (set_eventLabel e a) m)
  | 6 (* 0b110, SSI + usage marker *) =>
      v <- Pdu_getValue pdu pos 24 ;;
      let a := set_ssi v a in
      let pos := pos + 24 in
      u <- Pdu_getValue pdu pos 6 ;;
      let a := set_usageMarker u a in
      let pos := pos + 6 in
      tbl <- array_set (m_usageMarkerEncryptionMode m) (usageMarker a)
                       (encryptionMode a) ;;
      Some (pos, set_usageMarkerEncryptionMode tbl (set_macAddress a m))
  | 7 (* 0b111, SMI + event label *) =>
      v <- Pdu_getValue pdu pos 24 ;;
      let a := set_smi v a in
      let pos := pos + 24 in
      e <- Pdu_getValue pdu pos 10 ;;
      Some (pos + 10, set_macAddress (set_eventLabel e a) m)
  | _ => Some (pos, m)
  end.

(** The channel allocation element of MAC-RESOURCE (21.5.2), read when the
    channel allocation flag is set; returns the position after it. *)
Definition resourceChannelAllocation (pdu : Pdu) (pos : Z) (m : t) : option Z :=
  let pos := pos + 2 in                       (* channel allocation type *)
  let pos := pos + 4 in                       (* timeslot assigned *)
  ul_dl <- Pdu_getValue pdu pos 2 ;;
  let ul_dl := uint8 ul_dl in
  let pos := pos + 2 in                       (* up/downlink assigned *)
  let pos := pos + 1 in                       (* CLCH permission *)
  let pos := pos + 1 in                       (* cell change flag *)
  let pos := pos + 12 in                      (* carrier number *)
  flag <- Pdu_getValue pdu pos 1 ;;           (* extended carrier numbering *)
  let pos := pos + 1 in
  let pos := if uint8 flag =? 0 then pos else pos + 4 + 2 + 3 + 1 in
  val <- Pdu_getValue pdu pos 2 ;;            (* monitoring pattern *)
  let pos := pos + 2 in
  let pos :=
    if (uint8 val =? 0) && (fn (m_tetraTime m) =? 18) then pos + 2 else pos in
  if ul_dl =? 0 then                          (* augmented channel allocation *)
    let pos := pos + 2 + 3 + 3 + 3 + 3 + 3 + 4 + 5 in
    val <- Pdu_getValue pdu pos 2 ;;          (* napping_sts *)
    let pos := pos + 2 in
    let pos := if uint8 val =? 1 then pos + 11 else pos in
    let pos := pos + 4 in
    flag <- Pdu_getValue pdu pos 1 ;;
    let pos := pos + 1 in
    let pos := if uint8 flag =? 0 then pos else pos + 16 in
    flag <- Pdu_getValue pdu pos 1 ;;
    let pos := pos + 1 in
    let pos := if uint8 flag =? 0 then pos else pos + 16 in
    Some (pos + 1)
  else Some pos.

(** [Mac::pduProcessResource]; returns the TM-SDU, [*fragmentedPacketFlag],
    [*pduSizeInMac] and the new state.  [pos] is a [uint32_t] that stays far
    below its range. *)
Definition pduProcessResource (mac_pdu : Pdu) (macLogicalChannel : MacLogicalChannel)
    (m : t) : option (Pdu * bool * Z * t) :=
  let pdu := mac_pdu in
  nullType <- Pdu_getValue pdu 13 3 ;;
  if uint8 nullType =? 0 then
    Some ([], false, -1, m)                   (* NULL PDU *)
  else
    let pos := 2 in
    fillBitFlag <- Pdu_getValue pdu pos 1 ;;
    let pos := pos + 1 in
    pdu <- (if uint8 fillBitFlag =? 0 then Some pdu
            else removeFillBits (m_bRemoveFillBits m) pdu) ;;
    let pos := pos + 1 in                     (* position of grant *)
    enc <- Pdu_getValue pdu pos 2 ;;
    let m := set_macAddress (set_encryptionMode enc (m_macAddress m)) m in
    let pos := pos + 2 in
    let pos := pos + 1 in                     (* random access flag *)
    length <- Pdu_getValue pdu pos 6 ;;
    let length := uint32 length in
    let pos := pos + 6 in
    let '(fragmentedPacketFlag, m) :=
      if length =? 62 (* 0b111110 *) then (false, set_secondSlotStolenFlag 1 m)
      else if length =? 63 (* 0b111111 *) then (true, set_secondSlotStolenFlag 0 m)
      else (false, m) in
    aty <- Pdu_getValue pdu pos 3 ;;
    let m := set_macAddress (set_addressType aty (m_macAddress m)) m in
    let pos := pos + 3 in
    '(pos, m) <- resourceAddress pdu pos m ;;
    flag <- Pdu_getValue pdu pos 1 ;;         (* power control flag *)
    let pos := if flag =? 0 then pos + 1 else pos + 1 + 4 in
    flag <- Pdu_getValue pdu pos 1 ;;         (* slot granting flag *)
    let pos := if flag =? 0 then pos + 1 else pos + 1 + 8 in
    flag <- Pdu_getValue pdu pos 1 ;;         (* channel allocation flag *)
    let pos := pos + 1 in
    pos <- (if uint8 flag =? 0 then Some pos
            else resourceChannelAllocation pdu pos m) ;;
    let pduSizeInMac :=
      if fragmentedPacketFlag then 0 else int32 (decodeLength length * 8) in
    let sduLength := int32 (int32 (decodeLength length) * 8 - int32 pos) in
    if sduLength >? 0 then
      if fragmentedPacketFlag then
        let d := MacDefrag.start (m_macAddress m) (getTime m) (m_macDefrag m) in
        let d := MacDefrag.append (Pdu_from pdu pos) (m_macAddress m) d in
        Some ([], fragmentedPacketFlag, pduSizeInMac, set_macDefrag d m)
      else
        Some (Pdu_sub pdu pos sduLength, fragmentedPacketFlag, pduSizeInMac, m)
    else
      Some ([], fragmentedPacketFlag, pduSizeInMac, m).

(** [Mac::pduProcessMacFrag]. *)
Definition pduProcessMacFrag (mac_pdu : Pdu) (m : t) : option t :=
  let pdu := mac_pdu in
  let pos := 3 in
  fillBitFlag <- Pdu_getValue pdu pos 1 ;;
  let pos := pos + 1 in
  pdu <- (if uint8 fillBitFlag =? 0 then Some pdu
          else removeFillBits (m_bRemoveFillBits m) pdu) ;;
  let sdu := Pdu_from pdu pos in
  Some (set_macDefrag (MacDefrag.append sdu (m_macAddress m) (m_macDefrag m)) m).

(** [Mac::pduProcessMacEnd]. *)
Definition pduProcessMacEnd (mac_pdu : Pdu) (m : t) : option (Pdu * t) :=
  let pdu := mac_pdu in
  let pos := 3 in
  fillBitFlag <- Pdu_getValue pdu pos 1 ;;
  let pos := pos + 1 in
  pdu <- (if uint8 fillBitFlag =? 0 then Some pdu
          else removeFillBits (m_bRemoveFillBits m) pdu) ;;
  let pos := pos + 1 in                       (* position of grant *)
  val <- Pdu_getValue pdu pos 6 ;;            (* length of MAC pdu *)
  let val := uint32 val in
  let pos := pos + 6 in
  if (val <? 2 (* 0b000010 *)) || (val >? 34 (* 0b100010 *)) then
    Some ([], m)                              (* reserved *)
  else
    flag <- Pdu_getValue pdu pos 1 ;;         (* slot granting flag *)
    let pos := pos + 1 in
    let pos := if uint8 flag =? 0 then pos else pos + 8 in
    flag <- Pdu_getValue pdu pos 1 ;;         (* channel allocation flag *)
    let pos := pos + 1 in
    pos <- (if uint8 flag =? 0 then Some pos
            else
              let pos := pos + 2 + 4 + 2 + 1 + 1 + 12 in
              flag <- Pdu_getValue pdu pos 1 ;; (* extended carrier numbering *)
              let pos := pos + 1 in
              let pos := if uint8 flag =? 0 then pos else pos + 4 + 2 + 3 + 1 in
              val <- Pdu_getValue pdu pos 2 ;;  (* monitoring pattern *)
              let pos := pos + 2 in
              Some (if (uint32 val =? 0) && (fn (m_tetraTime m) =? 18)
                    then pos + 2 else pos)) ;;
    let d := MacDefrag.append (Pdu_from pdu pos) (m_macAddress m) (m_macDefrag m) in
    let '(sdu, out) := MacDefrag.getSdu d in
    m <- (if Pdu_size sdu >? 0 then
            '(encryptionMode, usageMarker) <- out ;;
            tbl <- array_set (m_usageMarkerEncryptionMode m) usageMarker
                             encryptionMode ;;
            Some (set_macAddress (set_encryptionMode encryptionMode (m_macAddress m))
                    (set_usageMarkerEncryptionMode tbl m))
          else Some m) ;;
    Some (sdu, set_macDefrag (MacDefrag.stop d) m).

(** [Mac::pduProcessSysinfo]; returns the TM-SDU, [*pduSizeInMac] and the
    new state. *)
Definition pduProcessSysinfo (pdu : Pdu) (m : t) : option (Pdu * Z * t) :=
  let MIN_SIZE := 82 in
  if Pdu_size pdu >=? MIN_SIZE then
    let pos := 4 in
    main_carrier <- Pdu_getValue pdu pos 12 ;;
    let main_carrier := wrap 16 main_carrier in
    let pos := pos + 12 in
    band_frequency <- Pdu_getValue pdu pos 4 ;;
    let band_frequency := uint8 band_frequency in
    let pos := pos + 4 in
    offset <- Pdu_getValue pdu pos 2 ;;
    let offset := uint8 offset in
    let pos := pos + 2 in
    let pos := pos + 3 in                     (* duplex spacing *)
    let pos := pos + 1 + 2 + 3 + 4 + 4 + 4 in
    flag <- Pdu_getValue pdu pos 1 ;;
    let pos := pos + 1 in
    let pos := if uint8 flag =? 0 then pos + 16 else pos + 16 in
    let pos := pos + 2 in                     (* optional field flag *)
    let pos := pos + 20 in                    (* option value *)
    let duplex := [0; 6250; -6250; 12500] in
    d <- array_get duplex offset ;;
    let freq := int32 (int32 (int32 (int32 band_frequency * 100000000)
                              + int32 (int32 main_carrier * 25000)) + d) in
    let m := call (SetFrequencies freq 0) m in
    Some (Pdu_sub pdu pos 42, int32 (uint32 (pos + 42)), m)
  else Some ([], 0, m).

(** [Mac::pduProcessDBlock]. *)
Definition pduProcessDBlock (mac_pdu : Pdu) (m : t) : option (Pdu * Z * t) :=
  let pdu := mac_pdu in
  let MIN_SIZE := 268 in
  if Pdu_size pdu >=? MIN_SIZE then
    let pos := 3 in
    fillBitFlag <- Pdu_getValue pdu pos 1 ;;
    let pos := pos + 1 in
    pdu <- (if uint8 fillBitFlag =? 0 then Some pdu
            else removeFillBits (m_bRemoveFillBits m) pdu) ;;
    enc <- Pdu_getValue pdu pos 2 ;;
    let m := set_macAddress (set_encryptionMode enc (m_macAddress m)) m in
    let pos := pos + 2 in
    ev <- Pdu_getValue pdu pos 10 ;;
    let m := set_macAddress (set_eventLabel ev (m_macAddress m)) m in
    let pos := pos + 10 in
    let pos := pos + 1 in                     (* immediate napping permission *)
    flag <- Pdu_getValue pdu pos 1 ;;         (* slot granting flag *)
    let pos := pos + 1 in
    let pos := if uint8 flag =? 0 then pos else pos + 8 in
    Some (Pdu_from pdu pos, int32 MIN_SIZE, m)
  else Some ([], 0, m).

(** [Mac::pduProcessAccessDefine]; returns [*pduSizeInMac]. *)
Definition pduProcessAccessDefine (mac_pdu : Pdu) : option Z :=
  let pdu := mac_pdu in
  let pos := 2 in
  let pos := pos + 2 + 1 + 2 + 4 + 4 + 4 + 1 + 4 + 3 in
  flag <- Pdu_getValue pdu pos 2 ;;           (* optional field flag *)
  let flag := uint8 flag in
  let pos := pos + 1 in
  let pos := if flag =? 1 then pos + 16 else if flag =? 2 then pos + 24 else pos in
  let pos := pos + 3 in                       (* filler bits *)
  Some (int32 (uint32 pos)).

(** What follows depends on the width of the fields of [TetraTime], which
    [common/tetra.h] declares. *)
Section TimeWidth.

Variable tw : Z.

(** [Mac::incrementTn], on the time itself. *)
Definition incrementTime (t0 : TetraTime) : TetraTime :=
  let t1 := mkTetraTime (wrap tw (tn t0 + 1)) (fn t0) (mn t0) in
  let t2 := if tn t1 >? 4
            then mkTetraTime 1 (wrap tw (fn t1 + 1)) (mn t1) else t1 in
  let t3 := if fn t2 >? 18
            then mkTetraTime (tn t2) 1 (wrap tw (mn t2 + 1)) else t2 in
  if mn t3 >? 60 then mkTetraTime (tn t3) (fn t3) 1 else t3.

(** [Mac::incrementTn]. *)
Definition incrementTn (m : t) : t :=
  set_tetraTime (incrementTime (m_tetraTime m)) m.

(** [Mac::pduProcessSync]. *)
Definition pduProcessSync (pdu : Pdu) (m : t) : option (Pdu * t) :=
  let MIN_SIZE := 60 in
  if Pdu_size pdu >=? MIN_SIZE then
    let pos := 4 in                         (* system code *)
    colorCode <- Pdu_getValue pdu pos 6 ;;
    let colorCode := wrap 16 colorCode in
    let pos := pos + 6 in
    v <- Pdu_getValue pdu pos 2 ;;
    let m := set_tetraTime (mkTetraTime (wrap tw (uint64 (v + 1)))
                              (fn (m_tetraTime m)) (mn (m_tetraTime m))) m in
    let pos := pos + 2 in
    v <- Pdu_getValue pdu pos 5 ;;
    let m := set_tetraTime (mkTetraTime (tn (m_tetraTime m)) (wrap tw v)
                              (mn (m_tetraTime m))) m in
    let pos := pos + 5 in
    v <- Pdu_getValue pdu pos 6 ;;
    let m := set_tetraTime (mkTetraTime (tn (m_tetraTime m)) (fn (m_tetraTime m))
                              (wrap tw v)) m in
    let pos := pos + 6 in
    let pos := pos + 2 + 3 + 1 + 1 + 1 in
    mcc <- Pdu_getValue pdu 31 10 ;;
    let mcc := uint32 mcc in
    mnc <- Pdu_getValue pdu 41 14 ;;
    let mnc := wrap 16 mnc in
    let m := call (UpdateScramblingCode mcc mnc colorCode) m in
    Some (Pdu_sub pdu pos 29, m)
  else Some ([], m).

(** The local variables of [serviceUpperMac] that live across the
    iterations of its loop. *)
Record Locals : Type := mkLocals {
  pdu : Pdu;
  tmSdu : Pdu;
  bSendTmSduToLlc : bool;
  fragmentedPacketFlag : bool;
  dissociatePduFlag : bool;
  pduSizeInMac : Z;                         (* int32_t *)
  pduCount : Z                              (* int *)
}.

(** The [switch (macLogicalChannel)] at the head of the loop body. *)
Definition dissect (macLogicalChannel : MacLogicalChannel) (l : Locals) (m : t)
    : option (Locals * t) :=
  match macLogicalChannel with
  | AACH =>
      m <- pduProcessAach (pdu l) m ;;
      Some (l, m)
  | BSCH =>
      '(sdu, m) <- pduProcessSync (pdu l) m ;;
      Some (mkLocals (pdu l) sdu (bSendTmSduToLlc l) (fragmentedPacketFlag l)
              (dissociatePduFlag l) (pduSizeInMac l) (pduCount l), m)
  | TCH_S | TCH =>
      _ <- array_get (m_usageMarkerEncryptionMode m)
                     (downlinkUsageMarker (m_macState m)) ;;   (* log line *)
      enc <- array_get (m_usageMarkerEncryptionMode m)
                       (uint8 (downlinkUsageMarker (m_macState m))) ;;
      Some (l, call (UPlaneService (pdu l) macLogicalChannel (m_tetraTime m)
                       (m_macAddress m) (m_macState m) enc) m)
  | STCH | BNCH | SCH_F | SCH_HD =>
      pduType <- Pdu_getValue (pdu l) 0 2 ;;
      let pduType := uint8 pduType in
      if pduType =? 0 then                  (* MAC-RESOURCE *)
        '(sdu, frag, size, m) <- pduProcessResource (pdu l) macLogicalChannel m ;;
        let bSend := if frag then false else bSendTmSduToLlc l in
        let diss := if frag then dissociatePduFlag l
                    else if size >? 0 then true else dissociatePduFlag l in
        Some (mkLocals (pdu l) sdu bSend frag diss size (pduCount l), m)
      else if pduType =? 1 then             (* MAC-FRAG or MAC-END *)
        subType <- Pdu_getValue (pdu l) 2 1 ;;
        if uint8 subType =? 0 then
          m <- pduProcessMacFrag (pdu l) m ;;
          Some (mkLocals (pdu l) (tmSdu l) false (fragmentedPacketFlag l)
                  (dissociatePduFlag l) (pduSizeInMac l) (pduCount l), m)
        else
          '(sdu, m) <- pduProcessMacEnd (pdu l) m ;;
          Some (mkLocals (pdu l) sdu true (fragmentedPacketFlag l)
                  (dissociatePduFlag l) (pduSizeInMac l) (pduCount l), m)
      else if pduType =? 2 then             (* SYSINFO / ACCESS-DEFINE *)
        broadcastType <- Pdu_getValue (pdu l) 2 2 ;;
        let broadcastType := uint8 broadcastType in
        if broadcastType =? 0 then
          '(sdu, size, m) <- pduProcessSysinfo (pdu l) m ;;
          Some (mkLocals (pdu l) sdu (bSendTmSduToLlc l) (fragmentedPacketFlag l)
                  (dissociatePduFlag l) size (pduCount l), m)
        else if broadcastType =? 1 then
          size <- pduProcessAccessDefine (pdu l) ;;
          Some (mkLocals (pdu l) (tmSdu l) (bSendTmSduToLlc l)
                  (fragmentedPacketFlag l) (dissociatePduFlag l) size (pduCount l), m)
        else Some (l, m)
      else if pduType =? 3 then             (* MAC-D-BLCK *)
        _ <- Pdu_getValue (pdu l) 2 1 ;;
        match macLogicalChannel with
        | STCH | SCH_HD => Some (l, m)
        | _ =>
            '(sdu, size, m) <- pduProcessDBlock (pdu l) m ;;
            Some (mkLocals (pdu l) sdu (bSendTmSduToLlc l) (fragmentedPacketFlag l)
                    (dissociatePduFlag l) size (pduCount l), m)
        end
      else Some (l, m)
  | _ => Some (l, m)
  end.

(** One execution of the body of the [do ... while] loop, with the test
    of its condition: the boolean tells whether the loop goes round
    again. *)
Definition iteration (macLogicalChannel : MacLogicalChannel) (l : Locals) (m : t)
    : option (Locals * t * bool) :=
  let MIN_MAC_RESOURCE_SIZE := 40 in
  let l := mkLocals (pdu l) (tmSdu l) true (fragmentedPacketFlag l) false
             (pduSizeInMac l) (pduCount l) in
  '(l, m) <- dissect macLogicalChannel l m ;;
  let l := mkLocals (pdu l) (tmSdu l) (bSendTmSduToLlc l) (fragmentedPacketFlag l)
             (dissociatePduFlag l) (pduSizeInMac l) (pduCount l + 1) in
  let m :=
    if negb (Pdu_isEmpty (tmSdu l)) && bSendTmSduToLlc l
    then call (LlcService (tmSdu l) macLogicalChannel (m_tetraTime m)
                 (m_macAddress m)) m
    else m in
  if int32 (int32 (Pdu_size (pdu l)) - pduSizeInMac l) <? MIN_MAC_RESOURCE_SIZE
  then Some (l, m, false)                   (* break *)
  else
    let l :=
      if dissociatePduFlag l
      then mkLocals (Pdu_from (pdu l) (pduSizeInMac l)) (tmSdu l)
             (bSendTmSduToLlc l) (fragmentedPacketFlag l) (dissociatePduFlag l)
             (pduSizeInMac l) (pduCount l)
      else l in
    Some (l, m,
          bSendTmSduToLlc l && dissociatePduFlag l && (pduCount l <? 32)).

(** How a run of the loop ends. *)
Inductive Outcome : Type :=
  | Returned (m : t)
  | Raised
  | OutOfFuel.

(** The [do ... while] loop: the number of times its body was entered,
    and the outcome. *)
Fixpoint loop (fuel : nat) (macLogicalChannel : MacLogicalChannel)
    (l : Locals) (m : t) : nat * Outcome :=
  match fuel with
  | O => (O, OutOfFuel)
  | S fuel' =>
      match iteration macLogicalChannel l m with
      | None => (1%nat, Raised)
      | Some (l', m', false) => (1%nat, Returned m')
      | Some (l', m', true) =>
          let '(n, r) := loop fuel' macLogicalChannel l' m' in (S n, r)
      end
  end.

(** [Mac::serviceUpperMac]. *)
Definition serviceUpperMac (fuel : nat) (data : Pdu)
    (macLogicalChannel : MacLogicalChannel) (m : t) : nat * Outcome :=
  let pdu := data in
  let m := set_macState (mkMacState (downlinkUsage (m_macState m))
                           (downlinkUsageMarker (m_macState m))
                           macLogicalChannel) m in
  loop fuel macLogicalChannel (mkLocals pdu [] true false false 0 0) m.

End TimeWidth.

End Mac.

(** ** Burst synchronizer ([decoder.cc]) *)

Module TetraDecoder.

Definition FRAME_LEN : Z := 510.

(** Training sequences (9.4.4.3.2 and 9.4.4.3.4), from [decoder.h]. *)
Definition NORMAL_TRAINING_SEQ_1 : list Z :=
  [1;1;0;1;0;0;0;0;1;1;1;0;1;0;0;1;1;1;0;1;0;0].
Definition NORMAL_TRAINING_SEQ_2 : list Z :=
  [0;1;1;1;1;0;1;0;0;1;0;0;0;0;1;1;0;1;1;1;1;0].
Definition NORMAL_TRAINING_SEQ_3_BEGIN : list Z :=
  [0;0;0;1;1;0;1;0;1;1;0;1].
Definition NORMAL_TRAINING_SEQ_3_END : list Z :=
  [1;0;1;1;0;1;1;1;0;0].
Definition SYNC_TRAINING_SEQ : list Z :=
  [1;1;0;0;0;0;0;1;1;0;0;1;1;1;0;0;1;1;1;0;1;0;0;1;1;1;0;0;0;0;0;1;1;0;0;1;1;1].

(** The decoder.  [m_frame] holds [uint8_t] symbols and
    [m_syncBitCounter] is a [uint64_t].  The last two fields are
    observations added to the state: the number of symbols received so
    far, and the values of that number at which [processFrame] was
    called (oldest first). *)
Record t : Type := mk {
  m_frame : list Z;
  m_bIsSynchronized : bool;
  m_syncBitCounter : Z;
  m_mac : Mac.t;
  symbols : Z;
  processed : list Z
}.

(** The constructor. *)
Definition create (mac : Mac.t) : t := mk [] false 0 mac 0 [].

(** [TetraDecoder::resetSynchronizer]. *)
Definition resetSynchronizer (d : t) : t :=
  mk (m_frame d) true (uint64 (FRAME_LEN * 50)) (m_mac d) (symbols d) (processed d).

(** The loop of [patternAtPositionScore], from index [position] on; a
    read outside [data] has no defined result. *)
Fixpoint scoreLoop (data pattern : list Z) (position : nat) (errors : Z) : option Z :=
  match pattern with
  | [] => Some errors
  | p :: rest =>
      x <- nth_error data position ;;
      scoreLoop data rest (S position) (uint32 (errors + uint32 (Z.lxor p x)))
  end.

(** [TetraDecoder::patternAtPositionScore]. *)
Definition patternAtPositionScore (data pattern : list Z) (position : nat) : option Z :=
  scoreLoop data pattern position 0.

Section Collaborators.

(** Width of the fields of [TetraTime]. *)
Variable tw : Z.

(** [Mac::serviceLowerMac], the entry of the lower MAC, whose block
    codecs are outside the sources. *)
Variable serviceLowerMac : list Z -> BurstType -> Mac.t -> option Mac.t.

(** [TetraDecoder::processFrame]. *)
Definition processFrame (d : t) : option Mac.t :=
  scoreSync <- patternAtPositionScore (m_frame d) SYNC_TRAINING_SEQ 214 ;;
  scoreNormal1 <- patternAtPositionScore (m_frame d) NORMAL_TRAINING_SEQ_1 244 ;;
  scoreNormal2 <- patternAtPositionScore (m_frame d) NORMAL_TRAINING_SEQ_2 244 ;;
  let scoreMin := scoreSync in
  let burstType := SB in
  let '(scoreMin, burstType) :=
    if scoreNormal1 <? scoreMin then (scoreNormal1, NDB) else (scoreMin, burstType) in
  let '(scoreMin, burstType) :=
    if scoreNormal2 <? scoreMin then (scoreNormal2, NDB_SF) else (scoreMin, burstType) in
  if scoreMin <=? 5
  then serviceLowerMac (m_frame d) burstType (m_mac d)
  else Some (m_mac d).

(** [TetraDecoder::rxSymbol]. *)
Definition rxSymbol (sym : Z) (d : t) : option (bool * t) :=
  let d := mk (m_frame d ++ [uint8 sym]) (m_bIsSynchronized d) (m_syncBitCounter d)
              (m_mac d) (symbols d + 1) (processed d) in
  if Z.of_nat (length (m_frame d)) <? FRAME_LEN then Some (false, d)
  else
    scoreBegin <- patternAtPositionScore (m_frame d) NORMAL_TRAINING_SEQ_3_BEGIN 0 ;;
    scoreEnd <- patternAtPositionScore (m_frame d) NORMAL_TRAINING_SEQ_3_END 500 ;;
    let frameFound := (scoreBegin =? 0) && (scoreEnd <? 2) in
    let d := if frameFound then resetSynchronizer d else d in
    '(clearedFlag, d) <-
      (if frameFound || (m_bIsSynchronized d && (m_syncBitCounter d mod 510 =? 0))
       then
         let d := mk (m_frame d) (m_bIsSynchronized d) (m_syncBitCounter d)
                     (Mac.incrementTn tw (m_mac d)) (symbols d)
                     (processed d ++ [symbols d]) in
         mac <- processFrame d ;;
         Some (true, mk [] (m_bIsSynchronized d) (m_syncBitCounter d) mac
                        (symbols d) (processed d))
       else Some (false, d)) ;;
    let d := mk (m_frame d) (m_bIsSynchronized d) (uint64 (m_syncBitCounter d - 1))
                (m_mac d) (symbols d) (processed d) in
    let d :=
      if m_syncBitCounter d <=? 0
      then mk (m_frame d) false 0 (m_mac d) (symbols d) (processed d)
      else d in
    let d :=
      if negb clearedFlag
      then mk (tl (m_frame d)) (m_bIsSynchronized d) (m_syncBitCounter d) (m_mac d)
              (symbols d) (processed d)
      else d in
    Some (frameFound, d).

(** The loop of [main]: the symbols are pushed one at a time; the
    calls of [rxSymbol] that found a burst are counted. *)
Fixpoint rxSymbols (syms : list Z) (d : t) : option (nat * t) :=
  match syms with
  | [] => Some (O, d)
  | sym :: rest =>
      '(found, d) <- rxSymbol sym d ;;
      '(n, d) <- rxSymbols rest d ;;
      Some (if found then S n else n, d)
  end.

End Collaborators.

End TetraDecoder.

(** ** Input loop ([main.cc]) *)

Module Main.

(** The arguments of the calls of [rxSymbol] that one byte of the receive
    buffer gives rise to: with [RX_PACKED],
    [(rxBuf[cnt] >> idx) & 0x01] for [idx] from 0 to 7; otherwise the
    byte itself. *)
Definition byteSymbols (packed : bool) (byte : Z) : list Z :=
  if packed
  then map (fun idx => Z.land (Z.shiftr byte idx) 1) [0; 1; 2; 3; 4; 5; 6; 7]
  else [byte].

(** The same for the bytes read into the buffer, in turn. *)
Definition bufferSymbols (packed : bool) (rxBuf : list Z) : list Z :=
  flat_map (byteSymbols packed) rxBuf.

Section Collaborators.

Variable tw : Z.
Variable serviceLowerMac : list Z -> BurstType -> Mac.t -> option Mac.t.

(** The [for] loop over the bytes read; the results of [rxSymbol] are
    dropped. *)
Definition rxBuffer (packed : bool) (rxBuf : list Z) (d : TetraDecoder.t)
    : option TetraDecoder.t :=
  '(_, d) <- TetraDecoder.rxSymbols tw serviceLowerMac (bufferSymbols packed rxBuf) d ;;
  Some d.

End Collaborators.

End Main.

(** * Notions used in the statements *)

(** A PDU is held in a vector, whose size is a [size_t]. *)
Definition Pdu_fits (p : Pdu) : Prop := Pdu_size p < 2 ^ 64.

(** The channels on which [serviceUpperMac] reads a PDU type. *)
Definition signalling (ch : MacLogicalChannel) : Prop :=
  ch = STCH \/ ch = BNCH \/ ch = SCH_F \/ ch = SCH_HD.

(** Appends of fragments, each with the address current at its time. *)
Definition appends (frags : list (Pdu * MacAddress)) (d : MacDefrag.t) : MacDefrag.t :=
  fold_left (fun d f => MacDefrag.append (fst f) (snd f) d) frags d.

(** The MAC that a run of [serviceUpperMac] returns. *)
Definition returned (r : nat * Mac.Outcome) : option Mac.t :=
  match snd r with
  | Mac.Returned m => Some m
  | _ => None
  end.

(** The TM-SDU and the encryption mode of a call to the LLC. *)
Definition delivered (e : Event) : option (Pdu * Z) :=
  match e with
  | LlcService sdu _ _ a => Some (sdu, encryptionMode a)
  | _ => None
  end.

(** ** The synchronizer seen from outside *)

(** What of the decoder decides when [processFrame] runs and when
    synchronization is lost: the fill of the burst buffer, the two
    synchronizer variables and the observations. *)
Record View : Type := mkView {
  v_fill : Z;
  v_synchronized : bool;
  v_counter : Z;
  v_symbols : Z;
  v_processed : list Z
}.

Definition view (d : TetraDecoder.t) : View :=
  mkView (Z.of_nat (length (TetraDecoder.m_frame d)))
         (TetraDecoder.m_bIsSynchronized d)
         (TetraDecoder.m_syncBitCounter d)
         (TetraDecoder.symbols d)
         (TetraDecoder.processed d).

(** The effect on the view of a call of [rxSymbol] that finds no burst
    ([rxSymbol_unmatched] below). *)
Definition unmatched (v : View) : View :=
  let fill := v_fill v + 1 in
  let symbols := v_symbols v + 1 in
  if fill <? 510 then
    mkView fill (v_synchronized v) (v_counter v) symbols (v_processed v)
  else
    let go := v_synchronized v && (v_counter v mod 510 =? 0) in
    let counter := uint64 (v_counter v - 1) in
    mkView (if go then 0 else fill - 1)
           (if counter <=? 0 then false else v_synchronized v)
           (if counter <=? 0 then 0 else counter)
           symbols
           (if go then v_processed v ++ [symbols] else v_processed v).

(** The symbol counts at which the grace window runs [processFrame]: the
    first [k] multiples of 1019 after [s]. *)
Definition grace_calls (s : Z) (k : nat) : list Z :=
  map (fun i => s + 1019 * Z.of_nat i) (seq 1 k).

(** * Concrete inputs and states *)

Module Bits.
Import Ascii String.

(** A PDU written as a string of 0 and 1; other characters separate
    fields. *)
Fixpoint bits (s : string) : Pdu :=
  match s with
  | EmptyString => []
  | String c rest =>
      if Ascii.eqb c "0"%char then false :: bits rest
      else if Ascii.eqb c "1"%char then true :: bits rest
      else bits rest
  end.

(** A NULL PDU (MAC-RESOURCE, length 2 octets, address type 000) followed
    by bits that the dissector must not look at. *)
Definition null_pdu : Pdu :=
  Eval vm_compute in (bits "00 0 0 00 0 000010 000" ++ repeat true 108).

(** A MAC-RESOURCE PDU of 6 octets: SSI 0x123456, no optional element,
    5 bits of TM-SDU. *)
Definition resource_6_octets : Pdu :=
  Eval vm_compute in (bits "00 0 0 00 0 000110 001 000100100011010001010110 0 0 0 10110").

(** The PDU of scenario E2 of the specification: MAC-RESOURCE of 10
    octets, SSI 0x123456, no optional element, then 37 bits of TM-SDU. *)
Definition resource_10_octets : Pdu :=
  Eval vm_compute in (bits "00 0 0 00 0 001010 001 000100100011010001010110 0 0 0" ++ repeat true 37).

(** MAC-RESOURCE, encryption mode 1, length 0b111111 (start of
    fragmentation), SSI 0x123456, 8 bits of TM-SDU. *)
Definition frag_start_pdu : Pdu :=
  Eval vm_compute in (bits "00 0 0 01 0 111111 001 000100100011010001010110 0 0 0 11001010").

(** MAC-RESOURCE, encryption mode 2, length 5 octets, event label 7,
    11 bits of TM-SDU. *)
Definition event_label_pdu : Pdu :=
  Eval vm_compute in (bits "00 0 0 10 0 000101 010 0000000111 0 0 0 10101010101").

(** MAC-END, length 3, no optional element, 4 bits of TM-SDU. *)
Definition mac_end_pdu : Pdu :=
  Eval vm_compute in (bits "01 1 0 0 000011 0 0 1011").

(** The TM-SDU of [event_label_pdu]. *)
Definition event_label_sdu : Pdu :=
  Eval vm_compute in (bits "10101010101").

(** The TM-SDU of [frag_start_pdu] followed by that of [mac_end_pdu]. *)
Definition reassembled_sdu : Pdu :=
  Eval vm_compute in (bits "11001010 1011").

End Bits.
Import Bits.

Definition address0 : MacAddress := mkMacAddress 0 0 0 0 0 0 0.

(** The MAC as its constructor leaves it (fill-bit stripping enabled), the
    members it does not initialise being zero. *)
Definition mac0 : Mac.t :=
  Mac.create true (mkMacState UNALLOCATED 0 unknown) address0 0.

(** A reassembly in which the encryption mode of the MAC address changes
    between the start of fragmentation and the MAC-END: the three PDUs in
    turn on SCH/HD; the states before and after the MAC-END. *)
Definition reassembly_run : option (Mac.t * Mac.t) :=
  m1 <- returned (Mac.serviceUpperMac 16 32 frag_start_pdu SCH_HD mac0) ;;
  m2 <- returned (Mac.serviceUpperMac 16 32 event_label_pdu SCH_HD m1) ;;
  m3 <- returned (Mac.serviceUpperMac 16 32 mac_end_pdu SCH_HD m2) ;;
  Some (m2, m3).

(** The address with which [frag_start_pdu] starts the reassembly. *)
Definition start_address : MacAddress := mkMacAddress 1 1193046 0 0 0 0 1.

(** The state of the MAC when the MAC-END of [reassembly_run] arrives. *)
Definition before_mac_end :=
  Eval vm_compute in
    match reassembly_run with
    | Some (m2, _) => m2
    | None => mac0
    end.

(** The locals of [serviceUpperMac] when it enters its loop on
    [mac_end_pdu]. *)
Definition mac_end_locals : Mac.Locals :=
  Mac.mkLocals mac_end_pdu [] true false false 0 0.

(** What the iteration of the loop that dissects the MAC-END leaves. *)
Definition after_mac_end :=
  Eval vm_compute in
    match Mac.iteration 16 SCH_HD mac_end_locals before_mac_end with
    | Some r => r
    | None => (mac_end_locals, before_mac_end, false)
    end.

(** A lower MAC that does nothing. *)
Definition no_lower_mac : list Z -> BurstType -> Mac.t -> option Mac.t :=
  fun _ _ m => Some m.

(** A burst that matches: the two parts of the third training sequence at
    offsets 0 and 500, zeros between. *)
Definition matched_burst : list Z :=
  TetraDecoder.NORMAL_TRAINING_SEQ_3_BEGIN ++ repeat 0 488
  ++ TetraDecoder.NORMAL_TRAINING_SEQ_3_END.

(** A new decoder that has received all of [matched_burst] but its last
    symbol. *)
Definition before_match :=
  Eval vm_compute in
    match TetraDecoder.rxSymbols 16 no_lower_mac (removelast matched_burst)
            (TetraDecoder.create mac0) with
    | Some (_, d) => d
    | None => TetraDecoder.create mac0
    end.

(** The decoder after the last symbol of [matched_burst]. *)
Definition after_match :=
  Eval vm_compute in
    match TetraDecoder.rxSymbol 16 no_lower_mac (last matched_burst 0) before_match with
    | Some (_, d) => d
    | None => before_match
    end.

(** 51000 zeros, in which nothing matches. *)
Definition silence : list Z := repeat 0 (51 * 1000).

(** The decoder after [matched_burst] and [silence]. *)
Definition after_silence :=
  Eval vm_compute in
    match TetraDecoder.rxSymbols 16 no_lower_mac silence after_match with
    | Some (_, d) => d
    | None => after_match
    end.

(** ** Notions and inputs of the further properties *)

(** The position of a TDMA time in the hyperframe, counted in time slots
    from (1, 1, 1). *)
Definition slot_index (t : TetraTime) : Z :=
  ((mn t - 1) * 18 + (fn t - 1)) * 4 + (tn t - 1).

(** Symbols that are hard bits. *)
Definition binary (l : list Z) : Prop := Forall (fun x => x = 0 \/ x = 1) l.

(** The number of places at which a pattern differs from the symbols it
    is laid over. *)
Fixpoint hamming (pattern data : list Z) : Z :=
  match pattern, data with
  | p :: pattern', x :: data' => (if p =? x then 0 else 1) + hamming pattern' data'
  | _, _ => 0
  end.

(** A lower MAC that always returns. *)
Definition returns (serviceLowerMac : list Z -> BurstType -> Mac.t -> option Mac.t)
    : Prop :=
  forall frame burstType mac, exists mac', serviceLowerMac frame burstType mac = Some mac'.

(** A buffer of zeros with the first normal training sequence at its
    place. *)
Definition ndb_frame : list Z :=
  repeat 0 244 ++ TetraDecoder.NORMAL_TRAINING_SEQ_1 ++ repeat 0 244.

(** What MAC-RESOURCE, MAC-FRAG, MAC-END and MAC-D-BLCK leave alone: the
    TDMA time, the MAC state, the fill-bit option, the calls made so far
    and the size of the usage marker table. *)
Definition same_but_address (m m' : Mac.t) : Prop :=
  Mac.m_tetraTime m' = Mac.m_tetraTime m
  /\ Mac.m_macState m' = Mac.m_macState m
  /\ Mac.m_bRemoveFillBits m' = Mac.m_bRemoveFillBits m
  /\ Mac.calls m' = Mac.calls m
  /\ length (Mac.m_usageMarkerEncryptionMode m')
     = length (Mac.m_usageMarkerEncryptionMode m).

(** What [pduProcessResource] returns on [frag_start_pdu]. *)
Definition frag_start_outcome :=
  Eval vm_compute in
    match Mac.pduProcessResource frag_start_pdu SCH_HD mac0 with
    | Some r => r
    | None => ([], false, 0, mac0)
    end.

Module Pdus.
Import Ascii String.

(** A SYNC PDU: colour code 5, time (3, 7, 33), MCC 208 and MNC 10 from
    bit 31 on. *)
Definition sync_pdu : Pdu :=
  Eval vm_compute in
    (bits "0000 000101 10 00111 100001 00 000 0 0 0 0011010000 00000000001010 00000").

(** A SYSINFO PDU of 124 bits: main carrier 1234, band 4, offset 2. *)
Definition sysinfo_pdu : Pdu :=
  Eval vm_compute in
    (bits "10 00 010011010010 0100 10 000 0 00 000 0000 0000 0000 0"
     ++ repeat false 16 ++ bits "00" ++ repeat false 20 ++ repeat true 42).

(** An ACCESS-ASSIGN PDU: header 01, field 1 = 9 (traffic, usage marker
    9), field 2 = 0. *)
Definition aach_pdu : Pdu :=
  Eval vm_compute in (bits "01 001001 000000").

(** An ACCESS-DEFINE PDU (PDU type 10, broadcast type 01) without
    optional field, filled up to 40 bits. *)
Definition access_define_pdu : Pdu :=
  Eval vm_compute in
    (bits "10 01 0 00 0000 0000 0000 0 0000 000 00 000 00000000").

(** A MAC-D-BLCK PDU of 268 bits: no fill bits, encryption mode 2, event
    label 5, no slot granting, 250 bits of TM-SDU. *)
Definition dblock_pdu : Pdu :=
  Eval vm_compute in (bits "11 0 0 10 0000000101 0 0" ++ repeat true 250).

(** A MAC-FRAG PDU with fill bits: 5 bits of TM-SDU, the 1 that ends
    them and 6 zeros. *)
Definition mac_frag_pdu : Pdu :=
  Eval vm_compute in (bits "01 0 1 10110 1 000000").

End Pdus.
Import Pdus.

(** The calls to its collaborators that [serviceUpperMac] makes on a
    logical channel. *)
Definition allowed (ch : MacLogicalChannel) (e : Event) : Prop :=
  match e with
  | LlcService sdu ch' _ _ => ch' = ch /\ sdu <> [] /\ (ch = BSCH \/ signalling ch)
  | UPlaneService _ ch' _ _ _ _ => ch' = ch /\ (ch = TCH_S \/ ch = TCH)
  | UpdateScramblingCode _ _ _ => ch = BSCH
  | SetFrequencies _ uplink => signalling ch /\ uplink = 0
  end.

(** What a run of [serviceUpperMac] on a logical channel may change of
    the MAC, whatever the PDU: calls are added, all of them [allowed]; the
    fill-bit option, the size of the usage marker table and the logical
    channel stay; the TDMA time stays but on BSCH. *)
Definition effects (ch : MacLogicalChannel) (m m' : Mac.t) : Prop :=
  Mac.m_bRemoveFillBits m' = Mac.m_bRemoveFillBits m
  /\ length (Mac.m_usageMarkerEncryptionMode m')
     = length (Mac.m_usageMarkerEncryptionMode m)
  /\ logicalChannel (Mac.m_macState m') = logicalChannel (Mac.m_macState m)
  /\ (ch <> BSCH -> Mac.m_tetraTime m' = Mac.m_tetraTime m)
  /\ exists new, Mac.calls m' = Mac.calls m ++ new /\ Forall (allowed ch) new.

(** The locals of [serviceUpperMac] when it enters its loop. *)
Definition locals0 (data : Pdu) : Mac.Locals :=
  Mac.mkLocals data [] true false false 0 0.

(** The duplex offsets of SYSINFO (21.4.4.1), in Hz. *)
Definition duplex_offset (offset : Z) : Z :=
  nth (Z.to_nat offset) [0; 6250; -6250; 12500] 0.

(** The MAC with its logical channel set, as [serviceUpperMac] does on
    entry. *)
Definition on_channel (ch : MacLogicalChannel) (m : Mac.t) : Mac.t :=
  Mac.set_macState
    (mkMacState (downlinkUsage (Mac.m_macState m))
       (downlinkUsageMarker (Mac.m_macState m)) ch) m.

(** A block of two PDUs: a MAC-RESOURCE with 5 bits of TM-SDU, then an
    ACCESS-DEFINE. *)
Definition resource_then_access_define : Pdu :=
  Eval vm_compute in (resource_6_octets ++ access_define_pdu).

(** The first two iterations of the loop of [serviceUpperMac] on it. *)
Definition first_iteration :=
  Eval vm_compute in
    match Mac.iteration 16 SCH_F (locals0 resource_then_access_define)
            (on_channel SCH_F mac0) with
    | Some r => r
    | None => (locals0 [], mac0, false)
    end.

Definition second_iteration :=
  Eval vm_compute in
    match Mac.iteration 16 SCH_F (fst (fst first_iteration)) (snd (fst first_iteration)) with
    | Some r => r
    | None => (locals0 [], mac0, false)
    end.

(** The indices into the table of encryption modes that the MAC keeps:
    the usage marker of its address, that of the address under which the
    defragmenter runs, and the usage marker of the downlink; all within
    the 64 entries of the table. *)
Definition markers_in_range (m : Mac.t) : Prop :=
  length (Mac.m_usageMarkerEncryptionMode m) = 64%nat
  /\ 0 <= usageMarker (Mac.m_macAddress m) <= 63
  /\ 0 <= usageMarker (MacDefrag.macAddress (Mac.m_macDefrag m)) <= 63
  /\ 0 <= downlinkUsageMarker (Mac.m_macState m) <= 63.

(** [mac_end_pdu] followed by 40 zeros, 56 bits and more. *)
Definition mac_end_padded : Pdu :=
  Eval vm_compute in (mac_end_pdu ++ repeat false 40).


(** * Tactics *)

(** Case analysis along a dissector: every read and every test in turn. *)
Ltac step_dissector :=
  match goal with
  | H : bind ?c _ = Some _ |- _ =>
      let E := fresh "E" in destruct c eqn:E; cbn [bind] in H; [|discriminate H]
  | H : (let '(_, _) := ?c in _) = Some _ |- _ => destruct c
  | H : (if ?c then _ else _) = Some _ |- _ =>
      let E := fresh "E" in destruct c eqn:E
  | H : match ?c with _ => _ end = Some _ |- _ =>
      let E := fresh "E" in destruct c eqn:E
  | H : Some _ = Some _ |- _ => injection H as H; subst
  | H : (_, _) = (_, _) |- _ => injection H as H; subst
  end.

(** One read of a dissector that has returned: the value read is named. *)
Ltac bind_step H :=
  match type of H with
  | bind ?c _ = Some _ =>
      let E := fresh "E" in
      destruct c eqn:E; cbn [bind] in H; [|discriminate H]
  end.

(** One step through a parser that has returned: decide the conditions
    the position of the next field depends on, then read it. *)
Ltac parse_step H :=
  match type of H with
  | bind (Pdu_getValue _ ?pos _) _ = _ =>
      match pos with context [if ?c then _ else _] => destruct c end
  | (if ?c then _ else _) = _ => destruct c
  | bind _ _ = Some _ => bind_step H
  end.

(** One step through a parser that is to be shown to return: decide the
    conditions the position of the next field depends on, then read it. *)
Ltac read_step :=
  match goal with
  | |- bind (Pdu_getValue ?p ?pos ?n) _ <> None =>
      first
        [ match pos with context [if ?c then _ else _] => destruct c end
        | let v := fresh "v" in
          let E := fresh "E" in
          destruct (Pdu_getValue p pos n) as [v|] eqn:E;
          [ cbn [bind]
          | exfalso; revert E; unfold Pdu_getValue;
            destruct (Z.leb_spec (pos + n) (Pdu_size p)) as [_|Hout];
            [ intros E; discriminate E | lia ] ] ]
  end.

(** * Properties *)

(** ** Reading fields of a PDU *)

Lemma value_msb_acc (bits : list bool) (acc : Z) :
  value_msb acc bits = acc * 2 ^ Z.of_nat (length bits) + value_msb 0 bits.
Proof.
  revert acc; induction bits as [|b bits IH]; intros acc.
  - simpl. lia.
  - cbn [value_msb length]. rewrite IH, (IH (2 * 0 + Z.b2z b)).
    rewrite Nat2Z.inj_succ, Z.pow_succ_r by lia. ring.
Qed.

Lemma value_msb_range (bits : list bool) :
  0 <= value_msb 0 bits < 2 ^ Z.of_nat (length bits).
Proof.
  induction bits as [|b bits IH].
  - simpl. lia.
  - cbn [value_msb length]. rewrite value_msb_acc.
    rewrite Nat2Z.inj_succ, Z.pow_succ_r by lia.
    destruct b; cbn [Z.b2z]; lia.
Qed.

Lemma wrap_small (w x : Z) : 0 <= x < 2 ^ w -> wrap w x = x.
Proof. intros H. unfold wrap. apply Z.mod_small, H. Qed.

Lemma wrap_small_le (w n x : Z) : 0 <= n <= w -> 0 <= x < 2 ^ n -> wrap w x = x.
Proof.
  intros Hn Hx. apply wrap_small.
  assert (2 ^ n <= 2 ^ w) by (apply Z.pow_le_mono_r; lia). lia.
Qed.

Lemma Pdu_getValue_range (p : Pdu) (pos n v : Z) :
  0 <= n <= 64 -> Pdu_getValue p pos n = Some v -> 0 <= v < 2 ^ n.
Proof.
  intros Hn H. unfold Pdu_getValue in H.
  destruct (pos + n <=? Pdu_size p); [|discriminate].
  injection H as <-.
  set (bits := firstn _ _).
  assert (Hlen : Z.of_nat (length bits) <= n).
  { subst bits. rewrite length_firstn. lia. }
  pose proof (value_msb_range bits) as Hr.
  assert (2 ^ Z.of_nat (length bits) <= 2 ^ n) by (apply Z.pow_le_mono_r; lia).
  unfold uint64. rewrite (wrap_small_le 64 n); lia.
Qed.

Lemma Pdu_getValue_defined (p : Pdu) (pos n : Z) :
  pos + n <= Pdu_size p -> exists v, Pdu_getValue p pos n = Some v.
Proof.
  intros H. unfold Pdu_getValue.
  destruct (Z.leb_spec (pos + n) (Pdu_size p)); [eauto|lia].
Qed.

(** ** TDMA time *)

Lemma incrementTime_valid (tw : Z) (t0 : TetraTime) :
  6 <= tw -> TetraTime_valid t0 -> TetraTime_valid (Mac.incrementTime tw t0).
Proof.
  intros Htw (Htn & Hfn & Hmn).
  assert (H64 : 2 ^ 6 <= 2 ^ tw) by (apply Z.pow_le_mono_r; lia).
  change (2 ^ 6) with 64 in H64.
  unfold Mac.incrementTime, TetraTime_valid.
  cbn [tn fn mn].
  rewrite (wrap_small tw (tn t0 + 1)) by lia.
  destruct (Z.gtb_spec (tn t0 + 1) 4); cbn [tn fn mn].
  - rewrite (wrap_small tw (fn t0 + 1)) by lia.
    destruct (Z.gtb_spec (fn t0 + 1) 18); cbn [tn fn mn].
    + rewrite (wrap_small tw (mn t0 + 1)) by lia.
      destruct (Z.gtb_spec (mn t0 + 1) 60); cbn [tn fn mn]; lia.
    + destruct (Z.gtb_spec (mn t0) 60); cbn [tn fn mn]; lia.
  - destruct (Z.gtb_spec (fn t0) 18); cbn [tn fn mn]; [lia|].
    destruct (Z.gtb_spec (mn t0) 60); cbn [tn fn mn]; lia.
Qed.

Lemma incrementTime_width (tw : Z) (t0 : TetraTime) :
  6 <= tw -> TetraTime_valid t0 -> Mac.incrementTime tw t0 = Mac.incrementTime 6 t0.
Proof.
  intros Htw (Htn & Hfn & Hmn).
  assert (H64 : 2 ^ 6 <= 2 ^ tw) by (apply Z.pow_le_mono_r; lia).
  change (2 ^ 6) with 64 in H64.
  unfold Mac.incrementTime. cbn [tn fn mn].
  rewrite (wrap_small tw (tn t0 + 1)), (wrap_small 6 (tn t0 + 1)) by (simpl; lia).
  destruct (tn t0 + 1 >? 4); cbn [tn fn mn].
  - rewrite (wrap_small tw (fn t0 + 1)), (wrap_small 6 (fn t0 + 1)) by (simpl; lia).
    destruct (fn t0 + 1 >? 18); cbn [tn fn mn]; [|reflexivity].
    rewrite (wrap_small tw (mn t0 + 1)), (wrap_small 6 (mn t0 + 1)) by (simpl; lia).
    reflexivity.
  - destruct (fn t0 >? 18); cbn [tn fn mn]; [|reflexivity].
    rewrite (wrap_small tw (mn t0 + 1)), (wrap_small 6 (mn t0 + 1)) by (simpl; lia).
    reflexivity.
Qed.

Lemma validb_valid (t0 : TetraTime) : TetraTime_validb t0 = true <-> TetraTime_valid t0.
Proof.
  unfold TetraTime_validb, TetraTime_valid.
  rewrite !andb_true_iff, !Z.leb_le. tauto.
Qed.

Lemma incrementTn_time (tw : Z) (n : nat) (m : Mac.t) :
  Mac.m_tetraTime (Nat.iter n (Mac.incrementTn tw) m)
  = Nat.iter n (Mac.incrementTime tw) (Mac.m_tetraTime m).
Proof.
  induction n as [|n IH]; [reflexivity|].
  rewrite !Nat.iter_succ. unfold Mac.incrementTn at 1.
  cbn [Mac.set_tetraTime Mac.m_tetraTime]. now rewrite IH.
Qed.

Lemma incrementTime_iter_valid (tw : Z) (n : nat) (t0 : TetraTime) :
  6 <= tw -> TetraTime_valid t0 ->
  TetraTime_valid (Nat.iter n (Mac.incrementTime tw) t0).
Proof.
  intros Htw Hv. induction n as [|n IH]; [exact Hv|].
  rewrite Nat.iter_succ. now apply incrementTime_valid.
Qed.

Lemma incrementTime_iter_width (tw : Z) (n : nat) (t0 : TetraTime) :
  6 <= tw -> TetraTime_valid t0 ->
  Nat.iter n (Mac.incrementTime tw) t0 = Nat.iter n (Mac.incrementTime 6) t0.
Proof.
  intros Htw Hv. induction n as [|n IH]; [reflexivity|].
  rewrite !Nat.iter_succ, <- IH.
  apply incrementTime_width; [exact Htw|].
  now apply incrementTime_iter_valid.
Qed.

(** C8.  Starting from the time (1, 1, 1), [incrementTn] applied
    4 * 18 * 60 = 4320 times gives (1, 1, 1) again, and after any number
    [n] of applications (so at every intermediate state) the time is
    within tn in [1,4], fn in [1,18], mn in [1,60].  The fields of the
    time are at least 6 bits wide. *)
Theorem incrementTn_full_cycle (tw : Z) (m : Mac.t) (n : nat) :
  6 <= tw ->
  Mac.m_tetraTime m = mkTetraTime 1 1 1 ->
  Mac.m_tetraTime (Nat.iter (4 * 18 * 60) (Mac.incrementTn tw) m) = mkTetraTime 1 1 1
  /\ TetraTime_valid (Mac.m_tetraTime (Nat.iter n (Mac.incrementTn tw) m)).
Proof.
  intros Htw H1.
  assert (Hv : TetraTime_valid (mkTetraTime 1 1 1)) by (apply validb_valid; reflexivity).
  rewrite !incrementTn_time, H1. split.
  - rewrite incrementTime_iter_width by assumption. vm_compute. reflexivity.
  - now apply incrementTime_iter_valid.
Qed.

Lemma incrementTn_full_cycle_witness :
  Mac.m_tetraTime (Nat.iter (4 * 18 * 60) (Mac.incrementTn 16) mac0) = mkTetraTime 1 1 1
  /\ TetraTime_valid (Mac.m_tetraTime (Nat.iter 7 (Mac.incrementTn 16) mac0)).
Proof.
  apply (incrementTn_full_cycle 16 mac0 7); [lia | reflexivity].
Defined.

Lemma pduProcessSync_time (tw : Z) (p : Pdu) (m : Mac.t) :
  6 <= tw -> 60 <= Pdu_size p ->
  exists sdu m' f_tn f_fn f_mn,
    Pdu_getValue p 10 2 = Some f_tn /\
    Pdu_getValue p 12 5 = Some f_fn /\
    Pdu_getValue p 17 6 = Some f_mn /\
    Mac.pduProcessSync tw p m = Some (sdu, m') /\
    Mac.m_tetraTime m' = mkTetraTime (f_tn + 1) f_fn f_mn /\
    0 <= f_tn <= 3 /\ 0 <= f_fn <= 31 /\ 0 <= f_mn <= 63.
Proof.
  intros Htw Hsz.
  assert (H64 : 2 ^ 6 <= 2 ^ tw) by (apply Z.pow_le_mono_r; lia).
  change (2 ^ 6) with 64 in H64.
  destruct (Pdu_getValue_defined p 4 6) as [cc Hcc]; [lia|].
  destruct (Pdu_getValue_defined p 10 2) as [v1 H1]; [lia|].
  destruct (Pdu_getValue_defined p 12 5) as [v2 H2]; [lia|].
  destruct (Pdu_getValue_defined p 17 6) as [v3 H3]; [lia|].
  destruct (Pdu_getValue_defined p 31 10) as [mcc Hmcc]; [lia|].
  destruct (Pdu_getValue_defined p 41 14) as [mnc Hmnc]; [lia|].
  pose proof (Pdu_getValue_range p 10 2 v1 ltac:(lia) H1) as R1.
  pose proof (Pdu_getValue_range p 12 5 v2 ltac:(lia) H2) as R2.
  pose proof (Pdu_getValue_range p 17 6 v3 ltac:(lia) H3) as R3.
  change (2 ^ 2) with 4 in R1. change (2 ^ 5) with 32 in R2. change (2 ^ 6) with 64 in R3.
  unfold Mac.pduProcessSync.
  destruct (Z.geb_spec (Pdu_size p) 60) as [_|]; [|lia].
  cbn [Z.add Pos.add Pos.succ] in *.
  change (4 + 6) with 10. rewrite Hcc. cbn [bind].
  rewrite H1. cbn [bind]. change (10 + 2) with 12. rewrite H2. cbn [bind].
  change (12 + 5) with 17. rewrite H3. cbn [bind].
  rewrite Hmcc. cbn [bind]. rewrite Hmnc. cbn [bind].
  do 5 eexists. repeat split; try reflexivity; try lia.
  cbn [Mac.call Mac.set_tetraTime Mac.m_tetraTime tn fn mn].
  unfold uint64.
  rewrite (wrap_small 64 (v1 + 1)) by (change (2 ^ 64) with 18446744073709551616; lia).
  rewrite (wrap_small tw (v1 + 1)), (wrap_small tw v2), (wrap_small tw v3) by lia.
  reflexivity.
Qed.

(** C2, as the code has it.  [incrementTn] keeps a time that is within
    tn in [1,4], fn in [1,18], mn in [1,60] within these ranges.  The BSCH
    SYNC dissection of a PDU of at least 60 bits copies the fields of the
    PDU unchecked: tn becomes bits 10..11 plus one, in [1,4]; fn becomes
    bits 12..16, in [0,31]; mn becomes bits 17..22, in [0,63]; the time is
    within the declared ranges exactly when the fn field is in [1,18] and
    the mn field in [1,60]. *)
Theorem tetraTime_mutations (tw : Z) (p : Pdu) (m : Mac.t) :
  6 <= tw ->
  60 <= Pdu_size p ->
  (TetraTime_valid (Mac.m_tetraTime m) ->
   TetraTime_valid (Mac.m_tetraTime (Mac.incrementTn tw m)))
  /\ exists sdu m' f_tn f_fn f_mn,
       Pdu_getValue p 10 2 = Some f_tn /\
       Pdu_getValue p 12 5 = Some f_fn /\
       Pdu_getValue p 17 6 = Some f_mn /\
       Mac.pduProcessSync tw p m = Some (sdu, m') /\
       Mac.m_tetraTime m' = mkTetraTime (f_tn + 1) f_fn f_mn /\
       1 <= f_tn + 1 <= 4 /\ 0 <= f_fn <= 31 /\ 0 <= f_mn <= 63 /\
       (TetraTime_valid (Mac.m_tetraTime m') <-> 1 <= f_fn <= 18 /\ 1 <= f_mn <= 60).
Proof.
  intros Htw Hsz. split.
  - intros Hv. unfold Mac.incrementTn. cbn [Mac.set_tetraTime Mac.m_tetraTime].
    now apply incrementTime_valid.
  - destruct (pduProcessSync_time tw p m Htw Hsz)
      as (sdu & m' & a & b & c & Ha & Hb & Hc & Hrun & Ht & Ra & Rb & Rc).
    exists sdu, m', a, b, c. repeat split; try assumption; try lia;
      rewrite Ht in *; unfold TetraTime_valid in *; cbn [tn fn mn] in *; lia.
Qed.

Lemma tetraTime_mutations_witness :
  (TetraTime_valid (Mac.m_tetraTime mac0) ->
   TetraTime_valid (Mac.m_tetraTime (Mac.incrementTn 16 mac0)))
  /\ exists sdu m' f_tn f_fn f_mn,
       Pdu_getValue (repeat true 60) 10 2 = Some f_tn /\
       Pdu_getValue (repeat true 60) 12 5 = Some f_fn /\
       Pdu_getValue (repeat true 60) 17 6 = Some f_mn /\
       Mac.pduProcessSync 16 (repeat true 60) mac0 = Some (sdu, m') /\
       Mac.m_tetraTime m' = mkTetraTime (f_tn + 1) f_fn f_mn /\
       1 <= f_tn + 1 <= 4 /\ 0 <= f_fn <= 31 /\ 0 <= f_mn <= 63 /\
       (TetraTime_valid (Mac.m_tetraTime m') <-> 1 <= f_fn <= 18 /\ 1 <= f_mn <= 60).
Proof.
  apply (tetraTime_mutations 16 (repeat true 60) mac0); [lia | vm_compute; discriminate].
Defined.

(** C2 fails as stated: the SYNC dissection of the 60-bit PDU made of
    zeros leaves fn = 0 and mn = 0, outside [1,18] and [1,60]. *)
Lemma pduProcessSync_leaves_range :
  60 <= Pdu_size (repeat false 60)
  /\ option_map (fun r => Mac.m_tetraTime (snd r))
       (Mac.pduProcessSync 16 (repeat false 60) mac0) = Some (mkTetraTime 1 0 0)
  /\ ~ TetraTime_valid (mkTetraTime 1 0 0).
Proof.
  split; [vm_compute; discriminate|].
  split; [vm_compute; reflexivity|].
  unfold TetraTime_valid. cbn [tn fn mn]. lia.
Qed.

(** ** Length indication of MAC-RESOURCE *)

Lemma int32_small (x : Z) : -2147483648 <= x < 2147483648 -> int32 x = x.
Proof.
  intros H. unfold int32.
  change (2 ^ 31) with 2147483648. change (2 ^ 32) with 4294967296.
  rewrite Z.mod_small; lia.
Qed.

Lemma uint32_small (x : Z) : 0 <= x < 4294967296 -> uint32 x = x.
Proof. intros H. apply wrap_small. change (2 ^ 32) with 4294967296. exact H. Qed.

Lemma decodeLength_low (v : Z) : 0 <= v <= 18 -> Mac.decodeLength v = v.
Proof.
  intros H. unfold Mac.decodeLength.
  destruct (Z.eqb_spec v 0) as [->|H0]; [reflexivity|].
  destruct (Z.eqb_spec v 59); [lia|]. destruct (Z.eqb_spec v 60); [lia|].
  cbn [orb]. destruct (Z.leb_spec v 18); [|lia].
  rewrite Z.mul_1_r, uint32_small, int32_small; lia.
Qed.

Lemma decodeLength_high (v : Z) : 19 <= v <= 58 -> Mac.decodeLength v = 18 + (v - 18).
Proof.
  intros H. unfold Mac.decodeLength.
  destruct (Z.eqb_spec v 0); [lia|].
  destruct (Z.eqb_spec v 59); [lia|]. destruct (Z.eqb_spec v 60); [lia|].
  cbn [orb]. destruct (Z.leb_spec v 18); [lia|]. destruct (Z.leb_spec v 58); [|lia].
  rewrite !Z.mul_1_r, !(uint32_small (v - 18)) by lia.
  rewrite uint32_small, int32_small; lia.
Qed.

(** C4.  [decodeLength] maps 0b000000, 0b111011 and 0b111100 to 0, every
    value v <= 0b010010 to v, every value in 0b010011..0b111010 to
    18 + (v - 18), 0b111110 to 0b111110 and 0b111111 to 0b111111. *)
Theorem decodeLength_table (v : Z) :
  Mac.decodeLength 0 = 0
  /\ Mac.decodeLength 59 = 0
  /\ Mac.decodeLength 60 = 0
  /\ (0 <= v <= 18 -> Mac.decodeLength v = v)
  /\ (19 <= v <= 58 -> Mac.decodeLength v = 18 + (v - 18))
  /\ Mac.decodeLength 62 = 62
  /\ Mac.decodeLength 63 = 63.
Proof.
  repeat split; try reflexivity.
  - apply decodeLength_low.
  - apply decodeLength_high.
Qed.

Lemma decodeLength_table_witness :
  Mac.decodeLength 1 = 1 /\ Mac.decodeLength 58 = 18 + (58 - 18).
Proof.
  split.
  - destruct (decodeLength_table 1) as (_ & _ & _ & H & _). apply H. lia.
  - destruct (decodeLength_table 58) as (_ & _ & _ & _ & H & _). apply H. lia.
Defined.

(** ** Defragmenter *)

(** C5.  For every address [A] and fragments [f1], [f2], whatever the
    defragmenter held before: start(A); append(f1, A); append(f2, A);
    getSdu() yields f1 ++ f2; and for an address [B] whose ssi differs
    from that of [A], append(x, B) after start(A) stops the defragmenter,
    and getSdu() then yields an empty PDU. *)
Theorem defrag_contract (A B : MacAddress) (ts : TetraTime) (f1 f2 x : Pdu)
    (d : MacDefrag.t) :
  fst (MacDefrag.getSdu
         (MacDefrag.append f2 A (MacDefrag.append f1 A (MacDefrag.start A ts d))))
  = f1 ++ f2
  /\ (ssi B <> ssi A ->
      MacDefrag.b_stopped (MacDefrag.append x B (MacDefrag.start A ts d)) = true
      /\ fst (MacDefrag.getSdu (MacDefrag.append x B (MacDefrag.start A ts d))) = []).
Proof.
  split.
  - unfold MacDefrag.append, MacDefrag.start, MacDefrag.getSdu.
    cbn [MacDefrag.b_stopped MacDefrag.macAddress MacDefrag.m_sdu].
    rewrite Z.eqb_refl. cbn [negb MacDefrag.b_stopped MacDefrag.macAddress MacDefrag.m_sdu].
    rewrite Z.eqb_refl. reflexivity.
  - intros Hne.
    unfold MacDefrag.append, MacDefrag.start, MacDefrag.getSdu.
    cbn [MacDefrag.b_stopped MacDefrag.macAddress MacDefrag.m_sdu].
    destruct (Z.eqb_spec (ssi B) (ssi A)); [contradiction|].
    split; reflexivity.
Qed.

Lemma defrag_contract_witness :
  fst (MacDefrag.getSdu
         (MacDefrag.append [false; true] address0
            (MacDefrag.append [true] address0
               (MacDefrag.start address0 (mkTetraTime 1 1 1) (Mac.m_macDefrag mac0)))))
  = [true] ++ [false; true]
  /\ MacDefrag.b_stopped
       (MacDefrag.append [true; true] (set_ssi 7 address0)
          (MacDefrag.start address0 (mkTetraTime 1 1 1) (Mac.m_macDefrag mac0))) = true
  /\ fst (MacDefrag.getSdu
            (MacDefrag.append [true; true] (set_ssi 7 address0)
               (MacDefrag.start address0 (mkTetraTime 1 1 1) (Mac.m_macDefrag mac0)))) = [].
Proof.
  destruct (defrag_contract address0 (set_ssi 7 address0) (mkTetraTime 1 1 1)
              [true] [false; true] [true; true] (Mac.m_macDefrag mac0)) as [H1 H2].
  split; [exact H1|]. apply H2. vm_compute. discriminate.
Defined.

(** ** AACH *)

(** C9.  When the TDMA time has fn = 18, [pduProcessAach] returns for every
    PDU of at least 8 bits, and whenever it returns the downlink usage is
    COMMON_CONTROL, whatever the header and field 1 of the PDU. *)
Theorem pduProcessAach_frame18 (p : Pdu) (m : Mac.t) :
  fn (Mac.m_tetraTime m) = 18 ->
  (8 <= Pdu_size p -> exists m', Mac.pduProcessAach p m = Some m')
  /\ (forall m', Mac.pduProcessAach p m = Some m' ->
      downlinkUsage (Mac.m_macState m') = COMMON_CONTROL).
Proof.
  intros Hfn. unfold Mac.pduProcessAach. rewrite Hfn. split.
  - intros Hsz.
    destruct (Pdu_getValue_defined p 0 2) as [h Hh]; [lia|].
    destruct (Pdu_getValue_defined p 2 6) as [f Hf]; [lia|].
    change (0 + 2) with 2. rewrite Hh. cbn [bind]. rewrite Hf. cbn [bind].
    eauto.
  - intros m'. change (0 + 2) with 2.
    destruct (Pdu_getValue p 0 2) as [h|]; [|discriminate]. cbn [bind].
    destruct (Pdu_getValue p 2 6) as [f|]; [|discriminate]. cbn [bind].
    intros H. injection H as <-. reflexivity.
Qed.

Lemma pduProcessAach_frame18_witness :
  (exists m', Mac.pduProcessAach (repeat true 14)
                (Mac.set_tetraTime (mkTetraTime 1 18 1) mac0) = Some m')
  /\ (forall m', Mac.pduProcessAach (repeat true 14)
                   (Mac.set_tetraTime (mkTetraTime 1 18 1) mac0) = Some m' ->
      downlinkUsage (Mac.m_macState m') = COMMON_CONTROL).
Proof.
  destruct (pduProcessAach_frame18 (repeat true 14)
              (Mac.set_tetraTime (mkTetraTime 1 18 1) mac0)) as [H1 H2].
  - reflexivity.
  - split; [apply H1; vm_compute; discriminate | exact H2].
Defined.

(** Outside frame 18 the same PDU (header 11, field 1 = 63) gives traffic
    with usage marker 63. *)
Example pduProcessAach_sample :
  option_map Mac.m_macState
    (Mac.pduProcessAach (repeat true 14) (Mac.set_tetraTime (mkTetraTime 1 5 1) mac0))
  = Some (mkMacState TRAFFIC 63 unknown).
Proof. vm_compute. reflexivity. Qed.

(** ** Fill bits *)

Lemma Pdu_at_last (q : Pdu) (b : bool) :
  Pdu_fits (q ++ [b]) ->
  Pdu_at (q ++ [b]) (uint64 (Pdu_size (q ++ [b]) - 1)) = Some (Z.b2z b).
Proof.
  unfold Pdu_fits, Pdu_size. rewrite length_app. cbn [length]. intros Hfit.
  replace (Z.of_nat (length q + 1) - 1) with (Z.of_nat (length q)) by lia.
  unfold uint64. rewrite wrap_small by lia.
  unfold Pdu_at, Pdu_size. rewrite length_app. cbn [length].
  destruct (Z.ltb_spec (Z.of_nat (length q)) (Z.of_nat (length q + 1))); [|lia].
  rewrite Nat2Z.id, nth_error_app2, Nat.sub_diag by lia. reflexivity.
Qed.

Lemma Pdu_resize_last (q : Pdu) (b : bool) :
  Pdu_fits (q ++ [b]) ->
  Pdu_resize (q ++ [b]) (uint64 (Pdu_size (q ++ [b]) - 1)) = q.
Proof.
  unfold Pdu_fits, Pdu_size. rewrite length_app. cbn [length]. intros Hfit.
  replace (Z.of_nat (length q + 1) - 1) with (Z.of_nat (length q)) by lia.
  unfold uint64. rewrite wrap_small by lia.
  unfold Pdu_resize. rewrite Nat2Z.id, length_app. cbn [length].
  replace (length q - (length q + 1))%nat with O by lia.
  rewrite firstn_app, Nat.sub_diag, firstn_all. cbn [firstn repeat].
  now rewrite !app_nil_r.
Qed.

Lemma Pdu_fits_prefix (q r : Pdu) : Pdu_fits (q ++ r) -> Pdu_fits q.
Proof. unfold Pdu_fits, Pdu_size. rewrite length_app. lia. Qed.

Lemma repeat_snoc (k : nat) : repeat false (S k) = repeat false k ++ [false].
Proof. now rewrite <- repeat_cons. Qed.

Lemma strip_zeros_all_zero (k : nat) :
  Pdu_fits (repeat false k) -> Mac.strip_zeros (repeat false k) = None.
Proof.
  induction k as [|k IH]; intros Hfit; rewrite Mac.strip_zeros_equation.
  - reflexivity.
  - rewrite repeat_snoc in *.
    rewrite Pdu_at_last, Pdu_resize_last by assumption.
    cbn [Z.b2z Z.eqb]. apply IH. now apply Pdu_fits_prefix in Hfit.
Qed.

Lemma strip_zeros_to_last_one (q : Pdu) (k : nat) :
  Pdu_fits (q ++ true :: repeat false k) ->
  Mac.strip_zeros (q ++ true :: repeat false k) = Some (q ++ [true]).
Proof.
  induction k as [|k IH]; intros Hfit; rewrite Mac.strip_zeros_equation.
  - cbn [repeat]. now rewrite Pdu_at_last.
  - rewrite repeat_snoc in *.
    change (q ++ true :: repeat false k ++ [false])
      with (q ++ (true :: repeat false k) ++ [false]) in *.
    rewrite app_assoc in *.
    rewrite Pdu_at_last, Pdu_resize_last by assumption.
    cbn [Z.b2z Z.eqb]. apply IH. now apply Pdu_fits_prefix in Hfit.
Qed.

(** With stripping enabled, the fill bits are the trailing zeros and the
    one before them. *)
Lemma removeFillBits_strips (q : Pdu) (k : nat) :
  Pdu_fits (q ++ true :: repeat false k) ->
  Mac.removeFillBits true (q ++ true :: repeat false k) = Some q.
Proof.
  intros Hfit. unfold Mac.removeFillBits. destruct k as [|k].
  - cbn [repeat] in *. rewrite Pdu_at_last by assumption. cbn [bind Z.b2z Z.eqb].
    now rewrite Pdu_resize_last.
  - pose proof (strip_zeros_to_last_one q (S k) Hfit) as Hs.
    rewrite repeat_snoc in *.
    change (q ++ true :: repeat false k ++ [false])
      with (q ++ (true :: repeat false k) ++ [false]) in *.
    rewrite app_assoc in *.
    rewrite Pdu_at_last by assumption. cbn [bind Z.b2z Z.eqb].
    rewrite Hs. cbn [bind].
    rewrite Pdu_resize_last; [reflexivity|].
    unfold Pdu_fits, Pdu_size in *. rewrite !length_app in *.
    cbn [length] in *. lia.
Qed.

Lemma last_one_split (p : Pdu) :
  In true p -> exists q k, p = q ++ true :: repeat false k.
Proof.
  induction p as [|b p IH] using rev_ind; intros Hin; [contradiction|].
  destruct b.
  - exists p, O. reflexivity.
  - apply in_app_or in Hin. destruct Hin as [Hin|[Hin|[]]]; [|discriminate].
    destruct (IH Hin) as (q & k & ->). exists q, (S k).
    rewrite repeat_snoc, <- app_assoc. reflexivity.
Qed.

Lemma no_one_all_zero (p : Pdu) : ~ In true p -> p = repeat false (length p).
Proof.
  induction p as [|b p IH]; intros Hn; [reflexivity|].
  destruct b; [exfalso; apply Hn; now left|].
  cbn [length repeat]. f_equal. apply IH. intros H. apply Hn. now right.
Qed.

(** C10.  With fill-bit stripping enabled, and for a PDU whose size fits
    a [size_t], [removeFillBits] returns -- all its reads are within
    bounds and its loop ends -- whenever the PDU contains a 1 bit, and
    what it returns is the PDU without its last 1 and the zeros after it;
    on a PDU without a 1 bit (the empty one included) it reads outside
    the PDU, at index size() - 1 of an emptied PDU. *)
Theorem removeFillBits_in_bounds (p : Pdu) :
  Pdu_fits p ->
  (In true p ->
   exists q k, p = q ++ true :: repeat false k /\ Mac.removeFillBits true p = Some q)
  /\ (~ In true p -> Mac.removeFillBits true p = None).
Proof.
  intros Hfit. split.
  - intros Hin. destruct (last_one_split p Hin) as (q & k & ->).
    exists q, k. split; [reflexivity|]. now apply removeFillBits_strips.
  - intros Hn. rewrite (no_one_all_zero p Hn) in *.
    unfold Mac.removeFillBits. destruct (length p) as [|n].
    + reflexivity.
    + pose proof (strip_zeros_all_zero (S n) Hfit) as Hs.
      rewrite repeat_snoc in *. rewrite Pdu_at_last by assumption.
      cbn [bind Z.b2z Z.eqb]. now rewrite Hs.
Qed.

Lemma removeFillBits_in_bounds_witness :
  (exists q k, [true; false; true; false; false] = q ++ true :: repeat false k
               /\ Mac.removeFillBits true [true; false; true; false; false] = Some q)
  /\ Mac.removeFillBits true [false; false; false] = None.
Proof.
  split.
  - destruct (removeFillBits_in_bounds [true; false; true; false; false]) as [H _].
    + vm_compute. reflexivity.
    + apply H. simpl. auto.
  - destruct (removeFillBits_in_bounds [false; false; false]) as [_ H].
    + vm_compute. reflexivity.
    + apply H. simpl. intuition discriminate.
Defined.

Example removeFillBits_sample :
  Mac.removeFillBits true [true; false; true; false; false] = Some [true; false]
  /\ Mac.removeFillBits true [true; true] = Some [true]
  /\ Mac.removeFillBits false [false; false] = Some [false; false].
Proof. repeat split; vm_compute; reflexivity. Qed.

(** ** Dissociation loop *)

Lemma pduProcessResource_null (p : Pdu) (ch : MacLogicalChannel) (m : Mac.t) :
  Pdu_getValue p 13 3 = Some 0 ->
  Mac.pduProcessResource p ch m = Some ([], false, -1, m).
Proof. intros H. unfold Mac.pduProcessResource. rewrite H. reflexivity. Qed.

(** C7.  For a MAC-RESOURCE PDU (PDU type 00 on a signalling channel) whose
    address type, bits 13..15, is 000: [pduProcessResource] returns an
    empty TM-SDU, sets pduSizeInMac to -1 and leaves the state of the MAC
    as it was, nothing else of the PDU having been read; the iteration of
    the loop of [serviceUpperMac] that dissects it makes no call to the
    LLC, keeps the PDU unshifted and ends the loop. *)
Theorem null_pdu_suppressed (tw : Z) (ch : MacLogicalChannel) (l : Mac.Locals)
    (m : Mac.t) :
  signalling ch ->
  Pdu_getValue (Mac.pdu l) 0 2 = Some 0 ->
  Pdu_getValue (Mac.pdu l) 13 3 = Some 0 ->
  Mac.pduProcessResource (Mac.pdu l) ch m = Some ([], false, -1, m)
  /\ exists l',
       Mac.iteration tw ch l m = Some (l', m, false)
       /\ Mac.tmSdu l' = []
       /\ Mac.pduSizeInMac l' = -1
       /\ Mac.pdu l' = Mac.pdu l.
Proof.
  intros Hch Hty Hnull. split; [now apply pduProcessResource_null|].
  unfold Mac.iteration, Mac.dissect. cbn [Mac.pdu].
  destruct Hch as [-> | [-> | [-> | ->]]];
    rewrite Hty; cbn [bind]; change (uint8 0 =? 0) with true; cbv iota;
    rewrite (pduProcessResource_null _ _ _ Hnull); cbn [bind];
    cbn [Mac.pdu Mac.tmSdu Mac.bSendTmSduToLlc Mac.dissociatePduFlag
         Mac.pduSizeInMac Mac.fragmentedPacketFlag Mac.pduCount Pdu_isEmpty
         negb andb Z.gtb Z.compare];
    match goal with
    | |- context [if ?c then _ else _] => destruct c
    end; eexists; (split; [reflexivity|]); repeat split.
Qed.

Lemma null_pdu_suppressed_witness :
  Mac.pduProcessResource null_pdu SCH_HD mac0 = Some ([], false, -1, mac0)
  /\ exists l',
       Mac.iteration 16 SCH_HD (Mac.mkLocals null_pdu [] true false false 0 0) mac0
       = Some (l', mac0, false)
       /\ Mac.tmSdu l' = []
       /\ Mac.pduSizeInMac l' = -1
       /\ Mac.pdu l' = null_pdu.
Proof.
  apply (null_pdu_suppressed 16 SCH_HD (Mac.mkLocals null_pdu [] true false false 0 0) mac0).
  - unfold signalling. auto.
  - vm_compute. reflexivity.
  - vm_compute. reflexivity.
Defined.

Lemma dissect_pduCount (tw : Z) (ch : MacLogicalChannel) (l l' : Mac.Locals)
    (m m' : Mac.t) :
  Mac.dissect tw ch l m = Some (l', m') -> Mac.pduCount l' = Mac.pduCount l.
Proof.
  unfold Mac.dissect. intros H.
  destruct ch; repeat step_dissector; try discriminate; reflexivity.
Qed.

Lemma iteration_pduCount (tw : Z) (ch : MacLogicalChannel) (l l' : Mac.Locals)
    (m m' : Mac.t) :
  Mac.iteration tw ch l m = Some (l', m', true) ->
  Mac.pduCount l' = Mac.pduCount l + 1 /\ Mac.pduCount l' < 32.
Proof.
  unfold Mac.iteration. intros H.
  destruct (Mac.dissect tw ch _ m) as [[l1 m1]|] eqn:Hd; cbn [bind] in H; [|discriminate].
  apply dissect_pduCount in Hd. cbn [Mac.pduCount] in Hd.
  cbn [Mac.pdu Mac.tmSdu Mac.bSendTmSduToLlc Mac.dissociatePduFlag
       Mac.pduSizeInMac Mac.fragmentedPacketFlag Mac.pduCount] in H.
  destruct (_ <? 40); [discriminate|].
  destruct (Mac.dissociatePduFlag l1);
    injection H as <- _ Hc; cbn [Mac.pduCount] in *;
    apply andb_true_iff in Hc; destruct Hc as [_ Hc]; apply Z.ltb_lt in Hc; lia.
Qed.

Lemma loop_bound (tw : Z) (ch : MacLogicalChannel) (fuel : nat) :
  forall (l : Mac.Locals) (m : Mac.t),
    0 <= Mac.pduCount l < 32 ->
    (Z.to_nat (32 - Mac.pduCount l) <= fuel)%nat ->
    (fst (Mac.loop tw fuel ch l m) <= Z.to_nat (32 - Mac.pduCount l))%nat
    /\ snd (Mac.loop tw fuel ch l m) <> Mac.OutOfFuel.
Proof.
  induction fuel as [|fuel IH]; intros l m Hc Hf; [lia|].
  cbn [Mac.loop].
  destruct (Mac.iteration tw ch l m) as [[[l' m'] [|]]|] eqn:Hit; cbn [fst snd].
  - apply iteration_pduCount in Hit. destruct Hit as [Hn Hlt].
    destruct (IH l' m') as [IH1 IH2]; [lia|lia|].
    destruct (Mac.loop tw fuel ch l' m') as [n r]. cbn [fst snd] in *.
    split; [lia|assumption].
  - split; [lia|discriminate].
  - split; [lia|discriminate].
Qed.

(** C6.  Whatever the PDU and the logical channel, and however much fuel
    the loop is given beyond 32, the body of the loop of [serviceUpperMac]
    is entered at most 32 times and the loop ends by itself. *)
Theorem dissociation_cap (tw : Z) (fuel : nat) (data : Pdu)
    (ch : MacLogicalChannel) (m : Mac.t) :
  (32 <= fuel)%nat ->
  (fst (Mac.serviceUpperMac tw fuel data ch m) <= 32)%nat
  /\ snd (Mac.serviceUpperMac tw fuel data ch m) <> Mac.OutOfFuel.
Proof.
  intros Hf. unfold Mac.serviceUpperMac.
  apply (loop_bound tw ch fuel); cbn [Mac.pduCount]; [lia|].
  change (Z.to_nat (32 - 0)) with 32%nat. exact Hf.
Qed.

(** Forty of them back to back: the loop stops at the thirty-second. *)
Lemma dissociation_cap_witness :
  (fst (Mac.serviceUpperMac 16 100 (concat (repeat resource_6_octets 40)) SCH_F mac0)
   <= 32)%nat
  /\ snd (Mac.serviceUpperMac 16 100 (concat (repeat resource_6_octets 40)) SCH_F mac0)
     <> Mac.OutOfFuel.
Proof.
  apply (dissociation_cap 16 100 (concat (repeat resource_6_octets 40)) SCH_F mac0).
  lia.
Defined.

Example dissociation_cap_reached :
  fst (Mac.serviceUpperMac 16 100 (concat (repeat resource_6_octets 40)) SCH_F mac0)
  = 32%nat.
Proof. vm_compute. reflexivity. Qed.

(** Scenario E2 of the specification: one TM-SDU, of 80 bits less the 43
    bits of header, goes to the LLC with the SSI of the PDU. *)
Example resource_10_octets_sample :
  option_map Mac.calls
    (returned (Mac.serviceUpperMac 16 32 resource_10_octets SCH_F mac0))
  = Some [LlcService (repeat true 37) SCH_F (mkTetraTime 1 1 1)
            (mkMacAddress 1 1193046 0 0 0 0 0)].
Proof. vm_compute. reflexivity. Qed.

(** ** Encryption mode of a reassembled TM-SDU *)

Lemma defrag_append_macAddress (f : Pdu) (a : MacAddress) (d : MacDefrag.t) :
  MacDefrag.macAddress (MacDefrag.append f a d) = MacDefrag.macAddress d.
Proof.
  unfold MacDefrag.append.
  destruct (MacDefrag.b_stopped d); [reflexivity|].
  destruct (negb _); reflexivity.
Qed.

Lemma appends_macAddress (frags : list (Pdu * MacAddress)) (d : MacDefrag.t) :
  MacDefrag.macAddress (appends frags d) = MacDefrag.macAddress d.
Proof.
  revert d. induction frags as [|f frags IH]; intros d; [reflexivity|].
  cbn [appends fold_left]. fold (appends frags (MacDefrag.append (fst f) (snd f) d)).
  now rewrite IH, defrag_append_macAddress.
Qed.

Lemma getSdu_mode (d : MacDefrag.t) (sdu : Pdu) (out : option (Z * Z)) :
  MacDefrag.getSdu d = (sdu, out) ->
  sdu <> [] ->
  exists um, out = Some (uint8 (encryptionMode (MacDefrag.macAddress d)), um).
Proof.
  unfold MacDefrag.getSdu. destruct (MacDefrag.b_stopped d); intros H Hne.
  - injection H as <- _. contradiction.
  - injection H as _ <-. eauto.
Qed.

Lemma pduProcessMacEnd_delivery (p : Pdu) (m : Mac.t) (sdu : Pdu) (m' : Mac.t) :
  Mac.pduProcessMacEnd p m = Some (sdu, m') ->
  Mac.calls m' = Mac.calls m
  /\ Mac.m_tetraTime m' = Mac.m_tetraTime m
  /\ (sdu <> [] ->
      encryptionMode (Mac.m_macAddress m')
      = uint8 (encryptionMode (MacDefrag.macAddress (Mac.m_macDefrag m)))).
Proof.
  unfold Mac.pduProcessMacEnd. intros H.
  destruct (Pdu_getValue p 3 1) as [fill|]; cbn [bind] in H; [|discriminate].
  destruct (if uint8 fill =? 0 then Some p else _) as [q|]; cbn [bind] in H; [|discriminate].
  destruct (Pdu_getValue q _ 6) as [val|]; cbn [bind] in H; [|discriminate].
  destruct (_ || _).
  { injection H as <- <-. repeat split. intros Hne. now contradiction Hne. }
  destruct (Pdu_getValue q _ 1) as [sg|]; cbn [bind] in H; [|discriminate].
  destruct (Pdu_getValue q _ 1) as [ca|]; cbn [bind] in H; [|discriminate].
  match type of H with
  | bind ?c _ = _ => destruct c as [pos|]; cbn [bind] in H; [|discriminate]
  end.
  set (d := MacDefrag.append _ _ _) in H.
  destruct (MacDefrag.getSdu d) as [s out] eqn:Hget.
  destruct (Z.gtb_spec (Pdu_size s) 0) as [Hpos|Hzero].
  - destruct out as [[e u]|]; cbn [bind] in H; [|discriminate].
    destruct (array_set _ u e) as [tbl|]; cbn [bind] in H; [|discriminate].
    injection H as <- <-. repeat split. intros Hne.
    destruct (getSdu_mode d s _ Hget Hne) as [um Hout].
    injection Hout as -> _. subst d.
    now rewrite defrag_append_macAddress.
  - cbn [bind] in H. injection H as <- <-. repeat split. intros Hne.
    destruct s; [now contradiction Hne|].
    unfold Pdu_size in Hzero. cbn [length] in Hzero. lia.
Qed.

(** C3, as the code has it.  When a reassembly begun by start(A, ts) and
    continued by any appends is completed by a MAC-END (PDU type 01,
    subtype 1, on a signalling channel) that yields a non-empty TM-SDU,
    the TM-SDU is handed to the LLC with the encryption mode that [A]
    carried when the reassembly was started, whatever encryption mode the
    MAC address holds when the MAC-END arrives. *)
Theorem macEnd_encryption_mode (tw : Z) (ch : MacLogicalChannel)
    (A : MacAddress) (ts : TetraTime) (frags : list (Pdu * MacAddress))
    (d0 : MacDefrag.t) (l l' : Mac.Locals) (m m' : Mac.t) (again : bool) :
  signalling ch ->
  Pdu_getValue (Mac.pdu l) 0 2 = Some 1 ->
  Pdu_getValue (Mac.pdu l) 2 1 = Some 1 ->
  Mac.m_macDefrag m = appends frags (MacDefrag.start A ts d0) ->
  Mac.iteration tw ch l m = Some (l', m', again) ->
  Mac.tmSdu l' <> [] ->
  exists address,
    Mac.calls m' = Mac.calls m ++ [LlcService (Mac.tmSdu l') ch (Mac.m_tetraTime m) address]
    /\ address = Mac.m_macAddress m'
    /\ encryptionMode address = uint8 (encryptionMode A).
Proof.
  intros Hch Hty Hsub Hd Hit Hne.
  assert (HA : MacDefrag.macAddress (Mac.m_macDefrag m) = A).
  { rewrite Hd, appends_macAddress. reflexivity. }
  unfold Mac.iteration in Hit.
  match type of Hit with
  | bind ?c _ = _ => destruct c as [[l1 m1]|] eqn:Hdis; cbn [bind] in Hit; [|discriminate]
  end.
  assert (Hend : exists sdu,
             Mac.pduProcessMacEnd (Mac.pdu l) m = Some (sdu, m1)
             /\ Mac.tmSdu l1 = sdu /\ Mac.bSendTmSduToLlc l1 = true).
  { unfold Mac.dissect in Hdis. cbn [Mac.pdu] in Hdis.
    destruct Hch as [-> | [-> | [-> | ->]]];
      rewrite Hty in Hdis; cbn [bind] in Hdis;
      change (uint8 1 =? 0) with false in Hdis;
      change (uint8 1 =? 1) with true in Hdis; cbv iota in Hdis;
      rewrite Hsub in Hdis; cbn [bind] in Hdis;
      change (uint8 1 =? 0) with false in Hdis; cbv iota in Hdis;
      (destruct (Mac.pduProcessMacEnd (Mac.pdu l) m) as [[sdu m2]|];
       cbn [bind] in Hdis; [|discriminate]);
      injection Hdis as <- <-; exists sdu; repeat split. }
  destruct Hend as (sdu & Hend & Hsdu & Hsend).
  destruct (pduProcessMacEnd_delivery _ _ _ _ Hend) as (Hcalls & Htime & Hmode).
  cbn [Mac.pdu Mac.tmSdu Mac.bSendTmSduToLlc Mac.dissociatePduFlag
       Mac.pduSizeInMac Mac.fragmentedPacketFlag Mac.pduCount] in Hit.
  rewrite Hsend, Hsdu in Hit.
  assert (Hl' : Mac.tmSdu l' = sdu).
  { destruct (_ <? 40); [injection Hit as <- _ _; reflexivity|].
    destruct (Mac.dissociatePduFlag l1); injection Hit as <- _ _; reflexivity. }
  rewrite Hl' in *.
  assert (Hemp : Pdu_isEmpty sdu = false) by (destruct sdu; [contradiction|reflexivity]).
  rewrite Hemp in Hit. cbn [negb andb] in Hit.
  assert (Hm' : m' = Mac.call (LlcService sdu ch (Mac.m_tetraTime m1) (Mac.m_macAddress m1)) m1).
  { destruct (_ <? 40); [injection Hit as _ <- _; reflexivity|].
    destruct (Mac.dissociatePduFlag l1); injection Hit as _ <- _; reflexivity. }
  exists (Mac.m_macAddress m1). subst m'. cbn [Mac.call Mac.calls Mac.m_macAddress].
  rewrite Hcalls, Htime, <- HA. repeat split. now apply Hmode.
Qed.

(** C3 fails as stated: encryption mode 2 is in effect when the MAC-END
    arrives, and the reassembled TM-SDU (the 8 bits of the first fragment
    followed by the 4 bits of the MAC-END) goes to the LLC with
    encryption mode 1, recorded when fragmentation started. *)
Lemma macEnd_delivers_mode_of_start :
  option_map
    (fun r => (encryptionMode (Mac.m_macAddress (fst r)),
               map delivered (Mac.calls (snd r))))
    reassembly_run
  = Some (2, [Some (event_label_sdu, 2); Some (reassembled_sdu, 1)]).
Proof. vm_compute. reflexivity. Qed.

Lemma macEnd_encryption_mode_witness :
  exists address,
    Mac.calls (snd (fst after_mac_end))
    = Mac.calls before_mac_end
      ++ [LlcService (Mac.tmSdu (fst (fst after_mac_end))) SCH_HD
            (Mac.m_tetraTime before_mac_end) address]
    /\ address = Mac.m_macAddress (snd (fst after_mac_end))
    /\ encryptionMode address = uint8 (encryptionMode start_address).
Proof.
  apply (macEnd_encryption_mode 16 SCH_HD start_address (mkTetraTime 1 1 1)
           [([true; true; false; false; true; false; true; false], start_address)]
           (Mac.m_macDefrag mac0) mac_end_locals
           (fst (fst after_mac_end)) before_mac_end (snd (fst after_mac_end))
           (snd after_mac_end)).
  - unfold signalling. right. right. right. reflexivity.
  - vm_compute. reflexivity.
  - vm_compute. reflexivity.
  - vm_compute. reflexivity.
  - vm_compute. reflexivity.
  - vm_compute. discriminate.
Defined.

(** ** Synchronizer: the grace window after a matched burst *)

Lemma rxSymbol_unmatched (tw : Z)
    (serviceLowerMac : list Z -> BurstType -> Mac.t -> option Mac.t)
    (sym : Z) (d d' : TetraDecoder.t) :
  TetraDecoder.rxSymbol tw serviceLowerMac sym d = Some (false, d') ->
  view d' = unmatched (view d).
Proof.
  unfold TetraDecoder.rxSymbol, unmatched, view, TetraDecoder.FRAME_LEN.
  cbn [TetraDecoder.m_frame TetraDecoder.m_bIsSynchronized TetraDecoder.m_syncBitCounter
       TetraDecoder.symbols TetraDecoder.processed TetraDecoder.m_mac
       v_fill v_synchronized v_counter v_symbols v_processed].
  rewrite length_app. cbn [length].
  replace (Z.of_nat (length (TetraDecoder.m_frame d) + 1))
    with (Z.of_nat (length (TetraDecoder.m_frame d)) + 1) by lia.
  set (n := Z.of_nat (length (TetraDecoder.m_frame d))).
  assert (Hn : 0 <= n) by (subst n; lia).
  destruct (Z.ltb_spec (n + 1) 510) as [Hlt|Hge].
  { intros H. injection H as <-. cbn. rewrite length_app. cbn [length].
    f_equal. lia. }
  intros H.
  destruct (TetraDecoder.patternAtPositionScore _ _ 0) as [sb|]; cbn [bind] in H; [|discriminate].
  destruct (TetraDecoder.patternAtPositionScore _ _ 500) as [se|]; cbn [bind] in H; [|discriminate].
  destruct ((sb =? 0) && (se <? 2)) eqn:Hfound.
  { (* a burst was found: the call returns true *)
    cbn [orb] in H.
    match type of H with
    | bind (bind ?c _) _ = _ => destruct c; cbn [bind] in H; [|discriminate]
    end.
    injection H as H _. discriminate. }
  cbn [orb] in H.
  cbn [TetraDecoder.m_frame TetraDecoder.m_bIsSynchronized TetraDecoder.m_syncBitCounter
       TetraDecoder.symbols TetraDecoder.processed TetraDecoder.m_mac] in H.
  destruct (TetraDecoder.m_bIsSynchronized d && (TetraDecoder.m_syncBitCounter d mod 510 =? 0)).
  - match type of H with
    | bind (bind ?c _) _ = _ => destruct c; cbn [bind] in H; [|discriminate]
    end.
    cbn [TetraDecoder.m_frame TetraDecoder.m_bIsSynchronized TetraDecoder.m_syncBitCounter
         TetraDecoder.symbols TetraDecoder.processed TetraDecoder.m_mac negb] in H.
    destruct (uint64 (TetraDecoder.m_syncBitCounter d - 1) <=? 0);
      injection H as <-; reflexivity.
  - cbn [bind TetraDecoder.m_frame TetraDecoder.m_bIsSynchronized
         TetraDecoder.m_syncBitCounter TetraDecoder.symbols TetraDecoder.processed
         TetraDecoder.m_mac negb] in H.
    assert (Htl : Z.of_nat (length (tl (TetraDecoder.m_frame d ++ [uint8 sym]))) = n + 1 - 1).
    { destruct (TetraDecoder.m_frame d) as [|x fr]; cbn [tl app length] in *;
        [subst n; cbn in Hge; lia|].
      rewrite length_app. cbn [length]. subst n. cbn [length]. lia. }
    destruct (uint64 (TetraDecoder.m_syncBitCounter d - 1) <=? 0);
      injection H as <-;
      cbn [TetraDecoder.m_frame TetraDecoder.m_bIsSynchronized
           TetraDecoder.m_syncBitCounter TetraDecoder.symbols TetraDecoder.processed];
      rewrite Htl; reflexivity.
Qed.

Lemma rxSymbol_matched (tw : Z)
    (serviceLowerMac : list Z -> BurstType -> Mac.t -> option Mac.t)
    (sym : Z) (d d' : TetraDecoder.t) :
  TetraDecoder.rxSymbol tw serviceLowerMac sym d = Some (true, d') ->
  view d' = mkView 0 true (510 * 50 - 1) (TetraDecoder.symbols d + 1)
              (TetraDecoder.processed d ++ [TetraDecoder.symbols d + 1]).
Proof.
  unfold TetraDecoder.rxSymbol, view, TetraDecoder.FRAME_LEN.
  cbn [TetraDecoder.m_frame TetraDecoder.m_bIsSynchronized TetraDecoder.m_syncBitCounter
       TetraDecoder.symbols TetraDecoder.processed TetraDecoder.m_mac].
  destruct (_ <? 510); [discriminate|]. intros H.
  destruct (TetraDecoder.patternAtPositionScore _ _ 0) as [sb|]; cbn [bind] in H; [|discriminate].
  destruct (TetraDecoder.patternAtPositionScore _ _ 500) as [se|]; cbn [bind] in H; [|discriminate].
  destruct ((sb =? 0) && (se <? 2)) eqn:Hfound.
  - cbn [orb] in H.
    match type of H with
    | bind (bind ?c _) _ = _ => destruct c; cbn [bind] in H; [|discriminate]
    end.
    injection H as <-. reflexivity.
  - match type of H with
    | bind ?c _ = _ => destruct c as [[cl d1]|]; cbn [bind] in H; [|discriminate]
    end.
    injection H as H _. discriminate.
Qed.

Lemma rxSymbols_unmatched (tw : Z)
    (serviceLowerMac : list Z -> BurstType -> Mac.t -> option Mac.t)
    (syms : list Z) :
  forall (d d' : TetraDecoder.t),
    TetraDecoder.rxSymbols tw serviceLowerMac syms d = Some (O, d') ->
    view d' = Nat.iter (length syms) unmatched (view d).
Proof.
  induction syms as [|sym syms IH]; intros d d' H.
  - injection H as <-. reflexivity.
  - cbn [TetraDecoder.rxSymbols] in H.
    destruct (TetraDecoder.rxSymbol tw serviceLowerMac sym d) as [[found d1]|] eqn:H1;
      cbn [bind] in H; [|discriminate].
    destruct (TetraDecoder.rxSymbols tw serviceLowerMac syms d1) as [[n d2]|] eqn:H2;
      cbn [bind] in H; [|discriminate].
    destruct found; [discriminate|].
    injection H as -> <-.
    cbn [length]. rewrite Nat.iter_succ_r.
    rewrite <- (rxSymbol_unmatched _ _ _ _ _ H1).
    now apply (IH d1 d2).
Qed.

(** The buffer fills: the synchronizer variables do not move. *)
Lemma unmatched_fill (n : nat) :
  forall (fill : Z) (sync : bool) (c s : Z) (p : list Z),
    fill + Z.of_nat n < 510 ->
    Nat.iter n unmatched (mkView fill sync c s p)
    = mkView (fill + Z.of_nat n) sync c (s + Z.of_nat n) p.
Proof.
  induction n as [|n IH]; intros fill sync c s p Hn.
  - cbn [Nat.iter nat_rect]. f_equal; lia.
  - rewrite Nat.iter_succ_r. unfold unmatched at 2.
    cbn [v_fill v_synchronized v_counter v_symbols v_processed].
    destruct (Z.ltb_spec (fill + 1) 510); [|lia].
    rewrite IH by lia. f_equal; lia.
Qed.

Lemma mod_510 (q r : Z) : 0 <= r < 510 -> (510 * q + r) mod 510 = r.
Proof.
  intros H. rewrite Z.add_comm, Z.mul_comm, Z_mod_plus_full. now apply Z.mod_small.
Qed.

(** The full buffer slides while the counter runs down to the next
    multiple of 510. *)
Lemma unmatched_slide (j : nat) :
  forall (q r s : Z) (p : list Z),
    0 <= q <= 50 -> Z.of_nat j <= r <= 509 -> (1 <= q \/ Z.of_nat j < r) ->
    Nat.iter j unmatched (mkView 509 true (510 * q + r) s p)
    = mkView 509 true (510 * q + r - Z.of_nat j) (s + Z.of_nat j) p.
Proof.
  induction j as [|j IH]; intros q r s p Hq Hr Hpos.
  - cbn [Nat.iter nat_rect]. f_equal; lia.
  - rewrite Nat.iter_succ_r. unfold unmatched at 2.
    cbn [v_fill v_synchronized v_counter v_symbols v_processed].
    change (509 + 1 <? 510) with false. cbv iota.
    rewrite mod_510 by lia.
    destruct (Z.eqb_spec r 0); [lia|]. cbn [andb].
    unfold uint64. rewrite wrap_small
      by (change (2 ^ 64) with 18446744073709551616; lia).
    destruct (Z.leb_spec (510 * q + r - 1) 0); [lia|].
    replace (510 * q + r - 1) with (510 * q + (r - 1)) by lia.
    replace (509 + 1 - 1) with 509 by lia.
    rewrite IH by lia. f_equal; lia.
Qed.

(** One round of the grace window: 1019 symbols, one call of
    [processFrame], the counter 510 lower. *)
Lemma unmatched_round (q s : Z) (p : list Z) :
  1 <= q <= 50 ->
  Nat.iter 1019 unmatched (mkView 0 true (510 * q + 509) s p)
  = mkView 0 true (510 * (q - 1) + 509) (s + 1019) (p ++ [s + 1019]).
Proof.
  intros Hq.
  change 1019%nat with (1 + (509 + 509))%nat.
  rewrite !Nat.iter_add.
  rewrite unmatched_fill by (cbn; lia).
  change (0 + Z.of_nat 509) with 509. change (Z.of_nat 509) with 509.
  rewrite (unmatched_slide 509 q 509) by (cbn; lia).
  change (Z.of_nat 509) with 509.
  cbn [Nat.iter nat_rect]. unfold unmatched.
  cbn [v_fill v_synchronized v_counter v_symbols v_processed].
  change (509 + 1 <? 510) with false. cbv iota.
  replace (510 * q + 509 - 509) with (510 * q + 0) by lia.
  rewrite mod_510 by lia. cbn [andb Z.eqb].
  unfold uint64. rewrite wrap_small
    by (change (2 ^ 64) with 18446744073709551616; lia).
  destruct (Z.leb_spec (510 * q + 0 - 1) 0); [lia|].
  f_equal; try lia. f_equal. f_equal. lia.
Qed.

Lemma grace_calls_succ (s : Z) (k : nat) :
  grace_calls s (S k) = grace_calls s k ++ [s + 1019 * Z.of_nat (S k)].
Proof.
  unfold grace_calls. rewrite seq_S, map_app. reflexivity.
Qed.

(** [i] rounds of the grace window. *)
Lemma unmatched_rounds (s : Z) (p : list Z) (i : nat) :
  (i <= 49)%nat ->
  Nat.iter (1019 * i) unmatched (mkView 0 true (510 * 49 + 509) s p)
  = mkView 0 true (510 * (49 - Z.of_nat i) + 509) (s + 1019 * Z.of_nat i)
      (p ++ grace_calls s i).
Proof.
  induction i as [|i IH]; intros Hi.
  - rewrite Nat.mul_0_r. cbn [Nat.iter nat_rect grace_calls seq map].
    rewrite app_nil_r. f_equal; lia.
  - replace (1019 * S i)%nat with (1019 + 1019 * i)%nat by lia.
    rewrite Nat.iter_add, IH by lia.
    rewrite unmatched_round by lia.
    rewrite grace_calls_succ, app_assoc.
    f_equal; try lia. f_equal. f_equal. lia.
Qed.

(** Within a round nothing is processed and synchronization holds. *)
Lemma unmatched_within_round (q s : Z) (p : list Z) (j : nat) :
  0 <= q <= 50 -> (j <= 1018)%nat -> (1 <= q \/ (j < 1018)%nat) ->
  exists fill c,
    Nat.iter j unmatched (mkView 0 true (510 * q + 509) s p)
    = mkView fill true c (s + Z.of_nat j) p.
Proof.
  intros Hq Hj Hlast.
  destruct (Nat.le_gt_cases j 509) as [Hfill|Hslide].
  - rewrite unmatched_fill by lia. eauto.
  - assert (Hk : exists k, j = (k + 509)%nat) by (exists (j - 509)%nat; lia).
    destruct Hk as [k ->].
    rewrite Nat.iter_add, unmatched_fill by (cbn; lia).
    change (0 + Z.of_nat 509) with 509.
    rewrite (unmatched_slide k q 509) by lia.
    do 2 eexists. f_equal. lia.
Qed.

(** The last round ends one symbol early, with synchronization lost and
    nothing processed. *)
Lemma unmatched_last_round (s : Z) (p : list Z) :
  Nat.iter 1018 unmatched (mkView 0 true (510 * 0 + 509) s p)
  = mkView 509 false 0 (s + 1018) p.
Proof.
  change 1018%nat with (1 + (508 + 509))%nat.
  rewrite !Nat.iter_add.
  rewrite unmatched_fill by (cbn; lia).
  change (0 + Z.of_nat 509) with 509.
  rewrite (unmatched_slide 508 0 509) by (cbn; lia).
  change (Z.of_nat 509) with 509. change (Z.of_nat 508) with 508.
  cbn [Nat.iter nat_rect]. unfold unmatched.
  cbn [v_fill v_synchronized v_counter v_symbols v_processed].
  change (509 + 1 <? 510) with false. cbv iota.
  change (510 * 0 + 509 - 508) with 1.
  change (1 mod 510 =? 0) with false.
  change (uint64 (1 - 1) <=? 0) with true. cbn [andb]. cbv iota.
  f_equal; lia.
Qed.

(** Once synchronization is lost, unmatched symbols process nothing. *)
Lemma unmatched_lost (n : nat) (v : View) :
  v_synchronized v = false ->
  v_synchronized (Nat.iter n unmatched v) = false
  /\ v_processed (Nat.iter n unmatched v) = v_processed v.
Proof.
  intros Hv. induction n as [|n [IH1 IH2]]; [now split|].
  rewrite Nat.iter_succ. unfold unmatched at 1 3.
  destruct (_ <? 510); cbn [v_synchronized v_processed]; [now split|].
  rewrite IH1. cbn [andb]. split; [now destruct (_ <=? 0)|assumption].
Qed.

(** The view of the decoder along a stretch of [n] unmatched symbols
    that follows a matched burst. *)
Lemma unmatched_after_match (s : Z) (p : list Z) (n : nat) :
  let v := Nat.iter n unmatched (mkView 0 true (510 * 50 - 1) s p) in
  (exists k, (k <= 49)%nat /\ v_processed v = p ++ grace_calls s k)
  /\ ((n < 49 * 1019 + 1018)%nat -> v_synchronized v = true)
  /\ ((49 * 1019 + 1018 <= n)%nat ->
      v_processed v = p ++ grace_calls s 49 /\ v_synchronized v = false).
Proof.
  cbv zeta. change (510 * 50 - 1) with (510 * 49 + 509).
  destruct (Nat.lt_ge_cases n (49 * 1019 + 1018)) as [Hin|Hout].
  - pose proof (Nat.div_mod_eq n 1019) as Hn.
    pose proof (Nat.mod_upper_bound n 1019 ltac:(discriminate)) as Hj.
    set (i := (n / 1019)%nat) in *. set (j := (n mod 1019)%nat) in *.
    assert (Hi : (i <= 49)%nat) by lia.
    assert (Hij : 1 <= 49 - Z.of_nat i \/ (j < 1018)%nat) by lia.
    replace n with (j + 1019 * i)%nat by lia.
    rewrite Nat.iter_add, unmatched_rounds by exact Hi.
    destruct (unmatched_within_round (49 - Z.of_nat i) (s + 1019 * Z.of_nat i)
                (p ++ grace_calls s i) j) as (fill & c & ->); [lia|lia|exact Hij|].
    cbn [v_processed v_synchronized].
    split; [exists i; now split|]. split; [reflexivity|lia].
  - replace n with ((n - (49 * 1019 + 1018)) + (1018 + 1019 * 49))%nat by lia.
    rewrite !Nat.iter_add, unmatched_rounds by lia.
    change (510 * (49 - Z.of_nat 49) + 509) with (510 * 0 + 509).
    rewrite unmatched_last_round.
    destruct (unmatched_lost (n - (49 * 1019 + 1018))
                (mkView 509 false 0 (s + 1019 * Z.of_nat 49 + 1018)
                   (p ++ grace_calls s 49)) eq_refl) as [Hs Hp].
    cbn [v_processed] in Hp. rewrite Hs, Hp.
    split; [exists 49%nat; now split|]. split; [lia|now split].
Qed.

Lemma grace_calls_off_boundary (s : Z) (k : nat) :
  (k <= 49)%nat -> Forall (fun c => (c - s) mod 510 <> 0) (grace_calls s k).
Proof.
  intros Hk. apply Forall_forall. intros c Hc.
  unfold grace_calls in Hc. apply in_map_iff in Hc.
  destruct Hc as (i & <- & Hi). apply in_seq in Hi.
  replace (s + 1019 * Z.of_nat i - s) with (510 * (2 * Z.of_nat i - 1) + (510 - Z.of_nat i))
    by lia.
  rewrite mod_510; lia.
Qed.

(** C1, as the code has it.  After a call of [rxSymbol] that matched a
    burst, let symbols follow in which no burst is matched (no call
    returns true).  Then [processFrame] is called at most 49 more times,
    the i-th time 1019 * i symbols after the match, never a multiple of
    510 symbols after it; the decoder stays synchronized during the first
    49 * 1019 + 1017 symbols; and from 49 * 1019 + 1018 symbols on,
    [processFrame] has been called exactly 49 more times and the decoder
    is not synchronized. *)
Theorem rxSymbol_grace_window (tw : Z)
    (serviceLowerMac : list Z -> BurstType -> Mac.t -> option Mac.t)
    (sym : Z) (d0 d : TetraDecoder.t) (syms : list Z) (d' : TetraDecoder.t) :
  TetraDecoder.rxSymbol tw serviceLowerMac sym d0 = Some (true, d) ->
  TetraDecoder.rxSymbols tw serviceLowerMac syms d = Some (O, d') ->
  (exists k, (k <= 49)%nat
     /\ TetraDecoder.processed d'
        = TetraDecoder.processed d ++ grace_calls (TetraDecoder.symbols d) k
     /\ Forall (fun c => (c - TetraDecoder.symbols d) mod 510 <> 0)
          (grace_calls (TetraDecoder.symbols d) k))
  /\ ((length syms < 49 * 1019 + 1018)%nat ->
      TetraDecoder.m_bIsSynchronized d' = true)
  /\ ((49 * 1019 + 1018 <= length syms)%nat ->
      TetraDecoder.processed d'
      = TetraDecoder.processed d ++ grace_calls (TetraDecoder.symbols d) 49
      /\ TetraDecoder.m_bIsSynchronized d' = false).
Proof.
  intros Hmatch Hrun.
  pose proof (rxSymbol_matched _ _ _ _ _ Hmatch) as Hd.
  pose proof (rxSymbols_unmatched _ _ _ _ _ Hrun) as Hd'.
  assert (Hs : TetraDecoder.symbols d = TetraDecoder.symbols d0 + 1)
    by (change (v_symbols (view d) = TetraDecoder.symbols d0 + 1); now rewrite Hd).
  assert (Hp : TetraDecoder.processed d
               = TetraDecoder.processed d0 ++ [TetraDecoder.symbols d0 + 1])
    by (change (v_processed (view d) = TetraDecoder.processed d0
                                       ++ [TetraDecoder.symbols d0 + 1]);
        now rewrite Hd).
  rewrite Hd, <- Hp, <- Hs in Hd'.
  change (TetraDecoder.processed d') with (v_processed (view d')).
  change (TetraDecoder.m_bIsSynchronized d') with (v_synchronized (view d')).
  rewrite Hd'.
  destruct (unmatched_after_match (TetraDecoder.symbols d) (TetraDecoder.processed d)
              (length syms)) as ((k & Hk & Hcalls) & Hsync & Hlost).
  split; [|split; assumption].
  exists k. split; [exact Hk|]. split; [exact Hcalls|].
  now apply grace_calls_off_boundary.
Qed.

Lemma rxSymbol_grace_window_witness :
  TetraDecoder.processed after_silence
  = TetraDecoder.processed after_match
    ++ grace_calls (TetraDecoder.symbols after_match) 49
  /\ TetraDecoder.m_bIsSynchronized after_silence = false.
Proof.
  apply (rxSymbol_grace_window 16 no_lower_mac (last matched_burst 0) before_match
           after_match silence after_silence).
  - vm_compute. reflexivity.
  - vm_compute. reflexivity.
  - unfold silence. rewrite repeat_length. lia.
Defined.

(** * Further properties of the code *)

(** ** TDMA time as a counter *)

Lemma slot_index_range (t : TetraTime) :
  TetraTime_valid t -> 0 <= slot_index t < 4320.
Proof. unfold TetraTime_valid, slot_index. lia. Qed.

Lemma slot_index_inj (t1 t2 : TetraTime) :
  TetraTime_valid t1 -> TetraTime_valid t2 ->
  slot_index t1 = slot_index t2 -> t1 = t2.
Proof.
  unfold TetraTime_valid, slot_index.
  destruct t1 as [a1 b1 c1], t2 as [a2 b2 c2]. cbn [tn fn mn].
  intros H1 H2 H. f_equal; lia.
Qed.

Lemma incrementTime_index (tw : Z) (t : TetraTime) :
  6 <= tw -> TetraTime_valid t ->
  slot_index (Mac.incrementTime tw t) = (slot_index t + 1) mod 4320.
Proof.
  intros Htw Hv. pose proof (slot_index_range t Hv) as Hr.
  destruct Hv as (Htn & Hfn & Hmn).
  assert (H64 : 2 ^ 6 <= 2 ^ tw) by (apply Z.pow_le_mono_r; lia).
  change (2 ^ 6) with 64 in H64.
  unfold Mac.incrementTime, slot_index in *. cbn [tn fn mn].
  rewrite (wrap_small tw (tn t + 1)) by lia.
  destruct (Z.gtb_spec (tn t + 1) 4); cbn [tn fn mn].
  - rewrite (wrap_small tw (fn t + 1)) by lia.
    destruct (Z.gtb_spec (fn t + 1) 18); cbn [tn fn mn].
    + rewrite (wrap_small tw (mn t + 1)) by lia.
      destruct (Z.gtb_spec (mn t + 1) 60); cbn [tn fn mn].
      * replace (((mn t - 1) * 18 + (fn t - 1)) * 4 + (tn t - 1) + 1) with 4320 by lia.
        reflexivity.
      * rewrite Z.mod_small; lia.
    + destruct (Z.gtb_spec (mn t) 60); cbn [tn fn mn]; [lia|].
      rewrite Z.mod_small; lia.
  - destruct (Z.gtb_spec (fn t) 18); cbn [tn fn mn]; [lia|].
    destruct (Z.gtb_spec (mn t) 60); cbn [tn fn mn]; [lia|].
    rewrite Z.mod_small; lia.
Qed.

Lemma incrementTime_iter_index (tw : Z) (n : nat) (t : TetraTime) :
  6 <= tw -> TetraTime_valid t ->
  slot_index (Nat.iter n (Mac.incrementTime tw) t)
  = (slot_index t + Z.of_nat n) mod 4320.
Proof.
  intros Htw Hv. induction n as [|n IH].
  - cbn [Nat.iter nat_rect]. pose proof (slot_index_range t Hv).
    rewrite Z.add_0_r, Z.mod_small; lia.
  - rewrite Nat.iter_succ, incrementTime_index, IH
      by (try apply incrementTime_iter_valid; assumption).
    rewrite Zplus_mod_idemp_l. f_equal. lia.
Qed.

(** X1.  On a time within the declared ranges, [incrementTn] is a counter
    of time slots modulo 4 * 18 * 60: [n] applications move the slot index
    by [n] modulo 4320, and they give the time back exactly when [n] is a
    multiple of 4320. *)
Theorem incrementTn_counts_slots (tw : Z) (m : Mac.t) (n : nat) :
  6 <= tw ->
  TetraTime_valid (Mac.m_tetraTime m) ->
  slot_index (Mac.m_tetraTime (Nat.iter n (Mac.incrementTn tw) m))
  = (slot_index (Mac.m_tetraTime m) + Z.of_nat n) mod 4320
  /\ (Mac.m_tetraTime (Nat.iter n (Mac.incrementTn tw) m) = Mac.m_tetraTime m
      <-> Z.of_nat n mod 4320 = 0).
Proof.
  intros Htw Hv. rewrite incrementTn_time.
  pose proof (incrementTime_iter_index tw n _ Htw Hv) as Hi.
  pose proof (slot_index_range _ Hv) as Hr.
  split; [exact Hi|]. split.
  - intros Heq. rewrite Heq in Hi.
    set (i := slot_index (Mac.m_tetraTime m)) in *.
    assert (H0 : (i + Z.of_nat n) mod 4320 = i mod 4320)
      by (rewrite <- Hi; symmetry; apply Z.mod_small; lia).
    rewrite Zplus_mod in H0.
    rewrite (Z.mod_small i) in H0 by lia.
    pose proof (Z.mod_pos_bound (Z.of_nat n) 4320 ltac:(lia)) as Hb.
    set (r := Z.of_nat n mod 4320) in *.
    destruct (Z.eq_dec r 0) as [|Hne]; [assumption|exfalso].
    destruct (Z_lt_ge_dec (i + r) 4320).
    + rewrite Z.mod_small in H0; lia.
    + replace (i + r) with ((i + r - 4320) + 1 * 4320) in H0 by lia.
      rewrite Z_mod_plus_full, Z.mod_small in H0; lia.
  - intros Hn. apply slot_index_inj.
    + now apply incrementTime_iter_valid.
    + exact Hv.
    + rewrite Hi, Zplus_mod, Hn, Z.add_0_r, Z.mod_mod, Z.mod_small; lia.
Qed.

Lemma incrementTn_counts_slots_witness :
  slot_index (Mac.m_tetraTime (Nat.iter 100 (Mac.incrementTn 16) mac0))
  = (slot_index (Mac.m_tetraTime mac0) + Z.of_nat 100) mod 4320
  /\ (Mac.m_tetraTime (Nat.iter 100 (Mac.incrementTn 16) mac0) = Mac.m_tetraTime mac0
      <-> Z.of_nat 100 mod 4320 = 0).
Proof.
  apply (incrementTn_counts_slots 16 mac0 100).
  - lia.
  - vm_compute. intuition discriminate.
Defined.

(** ** Defragmenter: sequences of operations *)

Lemma appends_cons (f : Pdu * MacAddress) (frags : list (Pdu * MacAddress))
    (d : MacDefrag.t) :
  appends (f :: frags) d = appends frags (MacDefrag.append (fst f) (snd f) d).
Proof. reflexivity. Qed.

Lemma appends_app (l1 l2 : list (Pdu * MacAddress)) (d : MacDefrag.t) :
  appends (l1 ++ l2) d = appends l2 (appends l1 d).
Proof. unfold appends. apply fold_left_app. Qed.

Lemma appends_running (frags : list (Pdu * MacAddress)) :
  forall d : MacDefrag.t,
    MacDefrag.b_stopped d = false ->
    0 <= MacDefrag.m_fragmentsCount d < 256 ->
    Forall (fun f => ssi (snd f) = ssi (MacDefrag.macAddress d)) frags ->
    appends frags d
    = MacDefrag.mk (MacDefrag.macAddress d) (MacDefrag.startTime d)
        (MacDefrag.m_sdu d ++ concat (map fst frags)) false
        ((MacDefrag.m_fragmentsCount d + Z.of_nat (length frags)) mod 256).
Proof.
  induction frags as [|f frags IH]; intros d Hrun Hc Hall.
  - cbn [appends fold_left map concat length]. rewrite app_nil_r, Z.add_0_r.
    rewrite Z.mod_small by exact Hc. destruct d. cbn in *. now subst.
  - rewrite appends_cons. inversion Hall as [|? ? Hf Hrest]; subst.
    unfold MacDefrag.append at 1. rewrite Hrun, Hf, Z.eqb_refl. cbn [negb].
    rewrite IH; cbn [MacDefrag.b_stopped MacDefrag.macAddress MacDefrag.startTime
                       MacDefrag.m_sdu MacDefrag.m_fragmentsCount].
    + unfold Pdu_append, uint8, wrap. change (2 ^ 8) with 256.
      cbn [map concat length]. rewrite <- app_assoc, Zplus_mod_idemp_l.
      do 2 f_equal. lia.
    + reflexivity.
    + unfold uint8, wrap. change (2 ^ 8) with 256. apply Z.mod_pos_bound. lia.
    + exact Hrest.
Qed.

Lemma appends_stopped (frags : list (Pdu * MacAddress)) (d : MacDefrag.t) :
  MacDefrag.b_stopped d = true -> appends frags d = d.
Proof.
  induction frags as [|f frags IH]; intros Hs; [reflexivity|].
  rewrite appends_cons. unfold MacDefrag.append at 1. rewrite Hs. now apply IH.
Qed.

(** X2.  After start(A), appends whose addresses carry the SSI of [A]
    (whatever their other fields) accumulate the fragments in order:
    getSdu() yields their concatenation together with the encryption mode
    and the usage marker that [A] had at the start, whatever the
    defragmenter held before. *)
Theorem defrag_concatenates (A : MacAddress) (ts : TetraTime)
    (frags : list (Pdu * MacAddress)) (d : MacDefrag.t) :
  Forall (fun f => ssi (snd f) = ssi A) frags ->
  MacDefrag.getSdu (appends frags (MacDefrag.start A ts d))
  = (concat (map fst frags), Some (uint8 (encryptionMode A), uint8 (usageMarker A))).
Proof.
  intros Hall. rewrite appends_running; [reflexivity | reflexivity | cbn; lia | exact Hall].
Qed.

Lemma defrag_concatenates_witness :
  MacDefrag.getSdu
    (appends [([true; false], address0); ([], set_encryptionMode 3 address0);
              ([true], set_eventLabel 9 address0)]
       (MacDefrag.start address0 (mkTetraTime 1 1 1) (Mac.m_macDefrag mac0)))
  = (concat (map fst [([true; false], address0); ([], set_encryptionMode 3 address0);
                      ([true], set_eventLabel 9 address0)]),
     Some (uint8 (encryptionMode address0), uint8 (usageMarker address0))).
Proof.
  apply (defrag_concatenates address0 (mkTetraTime 1 1 1)).
  repeat constructor.
Defined.

(** X3.  A fragment whose address carries another SSI ends the
    reassembly for good: whatever was appended before it and whatever is
    appended after it, the defragmenter is stopped with nothing in it, and
    getSdu() yields an empty PDU and writes no encryption mode. *)
Theorem defrag_mismatch_discards (A B : MacAddress) (ts : TetraTime)
    (before after : list (Pdu * MacAddress)) (x : Pdu) (d : MacDefrag.t) :
  Forall (fun f => ssi (snd f) = ssi A) before ->
  ssi B <> ssi A ->
  let d' := appends (before ++ (x, B) :: after) (MacDefrag.start A ts d) in
  MacDefrag.b_stopped d' = true
  /\ MacDefrag.m_sdu d' = []
  /\ MacDefrag.getSdu d' = ([], None).
Proof.
  intros Hall Hne. cbv zeta.
  assert (H : exists d1, appends (before ++ (x, B) :: after) (MacDefrag.start A ts d)
                         = MacDefrag.stop d1).
  { rewrite appends_app, appends_cons.
    rewrite (appends_running before) by (try exact Hall; cbn; try reflexivity; lia).
    cbn [fst snd]. unfold MacDefrag.append at 1.
    cbn [MacDefrag.b_stopped MacDefrag.macAddress MacDefrag.start].
    destruct (Z.eqb_spec (ssi B) (ssi A)); [contradiction|]. cbn [negb].
    rewrite appends_stopped by reflexivity. eauto. }
  destruct H as [d1 ->]. repeat split.
Qed.

Lemma defrag_mismatch_discards_witness :
  let d' := appends ([([true; false], address0)]
                     ++ ([true], set_ssi 5 address0) :: [([false], address0)])
              (MacDefrag.start address0 (mkTetraTime 1 1 1) (Mac.m_macDefrag mac0)) in
  MacDefrag.b_stopped d' = true
  /\ MacDefrag.m_sdu d' = []
  /\ MacDefrag.getSdu d' = ([], None).
Proof.
  apply (defrag_mismatch_discards address0 (set_ssi 5 address0)).
  - repeat constructor.
  - vm_compute. discriminate.
Defined.

(** X4.  A defragmenter that is stopped -- as its constructor and stop()
    leave it -- ignores every append, whatever the addresses: it stays as
    it is, and getSdu() yields an empty PDU and writes no encryption
    mode. *)
Theorem defrag_stopped_ignores_appends (frags : list (Pdu * MacAddress))
    (d : MacDefrag.t) :
  MacDefrag.b_stopped d = true ->
  appends frags d = d /\ MacDefrag.getSdu (appends frags d) = ([], None).
Proof.
  intros Hs. rewrite appends_stopped by exact Hs. split; [reflexivity|].
  unfold MacDefrag.getSdu. now rewrite Hs.
Qed.

Lemma defrag_stopped_ignores_appends_witness :
  appends [([true], address0); ([false], set_ssi 3 address0)] (Mac.m_macDefrag mac0)
  = Mac.m_macDefrag mac0
  /\ MacDefrag.getSdu
       (appends [([true], address0); ([false], set_ssi 3 address0)]
          (Mac.m_macDefrag mac0)) = ([], None).
Proof.
  apply (defrag_stopped_ignores_appends
           [([true], address0); ([false], set_ssi 3 address0)] (Mac.m_macDefrag mac0)).
  reflexivity.
Defined.

(** ** Scoring a training sequence *)

Lemma lxor_binary (p x : Z) :
  (p = 0 \/ p = 1) -> (x = 0 \/ x = 1) -> Z.lxor p x = if p =? x then 0 else 1.
Proof. intros [-> | ->] [-> | ->]; reflexivity. Qed.

Lemma skipn_nth_error (data : list Z) (position : nat) (x : Z) :
  nth_error data position = Some x ->
  skipn position data = x :: skipn (S position) data.
Proof.
  revert data. induction position as [|n IH]; intros [|y data] H; try discriminate.
  - injection H as ->. reflexivity.
  - cbn [skipn]. now apply IH.
Qed.

Lemma scoreLoop_hamming (data : list Z) (pattern : list Z) :
  forall (position : nat) (errors : Z),
    binary data -> binary pattern ->
    (position + length pattern <= length data)%nat ->
    0 <= errors -> errors + Z.of_nat (length pattern) < 2 ^ 32 ->
    TetraDecoder.scoreLoop data pattern position errors
    = Some (errors + hamming pattern (skipn position data)).
Proof.
  induction pattern as [|p pattern IH]; intros position errors Hd Hp Hlen He Hb.
  - cbn [TetraDecoder.scoreLoop hamming]. now rewrite Z.add_0_r.
  - cbn [length] in Hlen, Hb. inversion Hp as [|? ? Hp0 Hp']; subst.
    destruct (nth_error data position) as [x|] eqn:Hx;
      [|apply nth_error_None in Hx; lia].
    assert (Hx01 : x = 0 \/ x = 1).
    { unfold binary in Hd. rewrite Forall_forall in Hd.
      apply Hd. eapply nth_error_In. exact Hx. }
    cbn [TetraDecoder.scoreLoop]. rewrite Hx. cbn [bind].
    rewrite (skipn_nth_error _ _ _ Hx). cbn [hamming].
    rewrite lxor_binary by assumption.
    assert (H01 : 0 <= (if p =? x then 0 else 1) <= 1) by (destruct (p =? x); lia).
    unfold uint32. rewrite (wrap_small 32 (if p =? x then 0 else 1))
      by (change (2 ^ 32) with 4294967296; lia).
    rewrite wrap_small by lia.
    rewrite IH; try assumption; try lia. f_equal. lia.
Qed.

Lemma hamming_nonneg (pattern data : list Z) : 0 <= hamming pattern data.
Proof.
  revert data. induction pattern as [|p pattern IH]; intros [|x data];
    cbn [hamming]; try lia.
  specialize (IH data). destruct (p =? x); lia.
Qed.

Lemma hamming_zero (pattern : list Z) :
  forall data : list Z,
    (length pattern <= length data)%nat ->
    (hamming pattern data = 0 <-> firstn (length pattern) data = pattern).
Proof.
  induction pattern as [|p pattern IH]; intros data Hlen.
  - cbn. tauto.
  - destruct data as [|x data]; [cbn in Hlen; lia|].
    cbn [hamming length firstn]. cbn [length] in Hlen.
    pose proof (hamming_nonneg pattern data) as Hn.
    specialize (IH data ltac:(lia)).
    destruct (Z.eqb_spec p x) as [->|Hne].
    + rewrite Z.add_0_l, IH. split; [intros ->; reflexivity|].
      intros H. now injection H.
    + split; [lia|]. intros H. injection H as H _. congruence.
Qed.

Lemma scoreLoop_outside (data pattern : list Z) :
  forall (position : nat) (errors : Z),
    (position <= length data)%nat ->
    (length data < position + length pattern)%nat ->
    TetraDecoder.scoreLoop data pattern position errors = None.
Proof.
  induction pattern as [|p pattern IH]; intros position errors Hpos Hlen.
  - cbn [length] in Hlen. lia.
  - cbn [TetraDecoder.scoreLoop length] in *.
    destruct (nth_error data position) as [x|] eqn:Hx; [|reflexivity].
    cbn [bind]. apply IH; [|lia].
    assert (position < length data)%nat by (apply nth_error_Some; congruence).
    lia.
Qed.

(** X5.  On hard bits, [patternAtPositionScore] is the Hamming distance
    between the pattern and the symbols from the position on: it is 0
    exactly when the pattern stands there; and a pattern that does not fit
    in the data makes it read outside the data. *)
Theorem patternAtPositionScore_hamming (data pattern : list Z) (position : nat) :
  binary data -> binary pattern ->
  Z.of_nat (length pattern) < 2 ^ 32 ->
  pattern <> [] ->
  ((position + length pattern <= length data)%nat ->
   TetraDecoder.patternAtPositionScore data pattern position
   = Some (hamming pattern (skipn position data))
   /\ (hamming pattern (skipn position data) = 0
       <-> firstn (length pattern) (skipn position data) = pattern))
  /\ ((length data < position + length pattern)%nat ->
      TetraDecoder.patternAtPositionScore data pattern position = None).
Proof.
  intros Hd Hp Hb Hne. split.
  - intros Hlen. split.
    + unfold TetraDecoder.patternAtPositionScore.
      rewrite scoreLoop_hamming; try assumption; try lia. reflexivity.
    + apply hamming_zero. rewrite length_skipn. lia.
  - intros Hlen. unfold TetraDecoder.patternAtPositionScore.
    destruct (Nat.le_gt_cases position (length data)) as [Hin|Hout].
    + now apply scoreLoop_outside.
    + destruct pattern as [|p pattern]; [contradiction|].
      cbn [TetraDecoder.scoreLoop].
      destruct (nth_error data position) eqn:Hx; [|reflexivity].
      assert (position < length data)%nat by (apply nth_error_Some; congruence).
      lia.
Qed.

Lemma patternAtPositionScore_hamming_witness :
  TetraDecoder.patternAtPositionScore [1; 0; 0; 1; 1; 0] [0; 1; 0] 1
  = Some (hamming [0; 1; 0] (skipn 1 [1; 0; 0; 1; 1; 0]))
  /\ TetraDecoder.patternAtPositionScore [1; 0; 0; 1; 1; 0] [0; 1; 0] 4 = None.
Proof.
  split.
  - destruct (patternAtPositionScore_hamming [1; 0; 0; 1; 1; 0] [0; 1; 0] 1) as [H _].
    + unfold binary. repeat (constructor; [lia|]). constructor.
    + unfold binary. repeat (constructor; [lia|]). constructor.
    + vm_compute. reflexivity.
    + discriminate.
    + apply H. simpl. lia.
  - destruct (patternAtPositionScore_hamming [1; 0; 0; 1; 1; 0] [0; 1; 0] 4) as [_ H].
    + unfold binary. repeat (constructor; [lia|]). constructor.
    + unfold binary. repeat (constructor; [lia|]). constructor.
    + vm_compute. reflexivity.
    + discriminate.
    + apply H. simpl. lia.
Defined.

(** ** Synchronizer: one symbol at a time *)

Lemma scoreLoop_defined (data pattern : list Z) :
  forall (position : nat) (errors : Z),
    (position + length pattern <= length data)%nat ->
    exists score, TetraDecoder.scoreLoop data pattern position errors = Some score.
Proof.
  induction pattern as [|p pattern IH]; intros position errors Hlen.
  - cbn. eauto.
  - cbn [length] in Hlen. cbn [TetraDecoder.scoreLoop].
    destruct (nth_error data position) as [x|] eqn:Hx;
      [|apply nth_error_None in Hx; lia].
    cbn [bind]. apply IH. lia.
Qed.

Lemma patternAtPositionScore_defined (data pattern : list Z) (position : nat) :
  (position + length pattern <= length data)%nat ->
  exists score, TetraDecoder.patternAtPositionScore data pattern position = Some score.
Proof. apply scoreLoop_defined. Qed.

Lemma processFrame_defined
    (serviceLowerMac : list Z -> BurstType -> Mac.t -> option Mac.t)
    (d : TetraDecoder.t) :
  returns serviceLowerMac ->
  (510 <= length (TetraDecoder.m_frame d))%nat ->
  exists mac, TetraDecoder.processFrame serviceLowerMac d = Some mac.
Proof.
  intros Hret Hlen. unfold TetraDecoder.processFrame.
  destruct (patternAtPositionScore_defined (TetraDecoder.m_frame d)
              TetraDecoder.SYNC_TRAINING_SEQ 214) as [s0 ->]; [cbn; lia|].
  destruct (patternAtPositionScore_defined (TetraDecoder.m_frame d)
              TetraDecoder.NORMAL_TRAINING_SEQ_1 244) as [s1 ->]; [cbn; lia|].
  destruct (patternAtPositionScore_defined (TetraDecoder.m_frame d)
              TetraDecoder.NORMAL_TRAINING_SEQ_2 244) as [s2 ->]; [cbn; lia|].
  cbn [bind]. destruct (s1 <? s0); destruct (s2 <? _); destruct (_ <=? 5);
    eauto; apply Hret.
Qed.

(** X6.  With a lower MAC that returns, [rxSymbol] returns for every
    symbol and every state -- it never reads outside the burst buffer --
    and a buffer of at most 509 symbols before the call holds at most 509
    symbols after it. *)
Theorem rxSymbol_returns (tw : Z)
    (serviceLowerMac : list Z -> BurstType -> Mac.t -> option Mac.t)
    (sym : Z) (d : TetraDecoder.t) :
  returns serviceLowerMac ->
  exists found d',
    TetraDecoder.rxSymbol tw serviceLowerMac sym d = Some (found, d')
    /\ TetraDecoder.symbols d' = TetraDecoder.symbols d + 1
    /\ ((length (TetraDecoder.m_frame d) <= 509)%nat ->
        (length (TetraDecoder.m_frame d') <= 509)%nat).
Proof.
  intros Hret. unfold TetraDecoder.rxSymbol, TetraDecoder.FRAME_LEN.
  cbn [TetraDecoder.m_frame TetraDecoder.m_bIsSynchronized TetraDecoder.m_syncBitCounter
       TetraDecoder.symbols TetraDecoder.processed TetraDecoder.m_mac].
  set (frame := TetraDecoder.m_frame d ++ [uint8 sym]).
  assert (Hfl : length frame = S (length (TetraDecoder.m_frame d)))
    by (subst frame; rewrite length_app; cbn [length]; lia).
  destruct (Z.ltb_spec (Z.of_nat (length frame)) 510) as [Hlt|Hge].
  { do 2 eexists. split; [reflexivity|]. cbn. split; [reflexivity|]. fold frame. lia. }
  destruct (patternAtPositionScore_defined frame
              TetraDecoder.NORMAL_TRAINING_SEQ_3_BEGIN 0) as [sb ->]; [cbn; lia|].
  destruct (patternAtPositionScore_defined frame
              TetraDecoder.NORMAL_TRAINING_SEQ_3_END 500) as [se ->]; [cbn; lia|].
  cbn [bind].
  assert (Htl : (length (TetraDecoder.m_frame d) <= 509)%nat ->
                (length (tl frame) <= 509)%nat).
  { intros H. destruct frame; cbn [tl length] in *; lia. }
  destruct ((sb =? 0) && (se <? 2)).
  - cbn [orb TetraDecoder.resetSynchronizer TetraDecoder.m_frame
         TetraDecoder.m_bIsSynchronized TetraDecoder.m_syncBitCounter
         TetraDecoder.symbols TetraDecoder.processed TetraDecoder.m_mac].
    match goal with
    | |- context [TetraDecoder.processFrame serviceLowerMac ?x] =>
        destruct (processFrame_defined serviceLowerMac x Hret) as [mac ->];
          [cbn [TetraDecoder.m_frame]; lia|]
    end.
    cbn [bind]. do 2 eexists. split; [reflexivity|].
    destruct (_ <=? 0); cbn; (split; [reflexivity|lia]).
  - cbn [orb TetraDecoder.m_frame TetraDecoder.m_bIsSynchronized
         TetraDecoder.m_syncBitCounter TetraDecoder.symbols TetraDecoder.processed
         TetraDecoder.m_mac].
    destruct (TetraDecoder.m_bIsSynchronized d
              && (TetraDecoder.m_syncBitCounter d mod 510 =? 0)).
    + match goal with
      | |- context [TetraDecoder.processFrame serviceLowerMac ?x] =>
          destruct (processFrame_defined serviceLowerMac x Hret) as [mac ->];
            [cbn [TetraDecoder.m_frame]; lia|]
      end.
      cbn [bind]. do 2 eexists. split; [reflexivity|].
      destruct (_ <=? 0); cbn; (split; [reflexivity|lia]).
    + cbn [bind]. do 2 eexists. split; [reflexivity|].
      destruct (_ <=? 0); cbn [negb TetraDecoder.m_frame TetraDecoder.symbols];
        (split; [reflexivity|exact Htl]).
Qed.

Lemma rxSymbol_returns_witness :
  exists found d',
    TetraDecoder.rxSymbol 16 no_lower_mac 1 before_match = Some (found, d')
    /\ TetraDecoder.symbols d' = TetraDecoder.symbols before_match + 1
    /\ ((length (TetraDecoder.m_frame before_match) <= 509)%nat ->
        (length (TetraDecoder.m_frame d') <= 509)%nat).
Proof.
  apply (rxSymbol_returns 16 no_lower_mac 1 before_match).
  intros frame burstType mac. exists mac. reflexivity.
Defined.

Lemma binary_uint8 (x : Z) : x = 0 \/ x = 1 -> uint8 x = x.
Proof. intros [-> | ->]; reflexivity. Qed.

Lemma binary_app (l1 l2 : list Z) : binary l1 -> binary l2 -> binary (l1 ++ l2).
Proof. unfold binary. intros H1 H2. apply Forall_app. now split. Qed.

Lemma binary_N3_BEGIN : binary TetraDecoder.NORMAL_TRAINING_SEQ_3_BEGIN.
Proof. unfold binary. repeat (constructor; [lia|]). constructor. Qed.

Lemma binary_N3_END : binary TetraDecoder.NORMAL_TRAINING_SEQ_3_END.
Proof. unfold binary. repeat (constructor; [lia|]). constructor. Qed.

(** The scores of [rxSymbol] on a full buffer of hard bits. *)
Lemma anchor_scores (frame : list Z) :
  binary frame -> (510 <= length frame)%nat ->
  TetraDecoder.patternAtPositionScore frame TetraDecoder.NORMAL_TRAINING_SEQ_3_BEGIN 0
  = Some (hamming TetraDecoder.NORMAL_TRAINING_SEQ_3_BEGIN frame)
  /\ TetraDecoder.patternAtPositionScore frame TetraDecoder.NORMAL_TRAINING_SEQ_3_END 500
     = Some (hamming TetraDecoder.NORMAL_TRAINING_SEQ_3_END (skipn 500 frame))
  /\ (hamming TetraDecoder.NORMAL_TRAINING_SEQ_3_BEGIN frame = 0
      <-> firstn 12 frame = TetraDecoder.NORMAL_TRAINING_SEQ_3_BEGIN).
Proof.
  intros Hb Hlen. unfold TetraDecoder.patternAtPositionScore.
  rewrite !scoreLoop_hamming;
    try assumption; try apply binary_N3_BEGIN; try apply binary_N3_END;
    try (cbn; lia).
  repeat split; try (apply (hamming_zero TetraDecoder.NORMAL_TRAINING_SEQ_3_BEGIN);
                     cbn; lia).
Qed.

(** X7.  On hard bits, [rxSymbol] reports a burst exactly when the buffer,
    with the new symbol, holds 510 symbols of which the first 12 are
    q11..q22 without error and those from 500 on differ from q1..q10 in at
    most one place.  When it does, [processFrame] has run at this symbol,
    the buffer is empty, the decoder is synchronized and the counter
    stands at 510 * 50 - 1. *)
Theorem rxSymbol_found_iff (tw : Z)
    (serviceLowerMac : list Z -> BurstType -> Mac.t -> option Mac.t)
    (sym : Z) (d : TetraDecoder.t) (found : bool) (d' : TetraDecoder.t) :
  binary (TetraDecoder.m_frame d) -> (sym = 0 \/ sym = 1) ->
  TetraDecoder.rxSymbol tw serviceLowerMac sym d = Some (found, d') ->
  (found = true
   <-> (510 <= length (TetraDecoder.m_frame d ++ [sym]))%nat
       /\ firstn 12 (TetraDecoder.m_frame d ++ [sym])
          = TetraDecoder.NORMAL_TRAINING_SEQ_3_BEGIN
       /\ hamming TetraDecoder.NORMAL_TRAINING_SEQ_3_END
            (skipn 500 (TetraDecoder.m_frame d ++ [sym])) <= 1)
  /\ (found = true ->
      TetraDecoder.m_frame d' = []
      /\ TetraDecoder.m_bIsSynchronized d' = true
      /\ TetraDecoder.m_syncBitCounter d' = 510 * 50 - 1
      /\ TetraDecoder.processed d'
         = TetraDecoder.processed d ++ [TetraDecoder.symbols d + 1]).
Proof.
  intros Hb Hsym Hrun. split.
  - assert (Hbf : binary (TetraDecoder.m_frame d ++ [sym]))
      by (apply binary_app; [assumption|]; constructor; [assumption|constructor]).
    revert Hrun. unfold TetraDecoder.rxSymbol, TetraDecoder.FRAME_LEN.
    cbn [TetraDecoder.m_frame TetraDecoder.m_bIsSynchronized
         TetraDecoder.m_syncBitCounter TetraDecoder.symbols TetraDecoder.processed
         TetraDecoder.m_mac].
    rewrite (binary_uint8 sym Hsym).
    set (frame := TetraDecoder.m_frame d ++ [sym]) in *.
    destruct (Z.ltb_spec (Z.of_nat (length frame)) 510) as [Hlt|Hge].
    { intros H. injection H as <- _. split; [discriminate|]. intros (Hl & _). lia. }
    destruct (anchor_scores frame Hbf ltac:(lia)) as (-> & -> & Hzero).
    cbn [bind]. intros H.
    assert (Hf : found = (hamming TetraDecoder.NORMAL_TRAINING_SEQ_3_BEGIN frame =? 0)
                         && (hamming TetraDecoder.NORMAL_TRAINING_SEQ_3_END
                               (skipn 500 frame) <? 2)).
    { match type of H with
      | bind ?c _ = _ => destruct c as [[cl d1]|]; cbn [bind] in H; [|discriminate]
      end.
      injection H as <- _. reflexivity. }
    rewrite Hf, andb_true_iff, Z.eqb_eq, Z.ltb_lt, Hzero. split.
    + intros (H1 & H2). repeat split; [lia|assumption|lia].
    + intros (_ & H1 & H2). split; [assumption|lia].
  - intros ->. pose proof (rxSymbol_matched _ _ _ _ _ Hrun) as Hv.
    unfold view in Hv. injection Hv as Hlen Hs Hc _ Hp.
    repeat split; try assumption.
    destruct (TetraDecoder.m_frame d'); [reflexivity|discriminate].
Qed.

Lemma rxSymbol_found_iff_witness :
  (true = true
   <-> (510 <= length (TetraDecoder.m_frame before_match ++ [0%Z]))%nat
       /\ firstn 12 (TetraDecoder.m_frame before_match ++ [0])
          = TetraDecoder.NORMAL_TRAINING_SEQ_3_BEGIN
       /\ hamming TetraDecoder.NORMAL_TRAINING_SEQ_3_END
            (skipn 500 (TetraDecoder.m_frame before_match ++ [0])) <= 1)
  /\ (true = true ->
      TetraDecoder.m_frame after_match = []
      /\ TetraDecoder.m_bIsSynchronized after_match = true
      /\ TetraDecoder.m_syncBitCounter after_match = 510 * 50 - 1
      /\ TetraDecoder.processed after_match
         = TetraDecoder.processed before_match ++ [TetraDecoder.symbols before_match + 1]).
Proof.
  apply (rxSymbol_found_iff 16 no_lower_mac 0 before_match true after_match).
  - unfold binary. apply Forall_forall. intros x Hx.
    assert (H : forallb (fun y => (y =? 0) || (y =? 1)) (TetraDecoder.m_frame before_match)
                = true) by (vm_compute; reflexivity).
    rewrite forallb_forall in H. specialize (H x Hx). lia.
  - left. reflexivity.
  - vm_compute. reflexivity.
Defined.

Lemma rxSymbol_unsynchronized (tw : Z)
    (serviceLowerMac : list Z -> BurstType -> Mac.t -> option Mac.t)
    (sym : Z) (d d' : TetraDecoder.t) :
  TetraDecoder.m_bIsSynchronized d = false ->
  TetraDecoder.rxSymbol tw serviceLowerMac sym d = Some (false, d') ->
  TetraDecoder.m_bIsSynchronized d' = false
  /\ TetraDecoder.processed d' = TetraDecoder.processed d
  /\ TetraDecoder.m_mac d' = TetraDecoder.m_mac d.
Proof.
  intros Hs. unfold TetraDecoder.rxSymbol.
  cbn [TetraDecoder.m_frame TetraDecoder.m_bIsSynchronized TetraDecoder.m_syncBitCounter
       TetraDecoder.symbols TetraDecoder.processed TetraDecoder.m_mac].
  destruct (_ <? TetraDecoder.FRAME_LEN).
  { intros H. injection H as <-. cbn. auto. }
  intros H.
  destruct (TetraDecoder.patternAtPositionScore _ _ 0) as [sb|]; cbn [bind] in H; [|discriminate].
  destruct (TetraDecoder.patternAtPositionScore _ _ 500) as [se|]; cbn [bind] in H; [|discriminate].
  destruct ((sb =? 0) && (se <? 2)).
  { cbn [orb] in H.
    match type of H with
    | bind (bind ?c _) _ = _ => destruct c; cbn [bind] in H; [|discriminate]
    end.
    injection H as H _. discriminate. }
  cbn [orb TetraDecoder.m_frame TetraDecoder.m_bIsSynchronized
       TetraDecoder.m_syncBitCounter TetraDecoder.symbols TetraDecoder.processed
       TetraDecoder.m_mac] in H.
  rewrite Hs in H. cbn [andb bind negb TetraDecoder.m_frame TetraDecoder.m_bIsSynchronized
       TetraDecoder.m_syncBitCounter TetraDecoder.symbols TetraDecoder.processed
       TetraDecoder.m_mac] in H.
  destruct (_ <=? 0); injection H as <-; cbn; auto.
Qed.

(** X8.  A decoder that is not synchronized does nothing but slide its
    buffer until a burst is matched: over symbols in which none is found,
    [processFrame] is not called, the MAC (so the TDMA time) is left as it
    was, and the decoder stays unsynchronized. *)
Theorem rxSymbols_unsynchronized (tw : Z)
    (serviceLowerMac : list Z -> BurstType -> Mac.t -> option Mac.t)
    (syms : list Z) (d d' : TetraDecoder.t) :
  TetraDecoder.m_bIsSynchronized d = false ->
  TetraDecoder.rxSymbols tw serviceLowerMac syms d = Some (O, d') ->
  TetraDecoder.m_bIsSynchronized d' = false
  /\ TetraDecoder.processed d' = TetraDecoder.processed d
  /\ TetraDecoder.m_mac d' = TetraDecoder.m_mac d.
Proof.
  revert d. induction syms as [|sym syms IH]; intros d Hs H.
  - injection H as <-. auto.
  - cbn [TetraDecoder.rxSymbols] in H.
    destruct (TetraDecoder.rxSymbol tw serviceLowerMac sym d) as [[found d1]|] eqn:H1;
      cbn [bind] in H; [|discriminate].
    destruct (TetraDecoder.rxSymbols tw serviceLowerMac syms d1) as [[n d2]|] eqn:H2;
      cbn [bind] in H; [|discriminate].
    destruct found; [discriminate|]. injection H as -> <-.
    destruct (rxSymbol_unsynchronized _ _ _ _ _ Hs H1) as (Hs1 & Hp1 & Hm1).
    destruct (IH d1 Hs1 H2) as (Hs2 & Hp2 & Hm2).
    repeat split; congruence.
Qed.

Lemma rxSymbols_unsynchronized_witness :
  TetraDecoder.m_bIsSynchronized
    (TetraDecoder.mk (repeat 0 509) false 18446744073709551525 mac0 600 []) = false
  /\ TetraDecoder.processed
       (TetraDecoder.mk (repeat 0 509) false 18446744073709551525 mac0 600 [])
     = TetraDecoder.processed (TetraDecoder.create mac0)
  /\ TetraDecoder.m_mac
       (TetraDecoder.mk (repeat 0 509) false 18446744073709551525 mac0 600 [])
     = TetraDecoder.m_mac (TetraDecoder.create mac0).
Proof.
  apply (rxSymbols_unsynchronized 16 no_lower_mac (repeat 0 600)
           (TetraDecoder.create mac0)
           (TetraDecoder.mk (repeat 0 509) false 18446744073709551525 mac0 600 [])).
  - reflexivity.
  - vm_compute. reflexivity.
Defined.






(** ** Synchronizer: the type of a burst *)

Lemma hamming_firstn (pattern : list Z) :
  forall data : list Z,
    hamming pattern data = hamming pattern (firstn (length pattern) data).
Proof.
  induction pattern as [|p pattern IH]; intros [|x data]; cbn [hamming length firstn];
    try reflexivity.
  now rewrite <- IH.
Qed.

Lemma hamming_app (p1 p2 : list Z) :
  forall data : list Z,
    (length p1 <= length data)%nat ->
    hamming (p1 ++ p2) data = hamming p1 data + hamming p2 (skipn (length p1) data).
Proof.
  induction p1 as [|p p1 IH]; intros data Hlen.
  - cbn. reflexivity.
  - destruct data as [|x data]; [cbn in Hlen; lia|].
    cbn [app hamming length skipn]. cbn [length] in Hlen.
    rewrite IH by lia. lia.
Qed.

Lemma binary_training :
  binary TetraDecoder.SYNC_TRAINING_SEQ
  /\ binary TetraDecoder.NORMAL_TRAINING_SEQ_1
  /\ binary TetraDecoder.NORMAL_TRAINING_SEQ_2.
Proof.
  unfold binary. repeat split; repeat (constructor; [lia|]); constructor.
Qed.

(** The three scores of [processFrame] on a full buffer of hard bits. *)
Lemma training_scores (frame : list Z) :
  binary frame -> (510 <= length frame)%nat ->
  TetraDecoder.patternAtPositionScore frame TetraDecoder.SYNC_TRAINING_SEQ 214
  = Some (hamming TetraDecoder.SYNC_TRAINING_SEQ (skipn 214 frame))
  /\ TetraDecoder.patternAtPositionScore frame TetraDecoder.NORMAL_TRAINING_SEQ_1 244
     = Some (hamming TetraDecoder.NORMAL_TRAINING_SEQ_1 (skipn 244 frame))
  /\ TetraDecoder.patternAtPositionScore frame TetraDecoder.NORMAL_TRAINING_SEQ_2 244
     = Some (hamming TetraDecoder.NORMAL_TRAINING_SEQ_2 (skipn 244 frame)).
Proof.
  intros Hb Hlen. destruct binary_training as (H0 & H1 & H2).
  unfold TetraDecoder.patternAtPositionScore.
  rewrite !scoreLoop_hamming; try assumption; try (cbn; lia).
  repeat split.
Qed.

(** The sync training sequence runs over the first 8 symbols of a normal
    one, and differs from both there. *)
Lemma sync_score_over_normal (frame normal : list Z) :
  (510 <= length frame)%nat ->
  firstn 22 (skipn 244 frame) = normal ->
  hamming (skipn 30 TetraDecoder.SYNC_TRAINING_SEQ) (firstn 8 normal)
  <= hamming TetraDecoder.SYNC_TRAINING_SEQ (skipn 214 frame).
Proof.
  intros Hlen Hn.
  change TetraDecoder.SYNC_TRAINING_SEQ
    with (firstn 30 TetraDecoder.SYNC_TRAINING_SEQ ++ skipn 30 TetraDecoder.SYNC_TRAINING_SEQ)
    at 2.
  rewrite hamming_app by (rewrite length_skipn; cbn; lia).
  change (length (firstn 30 TetraDecoder.SYNC_TRAINING_SEQ)) with 30%nat.
  rewrite skipn_skipn. change (30 + 214)%nat with 244%nat.
  rewrite (hamming_firstn (skipn 30 TetraDecoder.SYNC_TRAINING_SEQ) (skipn 244 frame)).
  change (length (skipn 30 TetraDecoder.SYNC_TRAINING_SEQ)) with 8%nat.
  rewrite <- Hn, firstn_firstn. change (Nat.min 8 22) with 8%nat.
  pose proof (hamming_nonneg (firstn 30 TetraDecoder.SYNC_TRAINING_SEQ) (skipn 214 frame)).
  lia.
Qed.

(** X10.  On a full buffer of hard bits, a training sequence that stands
    without error at its place decides the burst type by itself: the
    synchronisation sequence at 214 gives SB, the first normal sequence at
    244 gives NDB, the second gives NDB_SF; and when no sequence is within
    5 errors the lower MAC is not called. *)
Theorem processFrame_burst_type
    (serviceLowerMac : list Z -> BurstType -> Mac.t -> option Mac.t)
    (d : TetraDecoder.t) :
  binary (TetraDecoder.m_frame d) ->
  (510 <= length (TetraDecoder.m_frame d))%nat ->
  let frame := TetraDecoder.m_frame d in
  (firstn 38 (skipn 214 frame) = TetraDecoder.SYNC_TRAINING_SEQ ->
   TetraDecoder.processFrame serviceLowerMac d
   = serviceLowerMac frame SB (TetraDecoder.m_mac d))
  /\ (firstn 22 (skipn 244 frame) = TetraDecoder.NORMAL_TRAINING_SEQ_1 ->
      TetraDecoder.processFrame serviceLowerMac d
      = serviceLowerMac frame NDB (TetraDecoder.m_mac d))
  /\ (firstn 22 (skipn 244 frame) = TetraDecoder.NORMAL_TRAINING_SEQ_2 ->
      TetraDecoder.processFrame serviceLowerMac d
      = serviceLowerMac frame NDB_SF (TetraDecoder.m_mac d))
  /\ (5 < hamming TetraDecoder.SYNC_TRAINING_SEQ (skipn 214 frame) ->
      5 < hamming TetraDecoder.NORMAL_TRAINING_SEQ_1 (skipn 244 frame) ->
      5 < hamming TetraDecoder.NORMAL_TRAINING_SEQ_2 (skipn 244 frame) ->
      TetraDecoder.processFrame serviceLowerMac d = Some (TetraDecoder.m_mac d)).
Proof.
  intros Hb Hlen frame. subst frame.
  destruct (training_scores _ Hb Hlen) as (Hs0 & Hs1 & Hs2).
  unfold TetraDecoder.processFrame. rewrite Hs0, Hs1, Hs2. cbn [bind].
  set (s0 := hamming TetraDecoder.SYNC_TRAINING_SEQ _).
  set (s1 := hamming TetraDecoder.NORMAL_TRAINING_SEQ_1 _).
  set (s2 := hamming TetraDecoder.NORMAL_TRAINING_SEQ_2 _).
  pose proof (hamming_nonneg TetraDecoder.SYNC_TRAINING_SEQ
                (skipn 214 (TetraDecoder.m_frame d))) as P0.
  pose proof (hamming_nonneg TetraDecoder.NORMAL_TRAINING_SEQ_1
                (skipn 244 (TetraDecoder.m_frame d))) as P1.
  pose proof (hamming_nonneg TetraDecoder.NORMAL_TRAINING_SEQ_2
                (skipn 244 (TetraDecoder.m_frame d))) as P2.
  fold s0 in P0. fold s1 in P1. fold s2 in P2.
  repeat split.
  - intros H.
    assert (Z0 : s0 = 0).
    { apply (hamming_zero TetraDecoder.SYNC_TRAINING_SEQ);
        [rewrite length_skipn; cbn; lia | exact H]. }
    rewrite Z0. destruct (Z.ltb_spec s1 0); [lia|].
    destruct (Z.ltb_spec s2 0); [lia|]. reflexivity.
  - intros H.
    assert (Z1 : s1 = 0).
    { apply (hamming_zero TetraDecoder.NORMAL_TRAINING_SEQ_1);
        [rewrite length_skipn; cbn; lia | exact H]. }
    pose proof (sync_score_over_normal _ _ Hlen H) as Hover.
    change (hamming _ (firstn 8 TetraDecoder.NORMAL_TRAINING_SEQ_1)) with 6 in Hover.
    fold s0 in Hover. rewrite Z1.
    destruct (Z.ltb_spec 0 s0); [|lia].
    destruct (Z.ltb_spec s2 0); [lia|]. reflexivity.
  - intros H.
    assert (Z2 : s2 = 0).
    { apply (hamming_zero TetraDecoder.NORMAL_TRAINING_SEQ_2);
        [rewrite length_skipn; cbn; lia | exact H]. }
    pose proof (sync_score_over_normal _ _ Hlen H) as Hover.
    change (hamming _ (firstn 8 TetraDecoder.NORMAL_TRAINING_SEQ_2)) with 4 in Hover.
    fold s0 in Hover.
    assert (N1 : s1 = 11).
    { unfold s1. rewrite hamming_firstn.
      change (length TetraDecoder.NORMAL_TRAINING_SEQ_1) with 22%nat.
      rewrite H. reflexivity. }
    rewrite Z2, N1.
    destruct (Z.ltb_spec 11 s0); cbv beta iota.
    + reflexivity.
    + destruct (Z.ltb_spec 0 s0); [reflexivity|lia].
  - intros H0 H1 H2.
    destruct (s1 <? s0); cbv beta iota.
    + destruct (s2 <? s1); cbv beta iota.
      * destruct (Z.leb_spec s2 5); [lia|reflexivity].
      * destruct (Z.leb_spec s1 5); [lia|reflexivity].
    + destruct (s2 <? s0); cbv beta iota.
      * destruct (Z.leb_spec s2 5); [lia|reflexivity].
      * destruct (Z.leb_spec s0 5); [lia|reflexivity].
Qed.

Lemma binary_forallb (l : list Z) :
  forallb (fun y => (y =? 0) || (y =? 1)) l = true -> binary l.
Proof.
  intros H. unfold binary. apply Forall_forall. intros x Hx.
  rewrite forallb_forall in H. specialize (H x Hx). lia.
Qed.

Lemma processFrame_burst_type_witness :
  TetraDecoder.processFrame no_lower_mac (TetraDecoder.mk ndb_frame false 0 mac0 0 [])
  = no_lower_mac ndb_frame NDB mac0.
Proof.
  destruct (processFrame_burst_type no_lower_mac
              (TetraDecoder.mk ndb_frame false 0 mac0 0 [])) as (_ & H & _).
  - apply binary_forallb. vm_compute. reflexivity.
  - vm_compute. lia.
  - apply H. vm_compute. reflexivity.
Defined.

(** ** MAC-RESOURCE *)

Lemma array_set_length (a a' : list Z) (i v : Z) :
  array_set a i v = Some a' -> length a' = length a.
Proof.
  unfold array_set.
  destruct (Z.leb_spec 0 i) as [H0|]; [|discriminate].
  destruct (Z.ltb_spec i (Z.of_nat (length a))) as [H1|]; [|discriminate].
  cbn [andb]. intros H. injection H as <-.
  rewrite length_app, length_firstn, length_cons.
  pose proof (length_skipn (S (Z.to_nat i)) a) as Hsk. cbn [skipn] in Hsk.
  rewrite Hsk. lia.
Qed.

Lemma array_set_get (a a' : list Z) (i v : Z) :
  array_set a i v = Some a' -> array_get a' i = Some v.
Proof.
  intros H. pose proof (array_set_length _ _ _ _ H) as Hl. revert H.
  unfold array_set, array_get. rewrite Hl.
  destruct (Z.leb_spec 0 i) as [H0|]; [|discriminate].
  destruct (Z.ltb_spec i (Z.of_nat (length a))) as [H1|]; [|discriminate].
  cbn [andb]. intros H. injection H as <-.
  rewrite nth_error_app2 by (rewrite length_firstn; lia).
  rewrite length_firstn. replace (Z.to_nat i - Nat.min (Z.to_nat i) (length a))%nat
    with O by lia. reflexivity.
Qed.

Lemma same_but_address_refl (m : Mac.t) : same_but_address m m.
Proof. unfold same_but_address. auto. Qed.

Lemma same_but_address_trans (m1 m2 m3 : Mac.t) :
  same_but_address m1 m2 -> same_but_address m2 m3 -> same_but_address m1 m3.
Proof. unfold same_but_address. intuition congruence. Qed.

Lemma resourceAddress_frame (p : Pdu) (pos pos' : Z) (m m' : Mac.t) :
  Mac.resourceAddress p pos m = Some (pos', m') ->
  pos <= pos' <= pos + 34
  /\ same_but_address m m'
  /\ Mac.m_macDefrag m' = Mac.m_macDefrag m
  /\ Mac.m_secondSlotStolenFlag m' = Mac.m_secondSlotStolenFlag m
  /\ encryptionMode (Mac.m_macAddress m') = encryptionMode (Mac.m_macAddress m)
  /\ addressType (Mac.m_macAddress m') = addressType (Mac.m_macAddress m).
Proof.
  unfold Mac.resourceAddress, same_but_address. intros H.
  destruct (addressType (Mac.m_macAddress m)) as [|a|a] eqn:Ha;
    [injection H as <- <-; rewrite ?Ha; repeat split; lia |
    | injection H as <- <-; rewrite ?Ha; repeat split; lia].
  destruct a as [[[a|a|]|[a|a|]|]|[[a|a|]|[a|a|]|]|];
    try (injection H as <- <-; rewrite ?Ha; repeat split; lia);
    repeat bind_step H; injection H as <- <-;
    cbn [Mac.m_tetraTime Mac.m_macState Mac.m_bRemoveFillBits Mac.calls
         Mac.m_usageMarkerEncryptionMode Mac.m_macDefrag Mac.m_secondSlotStolenFlag
         Mac.m_macAddress Mac.set_macAddress Mac.set_usageMarkerEncryptionMode
         encryptionMode addressType set_ssi set_ussi set_smi set_eventLabel
         set_usageMarker];
    rewrite ?Ha; repeat split; try lia.
  eapply array_set_length. eassumption.
Qed.

Lemma Some_eq {A : Type} (a b : A) : Some a = Some b -> a = b.
Proof. congruence. Qed.

Lemma resourceChannelAllocation_pos (p : Pdu) (pos pos' : Z) (m : Mac.t) :
  Mac.resourceChannelAllocation p pos m = Some pos' -> pos <= pos' <= pos + 115.
Proof.
  unfold Mac.resourceChannelAllocation. cbv zeta. intros H.
  repeat parse_step H.
  all: repeat match type of H with
           | context [if ?c then _ else _] => destruct c
           end.
  all: apply Some_eq in H.
  all: lia.
Qed.

Lemma decodeLength_range (v : Z) :
  0 <= v < 64 ->
  0 <= Mac.decodeLength v <= 63 /\ (v = 63 -> Mac.decodeLength v = 63).
Proof.
  intros Hv.
  destruct (Z_le_gt_dec v 18); [rewrite decodeLength_low by lia; lia|].
  destruct (Z_le_gt_dec v 58); [rewrite decodeLength_high by lia; lia|].
  assert (H : v = 59 \/ v = 60 \/ v = 61 \/ v = 62 \/ v = 63) by lia.
  destruct H as [-> | [-> | [-> | [-> | ->]]]]; (split; [vm_compute; split; discriminate | intros Hx; try discriminate Hx; reflexivity]).
Qed.

Lemma uint8_zero (width v : Z) :
  0 <= width <= 8 -> 0 <= v < 2 ^ width -> (uint8 v =? 0) = (v =? 0).
Proof.
  intros Hw Hv. unfold uint8. rewrite (wrap_small_le 8 width) by lia. reflexivity.
Qed.

Lemma Some4_eq {A B C D : Type} (a a' : A) (b b' : B) (c c' : C) (d d' : D) :
  Some (a, b, c, d) = Some (a', b', c', d') -> a' = a /\ b' = b /\ c' = c /\ d' = d.
Proof. intros H. inversion H. auto. Qed.

(** What a MAC-RESOURCE that is not a NULL PDU does, past its header:
    [p'] is the PDU without its fill bits, [len] its length indication,
    [pos] the size of its header, [m0] the MAC once the header is read. *)
Lemma pduProcessResource_inv (p : Pdu) (ch : MacLogicalChannel) (m : Mac.t)
    (sdu : Pdu) (frag : bool) (size : Z) (m' : Mac.t) :
  Mac.pduProcessResource p ch m = Some (sdu, frag, size, m') ->
  (Pdu_getValue p 13 3 = Some 0 /\ sdu = [] /\ frag = false /\ size = -1 /\ m' = m)
  \/ exists p' len enc pos m0,
       Pdu_getValue p' 4 2 = Some enc
       /\ Pdu_getValue p' 7 6 = Some len /\ 0 <= len < 64
       /\ 19 <= pos <= 180
       /\ same_but_address m m0
       /\ Mac.m_macDefrag m0 = Mac.m_macDefrag m
       /\ encryptionMode (Mac.m_macAddress m0) = enc
       /\ frag = (len =? 63)
       /\ size = (if frag then 0 else Mac.decodeLength len * 8)
       /\ (if frag
           then sdu = []
                /\ Mac.m_secondSlotStolenFlag m0 = 0
                /\ m' = Mac.set_macDefrag
                          (MacDefrag.append (Pdu_from p' pos) (Mac.m_macAddress m0)
                             (MacDefrag.start (Mac.m_macAddress m0) (Mac.getTime m0)
                                (Mac.m_macDefrag m0))) m0
           else m' = m0
                /\ sdu = if Mac.decodeLength len * 8 - pos >? 0
                         then Pdu_sub p' pos (Mac.decodeLength len * 8 - pos)
                         else []).
Proof.
  unfold Mac.pduProcessResource. intros H.
  bind_step H.
  match goal with E : Pdu_getValue p 13 3 = Some ?z |- _ =>
    pose proof (Pdu_getValue_range p 13 3 z ltac:(lia) E) as Rz;
    rewrite (uint8_zero 3 z) in H by lia;
    destruct (Z.eqb_spec z 0) as [->|Hnull]
  end.
  { left. apply Some4_eq in H. intuition. }
  right.
  bind_step H. bind_step H. bind_step H. bind_step H.
  match goal with E : Pdu_getValue ?q (2 + 1 + 1 + 2 + 1) 6 = Some ?z |- _ =>
    pose proof (Pdu_getValue_range q _ 6 z ltac:(lia) E) as Rl;
    change (2 ^ 6) with 64 in Rl;
    rewrite (uint32_small z) in H by lia;
    rename z into len; rename q into p'
  end.
  pose proof (decodeLength_range len Rl) as [Rd Rd63].
  match goal with E : Pdu_getValue p' (2 + 1 + 1) 2 = Some ?z |- _ => rename z into enc end.
  assert (Hsplit :
    exists fragF m1,
      fragF = (len =? 63)
      /\ same_but_address m m1 /\ Mac.m_macDefrag m1 = Mac.m_macDefrag m
      /\ encryptionMode (Mac.m_macAddress m1) = enc
      /\ (fragF = true -> Mac.m_secondSlotStolenFlag m1 = 0)
      /\ (if len =? 62
          then (false,
                Mac.set_secondSlotStolenFlag 1
                  (Mac.set_macAddress (set_encryptionMode enc (Mac.m_macAddress m)) m))
          else if len =? 63
               then (true,
                     Mac.set_secondSlotStolenFlag 0
                       (Mac.set_macAddress (set_encryptionMode enc (Mac.m_macAddress m)) m))
               else (false,
                     Mac.set_macAddress (set_encryptionMode enc (Mac.m_macAddress m)) m))
         = (fragF, m1)).
  { destruct (Z.eqb_spec len 62) as [->|H62];
      [|destruct (Z.eqb_spec len 63) as [->|H63]];
      do 2 eexists; (split; [|split; [|split; [|split; [|split; [|reflexivity]]]]]);
      try reflexivity; try discriminate;
      unfold same_but_address; repeat split. }
  destruct Hsplit as (fragF & m1 & HfragF & Hsame1 & Hdef1 & Henc1 & Hst1 & Heq).
  rewrite Heq in H. clear Heq.
  bind_step H.
  match type of H with
  | bind ?c _ = _ => destruct c as [[pos1 m0]|] eqn:Haddr; cbn [bind] in H; [|discriminate]
  end.
  apply resourceAddress_frame in Haddr.
  cbn [Mac.m_macAddress Mac.set_macAddress encryptionMode set_addressType] in Haddr.
  destruct Haddr as (Hpos1 & Hsame0 & Hdef0 & Hst0 & Henc0 & _).
  assert (Hsame : same_but_address m m0).
  { eapply same_but_address_trans; [exact Hsame1|].
    revert Hsame0. unfold same_but_address. cbn. auto. }
  cbn [Mac.m_macDefrag Mac.set_macAddress Mac.m_secondSlotStolenFlag] in Hdef0, Hst0.
  change (2 + 1 + 1 + 2 + 1 + 6 + 3) with 16 in Hpos1.
  bind_step H.
  parse_step H; bind_step H; parse_step H; bind_step H.
  all: match type of H with
       | bind ?c _ = _ => destruct c as [pos|] eqn:Hpos; cbn [bind] in H; [|discriminate]
       end.
  all: assert (Rpos : 19 <= pos <= 180)
         by (destruct (uint8 _ =? 0) in Hpos;
             [apply Some_eq in Hpos | apply resourceChannelAllocation_pos in Hpos]; lia).
  all: clear Hpos.
  all: rewrite (int32_small (Mac.decodeLength len)) in H by lia.
  all: rewrite (int32_small pos) in H by lia.
  all: rewrite !(int32_small (Mac.decodeLength len * 8 - pos)) in H by lia.
  all: rewrite ?(int32_small (Mac.decodeLength len * 8)) in H by lia.
  all: exists p', len, enc, pos, m0.
  all: do 5 (split; [assumption|]).
  all: do 2 (split; [congruence|]).
  all: destruct fragF.
  all: try (symmetry in HfragF; apply Z.eqb_eq in HfragF; subst len;
            rewrite (Rd63 eq_refl) in H;
            destruct (Z.gtb_spec (63 * 8 - pos) 0); [|lia];
            apply Some4_eq in H; destruct H as (-> & -> & -> & ->);
            cbn [Z.eqb Pos.eqb];
            repeat split; rewrite Hst0; now apply Hst1).
  all: destruct (_ >? 0); apply Some4_eq in H; destruct H as (-> & -> & -> & ->);
       rewrite <- HfragF; repeat split.
Qed.

Lemma Pdu_sub_size (p : Pdu) (pos len : Z) :
  Pdu_size (Pdu_sub p pos len) <= Z.max 0 len.
Proof.
  unfold Pdu_sub, Pdu_size. rewrite length_firstn. lia.
Qed.

(** X11.  Whatever a MAC-RESOURCE PDU holds, when [pduProcessResource]
    returns it has left the TDMA time, the MAC state and the calls made so
    far as they were; pduSizeInMac is -1 (NULL PDU only, and then nothing
    at all has changed) or a whole number of octets from 0 to 504; the
    TM-SDU has at most pduSizeInMac - 19 bits, 19 being the shortest
    header.  When the PDU starts a fragmentation, nothing is returned
    (empty TM-SDU, size 0) and a reassembly is running, under the address
    read from this PDU, begun at the current TDMA time, holding one
    fragment; otherwise the defragmenter is not touched. *)
Theorem pduProcessResource_outcome (p : Pdu) (ch : MacLogicalChannel) (m : Mac.t)
    (sdu : Pdu) (frag : bool) (size : Z) (m' : Mac.t) :
  Mac.pduProcessResource p ch m = Some (sdu, frag, size, m') ->
  same_but_address m m'
  /\ (size = -1 \/ 0 <= size <= 504 /\ size mod 8 = 0)
  /\ (size = -1 -> Pdu_getValue p 13 3 = Some 0 /\ m' = m)
  /\ Pdu_size sdu <= Z.max 0 (size - 19)
  /\ (if frag
      then size = 0
           /\ MacDefrag.b_stopped (Mac.m_macDefrag m') = false
           /\ MacDefrag.macAddress (Mac.m_macDefrag m') = Mac.m_macAddress m'
           /\ MacDefrag.startTime (Mac.m_macDefrag m') = Mac.m_tetraTime m
           /\ MacDefrag.m_fragmentsCount (Mac.m_macDefrag m') = 1
           /\ Mac.m_secondSlotStolenFlag m' = 0
      else Mac.m_macDefrag m' = Mac.m_macDefrag m).
Proof.
  intros H. apply pduProcessResource_inv in H.
  destruct H as [(Hnull & -> & -> & -> & ->)
                | (p' & len & enc & pos & m0 & _ & _ & Rl & Rpos & Hsame & Hdef & _
                   & -> & -> & H)].
  { split; [apply same_but_address_refl|]. cbn. repeat split; auto. lia. }
  pose proof (decodeLength_range len Rl) as [Rd Rd63].
  destruct (len =? 63) eqn:E63.
  - destruct H as (-> & Hst & ->).
    destruct Hsame as (Ht & Hs & Hb & Hc & Hl).
    split; [repeat split; assumption|].
    split; [right; split; [lia|reflexivity]|].
    split; [discriminate|].
    split; [cbn; lia|].
    unfold MacDefrag.append, MacDefrag.start, Mac.getTime.
    cbn [Mac.m_macDefrag Mac.set_macDefrag MacDefrag.b_stopped MacDefrag.macAddress
         Mac.m_macAddress Mac.m_secondSlotStolenFlag].
    rewrite Z.eqb_refl.
    cbn [negb MacDefrag.b_stopped MacDefrag.macAddress MacDefrag.startTime
         MacDefrag.m_fragmentsCount].
    repeat split; assumption.
  - destruct H as (-> & ->).
    split; [assumption|].
    split; [right; split; [lia|apply Z.mod_mul; lia]|].
    split; [lia|].
    split; [|assumption].
    destruct (Z.gtb_spec (Mac.decodeLength len * 8 - pos) 0).
    + pose proof (Pdu_sub_size p' pos (Mac.decodeLength len * 8 - pos)). lia.
    + cbn. lia.
Qed.

Lemma pduProcessResource_outcome_witness :
  same_but_address mac0 (snd frag_start_outcome)
  /\ (snd (fst frag_start_outcome) = -1
      \/ 0 <= snd (fst frag_start_outcome) <= 504
         /\ snd (fst frag_start_outcome) mod 8 = 0)
  /\ (snd (fst frag_start_outcome) = -1 ->
      Pdu_getValue frag_start_pdu 13 3 = Some 0 /\ snd frag_start_outcome = mac0)
  /\ Pdu_size (fst (fst (fst frag_start_outcome)))
     <= Z.max 0 (snd (fst frag_start_outcome) - 19)
  /\ (if snd (fst (fst frag_start_outcome))
      then snd (fst frag_start_outcome) = 0
           /\ MacDefrag.b_stopped (Mac.m_macDefrag (snd frag_start_outcome)) = false
           /\ MacDefrag.macAddress (Mac.m_macDefrag (snd frag_start_outcome))
              = Mac.m_macAddress (snd frag_start_outcome)
           /\ MacDefrag.startTime (Mac.m_macDefrag (snd frag_start_outcome))
              = Mac.m_tetraTime mac0
           /\ MacDefrag.m_fragmentsCount (Mac.m_macDefrag (snd frag_start_outcome)) = 1
           /\ Mac.m_secondSlotStolenFlag (snd frag_start_outcome) = 0
      else Mac.m_macDefrag (snd frag_start_outcome) = Mac.m_macDefrag mac0).
Proof.
  apply (pduProcessResource_outcome frag_start_pdu SCH_HD mac0
           (fst (fst (fst frag_start_outcome))) (snd (fst (fst frag_start_outcome)))
           (snd (fst frag_start_outcome)) (snd frag_start_outcome)).
  vm_compute. reflexivity.
Defined.

(** ** What the dissectors leave alone *)

Lemma effects_refl (ch : MacLogicalChannel) (m : Mac.t) : effects ch m m.
Proof.
  unfold effects. repeat split; auto.
  exists []. rewrite app_nil_r. auto.
Qed.

Lemma effects_trans (ch : MacLogicalChannel) (m1 m2 m3 : Mac.t) :
  effects ch m1 m2 -> effects ch m2 m3 -> effects ch m1 m3.
Proof.
  intros (Hb1 & Hl1 & Hc1 & Ht1 & n1 & Hn1 & Ha1) (Hb2 & Hl2 & Hc2 & Ht2 & n2 & Hn2 & Ha2).
  unfold effects. repeat split; try congruence.
  - intros Hch. rewrite Ht2, Ht1; auto.
  - exists (n1 ++ n2). rewrite Hn2, Hn1, app_assoc. split; [reflexivity|].
    apply Forall_app. auto.
Qed.

Lemma same_but_address_effects (ch : MacLogicalChannel) (m m' : Mac.t) :
  same_but_address m m' -> effects ch m m'.
Proof.
  intros (Ht & Hs & Hb & Hc & Hl). unfold effects.
  repeat split; try congruence.
  exists []. rewrite app_nil_r. auto.
Qed.

Lemma call_effects (ch : MacLogicalChannel) (e : Event) (m : Mac.t) :
  allowed ch e -> effects ch m (Mac.call e m).
Proof.
  intros He. unfold effects. cbn. repeat split; auto.
  exists [e]. auto.
Qed.

Lemma pduProcessAach_state (p : Pdu) (m m' : Mac.t) :
  Mac.pduProcessAach p m = Some m' ->
  exists st,
    m' = Mac.set_macState st m
    /\ logicalChannel st = logicalChannel (Mac.m_macState m)
    /\ (downlinkUsage st = TRAFFIC -> 4 <= downlinkUsageMarker st <= 63)
    /\ (downlinkUsage st <> TRAFFIC -> downlinkUsageMarker st = 0).
Proof.
  unfold Mac.pduProcessAach. intros H.
  bind_step H. bind_step H.
  match goal with E : Pdu_getValue p (0 + 2) 6 = Some ?z |- _ =>
    pose proof (Pdu_getValue_range p _ 6 z ltac:(lia) E) as R;
    change (2 ^ 6) with 64 in R
  end.
  apply Some_eq in H. subst m'. eexists. split; [reflexivity|].
  unfold uint8. rewrite !(wrap_small_le 8 6 z0) by (change (2 ^ 6) with 64; lia).
  destruct (fn (Mac.m_tetraTime m) =? 18); [cbn; repeat split; (discriminate || auto)|].
  destruct (wrap 8 z =? 0); [cbn; repeat split; (discriminate || auto)|].
  destruct (Z.eqb_spec z0 0); [cbn; repeat split; (discriminate || auto)|].
  destruct (Z.eqb_spec z0 1); [cbn; repeat split; (discriminate || auto)|].
  destruct (Z.eqb_spec z0 2); [cbn; repeat split; (discriminate || auto)|].
  destruct (Z.eqb_spec z0 3); [cbn; repeat split; (discriminate || auto)|].
  cbn. repeat split; try lia. congruence.
Qed.

Lemma pduProcessAach_effects (p : Pdu) (m m' : Mac.t) :
  Mac.pduProcessAach p m = Some m' -> effects AACH m m'.
Proof.
  intros H. apply pduProcessAach_state in H.
  destruct H as (st & -> & Hc & _). unfold effects. cbn.
  repeat split; auto. exists []. rewrite app_nil_r. auto.
Qed.

Lemma pduProcessMacFrag_inv (p : Pdu) (m m' : Mac.t) :
  Mac.pduProcessMacFrag p m = Some m' ->
  exists sdu,
    m' = Mac.set_macDefrag (MacDefrag.append sdu (Mac.m_macAddress m) (Mac.m_macDefrag m)) m.
Proof.
  unfold Mac.pduProcessMacFrag. intros H.
  bind_step H. bind_step H. apply Some_eq in H. eauto.
Qed.

Lemma pduProcessMacFrag_same (p : Pdu) (m m' : Mac.t) :
  Mac.pduProcessMacFrag p m = Some m' -> same_but_address m m'.
Proof.
  intros H. apply pduProcessMacFrag_inv in H. destruct H as (sdu & ->).
  unfold same_but_address. cbn. auto.
Qed.

Lemma Some2_eq {A B : Type} (a a' : A) (b b' : B) :
  Some (a, b) = Some (a', b') -> a' = a /\ b' = b.
Proof. intros H. inversion H. auto. Qed.

Lemma Some3_eq {A B C : Type} (a a' : A) (b b' : B) (c c' : C) :
  Some (a, b, c) = Some (a', b', c') -> a' = a /\ b' = b /\ c' = c.
Proof. intros H. inversion H. auto. Qed.

(** A MAC-END either carries a reserved length, and does nothing, or ends
    the reassembly: [d] is the defragmenter with the last fragment. *)
Lemma pduProcessMacEnd_inv (p : Pdu) (m : Mac.t) (sdu : Pdu) (m' : Mac.t) :
  Mac.pduProcessMacEnd p m = Some (sdu, m') ->
  (sdu = [] /\ m' = m)
  \/ exists frag,
       let d := MacDefrag.append frag (Mac.m_macAddress m) (Mac.m_macDefrag m) in
       sdu = fst (MacDefrag.getSdu d)
       /\ Mac.m_macDefrag m' = MacDefrag.stop d
       /\ same_but_address m m'
       /\ Mac.m_secondSlotStolenFlag m' = Mac.m_secondSlotStolenFlag m
       /\ (sdu = [] ->
           Mac.m_macAddress m' = Mac.m_macAddress m
           /\ Mac.m_usageMarkerEncryptionMode m' = Mac.m_usageMarkerEncryptionMode m)
       /\ usageMarker (Mac.m_macAddress m') = usageMarker (Mac.m_macAddress m).
Proof.
  unfold Mac.pduProcessMacEnd. intros H.
  bind_step H. bind_step H. bind_step H.
  destruct (_ || _).
  { apply Some2_eq in H. left. intuition. }
  right.
  bind_step H. parse_step H; bind_step H.
  all: match type of H with
       | bind ?c _ = _ => destruct c as [pos|]; cbn [bind] in H; [|discriminate]
       end.
  all: exists (Pdu_from p0 pos); cbv zeta.
  all: set (d := MacDefrag.append _ _ _) in *.
  all: destruct (MacDefrag.getSdu d) as [s out] eqn:Hget; cbn [fst].
  all: destruct (Z.gtb_spec (Pdu_size s) 0) as [Hpos|Hzero].
  all: try (destruct out as [[e u]|]; cbn [bind] in H; [|discriminate];
            destruct (array_set _ u e) as [tbl|] eqn:Hset; cbn [bind] in H; [|discriminate];
            apply array_set_length in Hset).
  all: cbn [bind] in H; apply Some2_eq in H; destruct H as (-> & ->).
  all: unfold same_but_address; cbn.
  all: repeat split; auto.
  all: try (subst s; cbn in Hpos; lia).
Qed.

Lemma pduProcessMacEnd_same (p : Pdu) (m : Mac.t) (sdu : Pdu) (m' : Mac.t) :
  Mac.pduProcessMacEnd p m = Some (sdu, m') -> same_but_address m m'.
Proof.
  intros H. apply pduProcessMacEnd_inv in H.
  destruct H as [(_ & ->) | (frag & _ & _ & H & _)];
    [apply same_but_address_refl | exact H].
Qed.

(** ** BSCH *)

Lemma Pdu_sub_length (p : Pdu) (pos len : Z) :
  0 <= pos -> 0 <= len -> pos + len <= Pdu_size p ->
  Pdu_size (Pdu_sub p pos len) = len.
Proof.
  unfold Pdu_sub, Pdu_size. intros Hp Hl H.
  rewrite length_firstn, length_skipn. lia.
Qed.

Lemma pduProcessSync_short (tw : Z) (p : Pdu) (m : Mac.t) :
  Pdu_size p < 60 -> Mac.pduProcessSync tw p m = Some ([], m).
Proof.
  intros H. unfold Mac.pduProcessSync.
  destruct (Z.geb_spec (Pdu_size p) 60); [lia|reflexivity].
Qed.

Lemma pduProcessSync_run (tw : Z) (p : Pdu) (m : Mac.t) :
  60 <= Pdu_size p ->
  exists cc v1 v2 v3 mcc mnc,
    Pdu_getValue p 4 6 = Some cc
    /\ Pdu_getValue p 31 10 = Some mcc
    /\ Pdu_getValue p 41 14 = Some mnc
    /\ Mac.pduProcessSync tw p m
       = Some (Pdu_sub p 31 29,
               Mac.call (UpdateScramblingCode mcc mnc cc)
                 (Mac.set_tetraTime
                    (mkTetraTime (wrap tw (uint64 (v1 + 1))) (wrap tw v2) (wrap tw v3)) m)).
Proof.
  intros Hsz.
  destruct (Pdu_getValue_defined p 4 6) as [cc Hcc]; [lia|].
  destruct (Pdu_getValue_defined p 10 2) as [v1 H1]; [lia|].
  destruct (Pdu_getValue_defined p 12 5) as [v2 H2]; [lia|].
  destruct (Pdu_getValue_defined p 17 6) as [v3 H3]; [lia|].
  destruct (Pdu_getValue_defined p 31 10) as [mcc Hmcc]; [lia|].
  destruct (Pdu_getValue_defined p 41 14) as [mnc Hmnc]; [lia|].
  pose proof (Pdu_getValue_range p 4 6 cc ltac:(lia) Hcc) as Rc.
  pose proof (Pdu_getValue_range p 31 10 mcc ltac:(lia) Hmcc) as Rmcc.
  pose proof (Pdu_getValue_range p 41 14 mnc ltac:(lia) Hmnc) as Rmnc.
  exists cc, v1, v2, v3, mcc, mnc.
  split; [assumption|]. split; [assumption|]. split; [assumption|].
  unfold Mac.pduProcessSync.
  destruct (Z.geb_spec (Pdu_size p) 60) as [_|]; [|lia].
  change (4 + 6) with 10. rewrite Hcc. cbn [bind].
  rewrite H1. cbn [bind]. change (10 + 2) with 12. rewrite H2. cbn [bind].
  change (12 + 5) with 17. rewrite H3. cbn [bind].
  rewrite Hmcc. cbn [bind]. rewrite Hmnc. cbn [bind].
  rewrite (wrap_small_le 16 6 cc), (wrap_small_le 16 14 mnc) by lia.
  unfold uint32. rewrite (wrap_small_le 32 10 mcc) by lia.
  reflexivity.
Qed.

(** The end of an iteration whose PDU is not to be dissociated: the LLC
    is served and the loop is left. *)
Lemma iteration_last (tw : Z) (ch : MacLogicalChannel) (l l1 : Mac.Locals)
    (m m1 : Mac.t) :
  Mac.dissect tw ch
    (Mac.mkLocals (Mac.pdu l) (Mac.tmSdu l) true (Mac.fragmentedPacketFlag l) false
       (Mac.pduSizeInMac l) (Mac.pduCount l)) m = Some (l1, m1) ->
  Mac.dissociatePduFlag l1 = false ->
  exists l',
    Mac.iteration tw ch l m
    = Some (l',
            if negb (Pdu_isEmpty (Mac.tmSdu l1)) && Mac.bSendTmSduToLlc l1
            then Mac.call (LlcService (Mac.tmSdu l1) ch (Mac.m_tetraTime m1)
                             (Mac.m_macAddress m1)) m1
            else m1,
            false)
    /\ Mac.tmSdu l' = Mac.tmSdu l1.
Proof.
  intros Hd Hf. unfold Mac.iteration. rewrite Hd. cbn [bind].
  cbn [Mac.pdu Mac.tmSdu Mac.bSendTmSduToLlc Mac.dissociatePduFlag
       Mac.pduSizeInMac Mac.fragmentedPacketFlag Mac.pduCount].
  rewrite Hf. destruct (_ <? 40); [eexists; split; reflexivity|].
  rewrite andb_false_r. cbn [andb]. eexists; split; reflexivity.
Qed.

(** X12.  On BSCH [serviceUpperMac] never raises and goes through its loop
    once.  A PDU shorter than 60 bits only sets the logical channel.  One
    of at least 60 bits makes two calls: the scrambling code is updated
    with MCC (bits 31..40), MNC (bits 41..54) and colour code (bits 4..9),
    then the LLC receives the 29 bits from bit 31 on, with the TDMA time
    just read from the PDU. *)
Theorem serviceUpperMac_bsch (tw : Z) (fuel : nat) (data : Pdu) (m : Mac.t) :
  (1 <= fuel)%nat ->
  exists m',
    Mac.serviceUpperMac tw fuel data BSCH m = (1%nat, Mac.Returned m')
    /\ Mac.m_macAddress m' = Mac.m_macAddress m
    /\ (Pdu_size data < 60 ->
        m' = Mac.set_macState
               (mkMacState (downlinkUsage (Mac.m_macState m))
                  (downlinkUsageMarker (Mac.m_macState m)) BSCH) m)
    /\ (60 <= Pdu_size data ->
        exists mcc mnc cc,
          Pdu_getValue data 31 10 = Some mcc
          /\ Pdu_getValue data 41 14 = Some mnc
          /\ Pdu_getValue data 4 6 = Some cc
          /\ Pdu_size (Pdu_sub data 31 29) = 29
          /\ Mac.calls m'
             = Mac.calls m
               ++ [UpdateScramblingCode mcc mnc cc;
                   LlcService (Pdu_sub data 31 29) BSCH (Mac.m_tetraTime m')
                     (Mac.m_macAddress m)]).
Proof.
  intros Hfuel. destruct fuel as [|fuel]; [lia|].
  unfold Mac.serviceUpperMac. cbn [Mac.loop].
  set (m0 := Mac.set_macState _ m).
  destruct (Z.ltb_spec (Pdu_size data) 60) as [Hs|Hs].
  - destruct (iteration_last tw BSCH (locals0 data) (locals0 data) m0 m0) as (l' & Hit & _).
    { unfold Mac.dissect, locals0. cbn [Mac.pdu].
      rewrite pduProcessSync_short by assumption. reflexivity. }
    { reflexivity. }
    unfold locals0 in Hit. rewrite Hit. cbn.
    exists m0. repeat split. intros. lia.
  - destruct (pduProcessSync_run tw data m0 Hs)
      as (cc & v1 & v2 & v3 & mcc & mnc & Hcc & Hmcc & Hmnc & Hrun).
    pose proof (Pdu_sub_length data 31 29 ltac:(lia) ltac:(lia) ltac:(lia)) as Hlen.
    destruct (iteration_last tw BSCH (locals0 data)
                (Mac.mkLocals data (Pdu_sub data 31 29) true false false 0 0) m0
                (Mac.call (UpdateScramblingCode mcc mnc cc)
                   (Mac.set_tetraTime
                      (mkTetraTime (wrap tw (uint64 (v1 + 1))) (wrap tw v2) (wrap tw v3))
                      m0))) as (l' & Hit & _).
    { unfold Mac.dissect, locals0. cbn [Mac.pdu]. rewrite Hrun. reflexivity. }
    { reflexivity. }
    unfold locals0 in Hit. rewrite Hit. clear Hit.
    cbn [Mac.tmSdu Mac.bSendTmSduToLlc andb].
    destruct (Pdu_sub data 31 29) as [|b sdu] eqn:Hsdu; [cbn in Hlen; lia|].
    cbn [Pdu_isEmpty negb].
    eexists. split; [reflexivity|]. split; [reflexivity|].
    split; [intros; lia|]. intros _.
    exists mcc, mnc, cc. repeat split; try assumption.
    cbn. rewrite <- app_assoc. reflexivity.
Qed.

Lemma serviceUpperMac_bsch_witness :
  exists m',
    Mac.serviceUpperMac 16 32 sync_pdu BSCH mac0 = (1%nat, Mac.Returned m')
    /\ Mac.m_macAddress m' = Mac.m_macAddress mac0
    /\ (Pdu_size sync_pdu < 60 ->
        m' = Mac.set_macState
               (mkMacState (downlinkUsage (Mac.m_macState mac0))
                  (downlinkUsageMarker (Mac.m_macState mac0)) BSCH) mac0)
    /\ (60 <= Pdu_size sync_pdu ->
        exists mcc mnc cc,
          Pdu_getValue sync_pdu 31 10 = Some mcc
          /\ Pdu_getValue sync_pdu 41 14 = Some mnc
          /\ Pdu_getValue sync_pdu 4 6 = Some cc
          /\ Pdu_size (Pdu_sub sync_pdu 31 29) = 29
          /\ Mac.calls m'
             = Mac.calls mac0
               ++ [UpdateScramblingCode mcc mnc cc;
                   LlcService (Pdu_sub sync_pdu 31 29) BSCH (Mac.m_tetraTime m')
                     (Mac.m_macAddress mac0)]).
Proof.
  apply (serviceUpperMac_bsch 16 32 sync_pdu mac0). lia.
Defined.

Example sync_pdu_sample :
  option_map (fun m => (Mac.m_tetraTime m, firstn 1 (Mac.calls m)))
    (returned (Mac.serviceUpperMac 16 32 sync_pdu BSCH mac0))
  = Some (mkTetraTime 3 7 33, [UpdateScramblingCode 208 10 5]).
Proof. vm_compute. reflexivity. Qed.

(** ** SYSINFO *)

Lemma pduProcessSysinfo_short (p : Pdu) (m : Mac.t) :
  Pdu_size p < 82 -> Mac.pduProcessSysinfo p m = Some ([], 0, m).
Proof.
  intros H. unfold Mac.pduProcessSysinfo.
  destruct (Z.geb_spec (Pdu_size p) 82); [lia|reflexivity].
Qed.

Lemma pduProcessSysinfo_run (p : Pdu) (m : Mac.t) :
  82 <= Pdu_size p ->
  exists carrier band offset,
    Pdu_getValue p 4 12 = Some carrier
    /\ Pdu_getValue p 16 4 = Some band
    /\ Pdu_getValue p 20 2 = Some offset
    /\ -6250 <= band * 100000000 + carrier * 25000 + duplex_offset offset <= 1602387500
    /\ Mac.pduProcessSysinfo p m
       = Some (Pdu_sub p 82 42, 124,
               Mac.call
                 (SetFrequencies
                    (band * 100000000 + carrier * 25000 + duplex_offset offset) 0) m).
Proof.
  intros Hsz.
  destruct (Pdu_getValue_defined p 4 12) as [carrier Hc]; [lia|].
  destruct (Pdu_getValue_defined p 16 4) as [band Hb]; [lia|].
  destruct (Pdu_getValue_defined p 20 2) as [offset Ho]; [lia|].
  destruct (Pdu_getValue_defined p 43 1) as [flag Hf]; [lia|].
  pose proof (Pdu_getValue_range p 4 12 carrier ltac:(lia) Hc) as Rc.
  pose proof (Pdu_getValue_range p 16 4 band ltac:(lia) Hb) as Rb.
  pose proof (Pdu_getValue_range p 20 2 offset ltac:(lia) Ho) as Ro.
  change (2 ^ 12) with 4096 in Rc. change (2 ^ 4) with 16 in Rb.
  change (2 ^ 2) with 4 in Ro.
  assert (Hd : array_get [0; 6250; -6250; 12500] offset = Some (duplex_offset offset)
               /\ -6250 <= duplex_offset offset <= 12500).
  { assert (Hcases : offset = 0 \/ offset = 1 \/ offset = 2 \/ offset = 3) by lia.
    destruct Hcases as [-> | [-> | [-> | ->]]]; vm_compute; intuition discriminate. }
  destruct Hd as [Hget Rd].
  exists carrier, band, offset.
  split; [assumption|]. split; [assumption|]. split; [assumption|].
  split; [lia|].
  unfold Mac.pduProcessSysinfo.
  destruct (Z.geb_spec (Pdu_size p) 82) as [_|]; [|lia].
  rewrite Hc. cbn [bind]. change (4 + 12) with 16. rewrite Hb. cbn [bind].
  change (16 + 4) with 20. rewrite Ho. cbn [bind].
  change (Pdu_getValue p 43 1)
    with (Pdu_getValue p (20 + 2 + 3 + 1 + 2 + 3 + 4 + 4 + 4) 1) in Hf.
  rewrite Hf. cbn [bind].
  destruct (uint8 flag =? 0).
  all: unfold uint8; rewrite (wrap_small_le 8 2 offset) by (change (2 ^ 2) with 4; lia).
  all: rewrite Hget; cbn [bind].
  all: rewrite (wrap_small_le 8 4 band) by (change (2 ^ 4) with 16; lia).
  all: rewrite (wrap_small_le 16 12 carrier) by (change (2 ^ 12) with 4096; lia).
  all: rewrite (int32_small band), (int32_small carrier) by lia.
  all: rewrite (int32_small (band * 100000000)), (int32_small (carrier * 25000)) by lia.
  all: rewrite (int32_small (band * 100000000 + carrier * 25000)) by lia.
  all: rewrite (int32_small (band * 100000000 + carrier * 25000 + duplex_offset offset))
         by lia.
  all: reflexivity.
Qed.

Lemma dissect_sysinfo (tw : Z) (ch : MacLogicalChannel) (l : Mac.Locals) (m : Mac.t) :
  signalling ch ->
  Pdu_getValue (Mac.pdu l) 0 2 = Some 2 ->
  Pdu_getValue (Mac.pdu l) 2 2 = Some 0 ->
  Mac.dissect tw ch l m
  = ('(sdu, size, m') <- Mac.pduProcessSysinfo (Mac.pdu l) m ;;
     Some (Mac.mkLocals (Mac.pdu l) sdu (Mac.bSendTmSduToLlc l)
             (Mac.fragmentedPacketFlag l) (Mac.dissociatePduFlag l) size
             (Mac.pduCount l), m')).
Proof.
  intros Hch Hty Hb. unfold Mac.dissect.
  destruct Hch as [-> | [-> | [-> | ->]]]; rewrite Hty; cbn [bind];
    change (uint8 2 =? 0) with false; change (uint8 2 =? 1) with false;
    change (uint8 2 =? 2) with true; cbv iota; rewrite Hb; cbn [bind];
    change (uint8 0 =? 0) with true; cbv iota; reflexivity.
Qed.

(** X13.  A SYSINFO PDU (PDU type 10, broadcast type 00, on a signalling
    channel) of at least 124 bits is dissected without raising, in one
    pass of the loop.  The cell receives the downlink frequency
    band * 100 MHz + carrier * 25 kHz + duplex offset, computed without
    overflow from bits 16..19, 4..15 and 20..21, and an uplink frequency
    of 0; then the LLC receives the 42 bits from bit 82 on.  With fewer
    than 82 bits nothing is called. *)
Theorem serviceUpperMac_sysinfo (tw : Z) (fuel : nat) (data : Pdu)
    (ch : MacLogicalChannel) (m : Mac.t) :
  (1 <= fuel)%nat ->
  signalling ch ->
  Pdu_getValue data 0 2 = Some 2 ->
  Pdu_getValue data 2 2 = Some 0 ->
  (Pdu_size data < 82 ->
   Mac.serviceUpperMac tw fuel data ch m = (1%nat, Mac.Returned (on_channel ch m)))
  /\ (124 <= Pdu_size data ->
      exists carrier band offset m',
        Pdu_getValue data 4 12 = Some carrier
        /\ Pdu_getValue data 16 4 = Some band
        /\ Pdu_getValue data 20 2 = Some offset
        /\ -6250 <= band * 100000000 + carrier * 25000 + duplex_offset offset
           <= 1602387500
        /\ Pdu_size (Pdu_sub data 82 42) = 42
        /\ Mac.serviceUpperMac tw fuel data ch m = (1%nat, Mac.Returned m')
        /\ Mac.calls m'
           = Mac.calls m
             ++ [SetFrequencies
                   (band * 100000000 + carrier * 25000 + duplex_offset offset) 0;
                 LlcService (Pdu_sub data 82 42) ch (Mac.m_tetraTime m)
                   (Mac.m_macAddress m)]).
Proof.
  intros Hfuel Hch Hty Hb. destruct fuel as [|fuel]; [lia|].
  unfold Mac.serviceUpperMac. cbn [Mac.loop]. fold (on_channel ch m).
  split; intros Hs.
  - destruct (iteration_last tw ch (locals0 data) (locals0 data)
                (on_channel ch m) (on_channel ch m)) as (l' & Hit & _).
    { rewrite dissect_sysinfo by assumption. cbn [Mac.pdu locals0].
      rewrite pduProcessSysinfo_short by assumption. reflexivity. }
    { reflexivity. }
    unfold locals0 in Hit. rewrite Hit. reflexivity.
  - destruct (pduProcessSysinfo_run data (on_channel ch m))
      as (carrier & band & offset & Hc & Hbd & Ho & Hr & Hrun); [lia|].
    pose proof (Pdu_sub_length data 82 42 ltac:(lia) ltac:(lia) ltac:(lia)) as Hlen.
    destruct (iteration_last tw ch (locals0 data)
                (Mac.mkLocals data (Pdu_sub data 82 42) true false false 124 0)
                (on_channel ch m)
                (Mac.call
                   (SetFrequencies
                      (band * 100000000 + carrier * 25000 + duplex_offset offset) 0)
                   (on_channel ch m))) as (l' & Hit & _).
    { rewrite dissect_sysinfo by assumption. cbn [Mac.pdu locals0].
      rewrite Hrun. reflexivity. }
    { reflexivity. }
    unfold locals0 in Hit. rewrite Hit. clear Hit.
    cbn [Mac.tmSdu Mac.bSendTmSduToLlc andb].
    destruct (Pdu_sub data 82 42) as [|b sdu] eqn:Hsdu; [cbn in Hlen; lia|].
    cbn [Pdu_isEmpty negb].
    exists carrier, band, offset. eexists.
    repeat split; try assumption; try lia.
    cbn. rewrite <- app_assoc. reflexivity.
Qed.

Lemma serviceUpperMac_sysinfo_witness :
  (Pdu_size sysinfo_pdu < 82 ->
   Mac.serviceUpperMac 16 32 sysinfo_pdu BNCH mac0
   = (1%nat, Mac.Returned (on_channel BNCH mac0)))
  /\ (124 <= Pdu_size sysinfo_pdu ->
      exists carrier band offset m',
        Pdu_getValue sysinfo_pdu 4 12 = Some carrier
        /\ Pdu_getValue sysinfo_pdu 16 4 = Some band
        /\ Pdu_getValue sysinfo_pdu 20 2 = Some offset
        /\ -6250 <= band * 100000000 + carrier * 25000 + duplex_offset offset
           <= 1602387500
        /\ Pdu_size (Pdu_sub sysinfo_pdu 82 42) = 42
        /\ Mac.serviceUpperMac 16 32 sysinfo_pdu BNCH mac0 = (1%nat, Mac.Returned m')
        /\ Mac.calls m'
           = Mac.calls mac0
             ++ [SetFrequencies
                   (band * 100000000 + carrier * 25000 + duplex_offset offset) 0;
                 LlcService (Pdu_sub sysinfo_pdu 82 42) BNCH (Mac.m_tetraTime mac0)
                   (Mac.m_macAddress mac0)]).
Proof.
  apply (serviceUpperMac_sysinfo 16 32 sysinfo_pdu BNCH mac0).
  - lia.
  - unfold signalling. auto.
  - vm_compute. reflexivity.
  - vm_compute. reflexivity.
Defined.

Example sysinfo_pdu_sample :
  option_map Mac.calls (returned (Mac.serviceUpperMac 16 32 sysinfo_pdu BNCH mac0))
  = Some [SetFrequencies 430843750 0;
          LlcService (repeat true 42) BNCH (mkTetraTime 1 1 1) address0].
Proof. vm_compute. reflexivity. Qed.

(** ** AACH and traffic *)

Lemma pduProcessAach_returns (p : Pdu) (m : Mac.t) :
  8 <= Pdu_size p -> exists m', Mac.pduProcessAach p m = Some m'.
Proof.
  intros Hs. unfold Mac.pduProcessAach.
  destruct (Pdu_getValue_defined p 0 2) as [h Hh]; [lia|].
  destruct (Pdu_getValue_defined p (0 + 2) 6) as [f Hf]; [lia|].
  rewrite Hh. cbn [bind]. rewrite Hf. cbn [bind]. eauto.
Qed.

Lemma array_get_defined (a : list Z) (i : Z) :
  0 <= i < Z.of_nat (length a) -> exists v, array_get a i = Some v.
Proof.
  intros H. unfold array_get.
  destruct (Z.leb_spec 0 i); [|lia].
  destruct (Z.ltb_spec i (Z.of_nat (length a))); [|lia].
  cbn [andb]. destruct (nth_error a (Z.to_nat i)) eqn:E; [eauto|].
  apply nth_error_None in E. lia.
Qed.

(** X14.  An ACCESS-ASSIGN PDU of at least 8 bits is dissected without
    raising and without any call; it leaves a usage marker between 0 and
    63, which is 4 or more exactly when the downlink usage is traffic.
    A traffic block (TCH or TCH/S) that follows therefore reads the
    64-entry table of encryption modes within its bounds: it goes whole
    to the U-plane, once, with the encryption mode recorded for the
    usage marker, and nothing else is called. *)
Theorem aach_then_traffic (tw : Z) (fuel : nat) (aach data : Pdu)
    (ch : MacLogicalChannel) (m : Mac.t) :
  (1 <= fuel)%nat ->
  ch = TCH_S \/ ch = TCH ->
  8 <= Pdu_size aach ->
  length (Mac.m_usageMarkerEncryptionMode m) = 64%nat ->
  exists m1 m2 enc,
    Mac.serviceUpperMac tw fuel aach AACH m = (1%nat, Mac.Returned m1)
    /\ Mac.calls m1 = Mac.calls m
    /\ 0 <= downlinkUsageMarker (Mac.m_macState m1) <= 63
    /\ (downlinkUsage (Mac.m_macState m1) = TRAFFIC
        <-> 4 <= downlinkUsageMarker (Mac.m_macState m1))
    /\ Mac.serviceUpperMac tw fuel data ch m1 = (1%nat, Mac.Returned m2)
    /\ array_get (Mac.m_usageMarkerEncryptionMode m)
         (downlinkUsageMarker (Mac.m_macState m1)) = Some enc
    /\ Mac.calls m2
       = Mac.calls m
         ++ [UPlaneService data ch (Mac.m_tetraTime m) (Mac.m_macAddress m)
               (mkMacState (downlinkUsage (Mac.m_macState m1))
                  (downlinkUsageMarker (Mac.m_macState m1)) ch) enc].
Proof.
  intros Hfuel Hch Hs Htbl. destruct fuel as [|fuel]; [lia|].
  unfold Mac.serviceUpperMac. cbn [Mac.loop].
  fold (on_channel AACH m). fold (locals0 aach).
  destruct (pduProcessAach_returns aach (on_channel AACH m) Hs) as [m1 Haach].
  destruct (iteration_last tw AACH (locals0 aach) (locals0 aach) (on_channel AACH m) m1)
    as (l' & Hit & _).
  { unfold Mac.dissect, locals0. cbn [Mac.pdu]. rewrite Haach. reflexivity. }
  { reflexivity. }
  rewrite Hit. clear Hit. cbn [locals0 Mac.tmSdu Pdu_isEmpty negb andb].
  apply pduProcessAach_state in Haach.
  destruct Haach as (st & -> & _ & Htr & Hno).
  set (m1 := Mac.set_macState st (on_channel AACH m)).
  assert (Hr : 0 <= downlinkUsageMarker st <= 63
               /\ (downlinkUsage st = TRAFFIC <-> 4 <= downlinkUsageMarker st)).
  { destruct (downlinkUsage st) eqn:Hu;
      try (rewrite Hno by discriminate; split; [lia|]; split; [discriminate|lia]).
    specialize (Htr eq_refl). split; [lia|]. tauto. }
  destruct Hr as [Hr Hiff].
  destruct (array_get_defined (Mac.m_usageMarkerEncryptionMode m) (downlinkUsageMarker st))
    as [enc Henc]; [lia|].
  destruct (iteration_last tw ch (locals0 data) (locals0 data) (on_channel ch m1)
              (Mac.call (UPlaneService data ch (Mac.m_tetraTime m) (Mac.m_macAddress m)
                           (mkMacState (downlinkUsage st) (downlinkUsageMarker st) ch) enc)
                 (on_channel ch m1))) as (l2 & Hit & _).
  { unfold Mac.dissect, locals0. subst m1.
    cbn [Mac.pdu on_channel Mac.set_macState Mac.m_macState Mac.m_usageMarkerEncryptionMode
         downlinkUsageMarker downlinkUsage Mac.m_tetraTime Mac.m_macAddress].
    unfold uint8. rewrite (wrap_small_le 8 6) by (change (2 ^ 6) with 64; lia).
    destruct Hch as [-> | ->]; rewrite Henc; reflexivity. }
  { reflexivity. }
  exists m1. fold (on_channel ch m1). fold (locals0 data). rewrite Hit.
  cbn [locals0 Mac.tmSdu Pdu_isEmpty negb andb].
  eexists. exists enc. repeat split; try assumption; try tauto; lia.
Qed.

Lemma aach_then_traffic_witness :
  exists m1 m2 enc,
    Mac.serviceUpperMac 16 32 aach_pdu AACH mac0 = (1%nat, Mac.Returned m1)
    /\ Mac.calls m1 = Mac.calls mac0
    /\ 0 <= downlinkUsageMarker (Mac.m_macState m1) <= 63
    /\ (downlinkUsage (Mac.m_macState m1) = TRAFFIC
        <-> 4 <= downlinkUsageMarker (Mac.m_macState m1))
    /\ Mac.serviceUpperMac 16 32 (repeat true 432) TCH_S m1 = (1%nat, Mac.Returned m2)
    /\ array_get (Mac.m_usageMarkerEncryptionMode mac0)
         (downlinkUsageMarker (Mac.m_macState m1)) = Some enc
    /\ Mac.calls m2
       = Mac.calls mac0
         ++ [UPlaneService (repeat true 432) TCH_S (Mac.m_tetraTime mac0)
               (Mac.m_macAddress mac0)
               (mkMacState (downlinkUsage (Mac.m_macState m1))
                  (downlinkUsageMarker (Mac.m_macState m1)) TCH_S) enc].
Proof.
  apply (aach_then_traffic 16 32 aach_pdu (repeat true 432) TCH_S mac0).
  - lia.
  - left. reflexivity.
  - vm_compute. discriminate.
  - reflexivity.
Defined.

Example aach_pdu_sample :
  option_map Mac.m_macState (returned (Mac.serviceUpperMac 16 32 aach_pdu AACH mac0))
  = Some (mkMacState TRAFFIC 9 AACH).
Proof. vm_compute. reflexivity. Qed.

(** ** Calls to the collaborators *)

Lemma pduProcessResource_same (p : Pdu) (ch : MacLogicalChannel) (m : Mac.t)
    (sdu : Pdu) (frag : bool) (size : Z) (m' : Mac.t) :
  Mac.pduProcessResource p ch m = Some (sdu, frag, size, m') -> same_but_address m m'.
Proof.
  intros H. apply pduProcessResource_inv in H.
  destruct H as [(_ & _ & _ & _ & ->)
                | (p' & len & enc & pos & m0 & _ & _ & _ & _ & Hsame & _ & _
                   & -> & _ & H)].
  { apply same_but_address_refl. }
  destruct (len =? 63).
  - destruct H as (_ & _ & ->). revert Hsame. unfold same_but_address. cbn. auto.
  - destruct H as (-> & _). exact Hsame.
Qed.

Lemma pduProcessDBlock_same (p : Pdu) (m : Mac.t) (sdu : Pdu) (size : Z) (m' : Mac.t) :
  Mac.pduProcessDBlock p m = Some (sdu, size, m') -> same_but_address m m'.
Proof.
  unfold Mac.pduProcessDBlock. intros H.
  destruct (_ >=? _).
  - repeat bind_step H. apply Some3_eq in H. destruct H as (_ & _ & ->).
    unfold same_but_address. cbn. auto.
  - apply Some3_eq in H. destruct H as (_ & _ & ->). apply same_but_address_refl.
Qed.

Lemma pduProcessSysinfo_effects (ch : MacLogicalChannel) (p : Pdu) (m : Mac.t)
    (sdu : Pdu) (size : Z) (m' : Mac.t) :
  signalling ch ->
  Mac.pduProcessSysinfo p m = Some (sdu, size, m') -> effects ch m m'.
Proof.
  intros Hch H. destruct (Z.ltb_spec (Pdu_size p) 82) as [Hs|Hs].
  - rewrite pduProcessSysinfo_short in H by assumption.
    apply Some3_eq in H. destruct H as (_ & _ & ->). apply effects_refl.
  - destruct (pduProcessSysinfo_run p m Hs) as (c & b & o & _ & _ & _ & _ & Hrun).
    rewrite Hrun in H. apply Some3_eq in H. destruct H as (_ & _ & ->).
    apply call_effects. cbn. auto.
Qed.

Lemma pduProcessSync_effects (tw : Z) (p : Pdu) (m : Mac.t) (sdu : Pdu) (m' : Mac.t) :
  Mac.pduProcessSync tw p m = Some (sdu, m') -> effects BSCH m m'.
Proof.
  intros H. destruct (Z.ltb_spec (Pdu_size p) 60) as [Hs|Hs].
  - rewrite pduProcessSync_short in H by assumption.
    apply Some2_eq in H. destruct H as (_ & ->). apply effects_refl.
  - destruct (pduProcessSync_run tw p m Hs)
      as (cc & v1 & v2 & v3 & mcc & mnc & _ & _ & _ & Hrun).
    rewrite Hrun in H. apply Some2_eq in H. destruct H as (_ & ->).
    unfold effects. cbn. repeat split; try congruence.
    eexists. split; [reflexivity|]. repeat constructor.
Qed.

(** The switch of the loop body: the PDU is kept, and a TM-SDU is set on
    BSCH and on the signalling channels only. *)
Lemma dissect_effects (tw : Z) (ch : MacLogicalChannel) (l l' : Mac.Locals)
    (m m' : Mac.t) :
  Mac.dissect tw ch l m = Some (l', m') ->
  effects ch m m'
  /\ Mac.pdu l' = Mac.pdu l
  /\ (Mac.tmSdu l' = Mac.tmSdu l \/ ch = BSCH \/ signalling ch).
Proof.
  unfold Mac.dissect, signalling. intros H.
  destruct ch; repeat step_dissector; try discriminate;
    repeat match goal with
           | E : Mac.pduProcessAach _ _ = Some _ |- _ =>
               apply pduProcessAach_effects in E
           | E : Mac.pduProcessSync _ _ _ = Some _ |- _ =>
               apply pduProcessSync_effects in E
           | E : Mac.pduProcessResource _ ?c _ = Some _ |- _ =>
               apply pduProcessResource_same, (same_but_address_effects c) in E
           | E : Mac.pduProcessMacFrag _ _ = Some _ |- effects ?c _ _ /\ _ =>
               apply pduProcessMacFrag_same, (same_but_address_effects c) in E
           | E : Mac.pduProcessMacEnd _ _ = Some _ |- effects ?c _ _ /\ _ =>
               apply pduProcessMacEnd_same, (same_but_address_effects c) in E
           | E : Mac.pduProcessDBlock _ _ = Some _ |- effects ?c _ _ /\ _ =>
               apply pduProcessDBlock_same, (same_but_address_effects c) in E
           | E : Mac.pduProcessSysinfo _ _ = Some _ |- effects ?c _ _ /\ _ =>
               apply (pduProcessSysinfo_effects c) in E; [|unfold signalling; tauto]
           end;
    cbn [Mac.pdu Mac.tmSdu];
    (split; [|split; [reflexivity|tauto]]);
    try assumption; try apply effects_refl;
    apply call_effects; cbn; tauto.
Qed.

Lemma iteration_effects (tw : Z) (ch : MacLogicalChannel) (l l' : Mac.Locals)
    (m m' : Mac.t) (again : bool) :
  Mac.iteration tw ch l m = Some (l', m', again) ->
  Mac.tmSdu l = [] \/ ch = BSCH \/ signalling ch ->
  effects ch m m'
  /\ (Mac.tmSdu l' = [] \/ ch = BSCH \/ signalling ch).
Proof.
  unfold Mac.iteration. intros H Hinv.
  match type of H with
  | bind ?c _ = _ => destruct c as [[l1 m1]|] eqn:Hd; cbn [bind] in H; [|discriminate]
  end.
  apply dissect_effects in Hd. cbn [Mac.pdu Mac.tmSdu] in Hd.
  destruct Hd as (Heff & _ & Hsdu).
  cbn [Mac.pdu Mac.tmSdu Mac.bSendTmSduToLlc Mac.dissociatePduFlag
       Mac.pduSizeInMac Mac.fragmentedPacketFlag Mac.pduCount] in H.
  assert (Hinv1 : Mac.tmSdu l1 = [] \/ ch = BSCH \/ signalling ch).
  { destruct Hsdu as [-> | Hsdu]; [exact Hinv | right; exact Hsdu]. }
  assert (Hcall : effects ch m
            (if negb (Pdu_isEmpty (Mac.tmSdu l1)) && Mac.bSendTmSduToLlc l1
             then Mac.call (LlcService (Mac.tmSdu l1) ch (Mac.m_tetraTime m1)
                              (Mac.m_macAddress m1)) m1
             else m1)).
  { destruct (Mac.tmSdu l1) as [|b sdu] eqn:Hs; [exact Heff|].
    cbn [Pdu_isEmpty negb andb].
    destruct (Mac.bSendTmSduToLlc l1); [|exact Heff].
    eapply effects_trans; [exact Heff|]. apply call_effects. cbn.
    split; [reflexivity|]. split; [discriminate|].
    destruct Hinv1 as [Hn | Hn]; [discriminate | exact Hn]. }
  destruct (_ <? 40).
  - apply Some3_eq in H. destruct H as (-> & -> & _). auto.
  - destruct (Mac.dissociatePduFlag l1);
      apply Some3_eq in H; destruct H as (-> & -> & _); auto.
Qed.

Lemma loop_effects (tw : Z) (ch : MacLogicalChannel) (fuel : nat) :
  forall (l : Mac.Locals) (m m' : Mac.t),
    returned (Mac.loop tw fuel ch l m) = Some m' ->
    Mac.tmSdu l = [] \/ ch = BSCH \/ signalling ch ->
    effects ch m m'.
Proof.
  induction fuel as [|fuel IH]; intros l m m' H Hinv; [discriminate|].
  cbn [Mac.loop] in H.
  destruct (Mac.iteration tw ch l m) as [[[l1 m1] [|]]|] eqn:Hit; [| |discriminate].
  - apply iteration_effects in Hit; [|exact Hinv]. destruct Hit as [Heff Hinv1].
    destruct (Mac.loop tw fuel ch l1 m1) as [n r] eqn:Hloop.
    eapply effects_trans; [exact Heff|].
    apply (IH l1 m1 m'); [|exact Hinv1].
    rewrite Hloop. exact H.
  - apply iteration_effects in Hit; [|exact Hinv]. destruct Hit as [Heff _].
    unfold returned in H. cbn in H. injection H as <-. exact Heff.
Qed.

(** X15.  Whatever the block and the logical channel, a run of
    [serviceUpperMac] that returns has only added calls to those made
    before, and only calls allowed on the channel: the LLC is served on
    BSCH and on the signalling channels only, and never with an empty
    TM-SDU; the U-plane on TCH and TCH/S only; the scrambling code is
    updated on BSCH only; the frequencies are set on the signalling
    channels only.  On AACH, BLCH and an unknown channel nothing is
    called.  The fill-bit option and the size of the usage marker table
    are as before, the logical channel of the MAC state is the one
    served, and everywhere but on BSCH the TDMA time is as before. *)
Theorem serviceUpperMac_calls (tw : Z) (fuel : nat) (data : Pdu)
    (ch : MacLogicalChannel) (m m' : Mac.t) :
  returned (Mac.serviceUpperMac tw fuel data ch m) = Some m' ->
  Mac.m_bRemoveFillBits m' = Mac.m_bRemoveFillBits m
  /\ length (Mac.m_usageMarkerEncryptionMode m')
     = length (Mac.m_usageMarkerEncryptionMode m)
  /\ logicalChannel (Mac.m_macState m') = ch
  /\ (ch <> BSCH -> Mac.m_tetraTime m' = Mac.m_tetraTime m)
  /\ (exists new, Mac.calls m' = Mac.calls m ++ new /\ Forall (allowed ch) new)
  /\ (ch = AACH \/ ch = BLCH \/ ch = unknown -> Mac.calls m' = Mac.calls m).
Proof.
  unfold Mac.serviceUpperMac. intros H.
  apply loop_effects in H; [|left; reflexivity].
  destruct H as (Hb & Hl & Hc & Ht & new & Hnew & Hall).
  cbn in Hb, Hl, Hc, Ht, Hnew.
  repeat split; try assumption.
  - exists new. auto.
  - intros Hch. rewrite Hnew.
    destruct new as [|e new]; [apply app_nil_r|].
    apply Forall_inv in Hall. exfalso.
    destruct e; cbn in Hall; unfold signalling in Hall;
      destruct Hch as [-> | [-> | ->]]; intuition discriminate.
Qed.

Lemma serviceUpperMac_calls_witness :
  Mac.m_bRemoveFillBits (snd (fst after_mac_end)) = Mac.m_bRemoveFillBits before_mac_end
  /\ length (Mac.m_usageMarkerEncryptionMode (snd (fst after_mac_end)))
     = length (Mac.m_usageMarkerEncryptionMode before_mac_end)
  /\ logicalChannel (Mac.m_macState (snd (fst after_mac_end))) = SCH_HD
  /\ (SCH_HD <> BSCH ->
      Mac.m_tetraTime (snd (fst after_mac_end)) = Mac.m_tetraTime before_mac_end)
  /\ (exists new,
        Mac.calls (snd (fst after_mac_end)) = Mac.calls before_mac_end ++ new
        /\ Forall (allowed SCH_HD) new)
  /\ (SCH_HD = AACH \/ SCH_HD = BLCH \/ SCH_HD = unknown ->
      Mac.calls (snd (fst after_mac_end)) = Mac.calls before_mac_end).
Proof.
  apply (serviceUpperMac_calls 16 32 mac_end_pdu SCH_HD before_mac_end
           (snd (fst after_mac_end))).
  vm_compute. reflexivity.
Defined.

(** ** Dissociation *)

(** Only a MAC-RESOURCE that is neither a NULL PDU nor the start of a
    fragmentation sets [dissociatePduFlag]. *)
Lemma dissect_dissociate (tw : Z) (ch : MacLogicalChannel) (l l1 : Mac.Locals)
    (m m1 : Mac.t) :
  Mac.dissect tw ch l m = Some (l1, m1) ->
  Mac.dissociatePduFlag l = false ->
  Mac.dissociatePduFlag l1 = true ->
  signalling ch
  /\ Pdu_getValue (Mac.pdu l) 0 2 = Some 0
  /\ exists sdu size,
       Mac.pduProcessResource (Mac.pdu l) ch m = Some (sdu, false, size, m1)
       /\ 0 < size
       /\ l1 = Mac.mkLocals (Mac.pdu l) sdu (Mac.bSendTmSduToLlc l) false true size
                 (Mac.pduCount l).
Proof.
  unfold Mac.dissect, signalling. intros H Hl Hl1.
  destruct ch; repeat step_dissector; try discriminate;
    cbn [Mac.dissociatePduFlag] in Hl1; try congruence.
  all: match goal with
       | E : Pdu_getValue ?p 0 2 = Some ?z, E' : (uint8 ?z =? 0) = true |- _ =>
           pose proof (Pdu_getValue_range p 0 2 z ltac:(lia) E) as R;
           rewrite (uint8_zero 2 z) in E' by lia;
           apply Z.eqb_eq in E'; subst z
       end.
  all: match goal with
       | E : Mac.pduProcessResource _ _ _ = Some (_, ?b, ?z, _) |- _ =>
           destruct b; [congruence|];
           destruct (Z.gtb_spec z 0); [|congruence]
       end.
  all: split; [tauto|]; split; [reflexivity|]; do 2 eexists;
       split; [reflexivity|]; split; [eassumption|reflexivity].
Qed.

Lemma Pdu_from_size (p : Pdu) (pos : Z) :
  0 <= pos <= Pdu_size p -> Pdu_size (Pdu_from p pos) = Pdu_size p - pos.
Proof.
  unfold Pdu_from, Pdu_size. intros H. rewrite length_skipn. lia.
Qed.

(** The loop goes round again only after such a MAC-RESOURCE, of [size]
    bits, that leaves at least 40 bits behind it. *)
Lemma iteration_again (tw : Z) (ch : MacLogicalChannel) (l l' : Mac.Locals)
    (m m' : Mac.t) :
  Pdu_size (Mac.pdu l) < 2 ^ 31 ->
  Mac.iteration tw ch l m = Some (l', m', true) ->
  signalling ch
  /\ Pdu_getValue (Mac.pdu l) 0 2 = Some 0
  /\ exists size,
       8 <= size <= 504
       /\ size + 40 <= Pdu_size (Mac.pdu l)
       /\ Mac.pdu l' = Pdu_from (Mac.pdu l) size.
Proof.
  unfold Mac.iteration. intros Hfit H.
  match type of H with
  | bind ?c _ = _ => destruct c as [[l1 m1]|] eqn:Hd; cbn [bind] in H; [|discriminate]
  end.
  cbn [Mac.pdu Mac.tmSdu Mac.bSendTmSduToLlc Mac.dissociatePduFlag
       Mac.pduSizeInMac Mac.fragmentedPacketFlag Mac.pduCount] in H.
  destruct (Mac.dissociatePduFlag l1) eqn:Hdis.
  2:{ destruct (_ <? 40); [apply Some3_eq in H; destruct H as (_ & _ & H); discriminate|].
      apply Some3_eq in H. destruct H as (_ & _ & H).
      rewrite andb_false_r in H. discriminate. }
  apply dissect_dissociate in Hd; [|reflexivity|exact Hdis].
  cbn [Mac.pdu Mac.bSendTmSduToLlc Mac.pduCount] in Hd.
  destruct Hd as (Hch & Hty & sdu & size & Hres & Hpos & ->).
  cbn [Mac.pdu Mac.tmSdu Mac.bSendTmSduToLlc Mac.dissociatePduFlag
       Mac.pduSizeInMac Mac.fragmentedPacketFlag Mac.pduCount] in H.
  assert (Hsize : 8 <= size <= 504).
  { apply pduProcessResource_inv in Hres.
    destruct Hres as [(_ & _ & _ & -> & _)
                     | (p' & len & enc & pos & m0 & _ & _ & Rl & _ & _ & _ & _
                        & Hf & -> & _)]; [lia|].
    cbv iota in Hpos |- *. pose proof (decodeLength_range len Rl). lia. }
  pose proof (Zle_0_nat (length (Mac.pdu l))) as Hnn. fold (Pdu_size (Mac.pdu l)) in Hnn.
  change (2 ^ 31) with 2147483648 in Hfit.
  rewrite (int32_small (Pdu_size (Mac.pdu l))) in H by lia.
  rewrite (int32_small (Pdu_size (Mac.pdu l) - size)) in H by lia.
  destruct (Z.ltb_spec (Pdu_size (Mac.pdu l) - size) 40) as [|Hrem];
    [apply Some3_eq in H; destruct H as (_ & _ & H); discriminate|].
  apply Some3_eq in H. destruct H as (-> & _ & _).
  split; [assumption|]. split; [assumption|].
  exists size. cbn [Mac.pdu]. repeat split; lia.
Qed.

Lemma loop_by_size (tw : Z) (ch : MacLogicalChannel) (fuel : nat) :
  forall (l : Mac.Locals) (m : Mac.t),
    Pdu_size (Mac.pdu l) < 2 ^ 31 ->
    (1 < fst (Mac.loop tw fuel ch l m))%nat ->
    signalling ch
    /\ Pdu_getValue (Mac.pdu l) 0 2 = Some 0
    /\ 8 * (Z.of_nat (fst (Mac.loop tw fuel ch l m)) - 1) + 40 <= Pdu_size (Mac.pdu l).
Proof.
  induction fuel as [|fuel IH]; intros l m Hfit Hn; [cbn in Hn; lia|].
  cbn [Mac.loop] in *.
  destruct (Mac.iteration tw ch l m) as [[[l1 m1] [|]]|] eqn:Hit;
    [|cbn in Hn; lia|cbn in Hn; lia].
  apply iteration_again in Hit; [|exact Hfit].
  destruct Hit as (Hch & Hty & size & Hsize & Hrem & Hpdu).
  assert (Hl1 : Pdu_size (Mac.pdu l1) = Pdu_size (Mac.pdu l) - size).
  { rewrite Hpdu. apply Pdu_from_size.
    pose proof (Zle_0_nat (length (Mac.pdu l))) as Hnn.
    fold (Pdu_size (Mac.pdu l)) in Hnn. lia. }
  specialize (IH l1 m1 ltac:(lia)).
  destruct (Mac.loop tw fuel ch l1 m1) as [n r]. cbn [fst] in *.
  split; [assumption|]. split; [assumption|].
  destruct (Nat.lt_ge_cases 1 n) as [Hgt|Hle].
  - destruct (IH Hgt) as (_ & _ & Hb). lia.
  - lia.
Qed.

(** X16.  The loop of [serviceUpperMac] is entered a second time only on
    a signalling channel and after a MAC-RESOURCE; and when it is entered
    n times, n greater than 1, the block holds at least 8 (n - 1) + 40
    bits: every PDU dissociated takes at least one octet and leaves at
    least 40 bits behind.  So a block of 268 bits is dissociated into 29
    PDUs at most, one of 124 bits into 11. *)
Theorem dissociation_by_size (tw : Z) (fuel : nat) (data : Pdu)
    (ch : MacLogicalChannel) (m : Mac.t) :
  Pdu_size data < 2 ^ 31 ->
  (1 < fst (Mac.serviceUpperMac tw fuel data ch m))%nat ->
  signalling ch
  /\ Pdu_getValue data 0 2 = Some 0
  /\ 8 * (Z.of_nat (fst (Mac.serviceUpperMac tw fuel data ch m)) - 1) + 40
     <= Pdu_size data.
Proof.
  unfold Mac.serviceUpperMac. intros Hfit Hn.
  apply (loop_by_size tw ch fuel (Mac.mkLocals data [] true false false 0 0));
    assumption.
Qed.

Lemma dissociation_by_size_witness :
  signalling SCH_F
  /\ Pdu_getValue (concat (repeat resource_6_octets 5)) 0 2 = Some 0
  /\ 8 * (Z.of_nat (fst (Mac.serviceUpperMac 16 32
                           (concat (repeat resource_6_octets 5)) SCH_F mac0)) - 1) + 40
     <= Pdu_size (concat (repeat resource_6_octets 5)).
Proof.
  apply (dissociation_by_size 16 32 (concat (repeat resource_6_octets 5)) SCH_F mac0).
  - vm_compute. reflexivity.
  - vm_compute. lia.
Defined.

Example dissociation_by_size_sample :
  fst (Mac.serviceUpperMac 16 32 (concat (repeat resource_6_octets 5)) SCH_F mac0)
  = 5%nat.
Proof. vm_compute. reflexivity. Qed.

(** ** A TM-SDU that outlives its PDU *)

Lemma dissect_access_define (tw : Z) (ch : MacLogicalChannel) (l l' : Mac.Locals)
    (m m' : Mac.t) :
  signalling ch ->
  Pdu_getValue (Mac.pdu l) 0 2 = Some 2 ->
  Pdu_getValue (Mac.pdu l) 2 2 = Some 1 ->
  Mac.dissect tw ch l m = Some (l', m') ->
  m' = m
  /\ exists size,
       l' = Mac.mkLocals (Mac.pdu l) (Mac.tmSdu l) (Mac.bSendTmSduToLlc l)
              (Mac.fragmentedPacketFlag l) (Mac.dissociatePduFlag l) size
              (Mac.pduCount l).
Proof.
  intros Hch Hty Hb. unfold Mac.dissect.
  destruct Hch as [-> | [-> | [-> | ->]]]; rewrite Hty; cbn [bind];
    change (uint8 2 =? 0) with false; change (uint8 2 =? 1) with false;
    change (uint8 2 =? 2) with true; cbv iota; rewrite Hb; cbn [bind];
    change (uint8 1 =? 0) with false; change (uint8 1 =? 1) with true; cbv iota;
    intros H; bind_step H; apply Some2_eq in H; destruct H as (-> & ->);
    (split; [reflexivity|]); eexists; reflexivity.
Qed.

(** X17.  The TM-SDU of a dissociated MAC-RESOURCE stays in the local
    variable of [serviceUpperMac] when the loop goes round: if the PDU
    that follows in the block is an ACCESS-DEFINE (PDU type 10, broadcast
    type 01), which carries no TM-SDU, the LLC is served a second time
    with the TM-SDU, the TDMA time and the address of the MAC-RESOURCE;
    then the loop ends. *)
Theorem tmSdu_served_again (tw : Z) (ch : MacLogicalChannel)
    (l l1 l2 : Mac.Locals) (m m1 m2 : Mac.t) (again : bool) :
  Pdu_size (Mac.pdu l) < 2 ^ 31 ->
  Mac.iteration tw ch l m = Some (l1, m1, true) ->
  Mac.tmSdu l1 <> [] ->
  Pdu_getValue (Mac.pdu l1) 0 2 = Some 2 ->
  Pdu_getValue (Mac.pdu l1) 2 2 = Some 1 ->
  Mac.iteration tw ch l1 m1 = Some (l2, m2, again) ->
  exists address,
    Mac.calls m1
    = Mac.calls m ++ [LlcService (Mac.tmSdu l1) ch (Mac.m_tetraTime m) address]
    /\ Mac.calls m2
       = Mac.calls m
         ++ [LlcService (Mac.tmSdu l1) ch (Mac.m_tetraTime m) address;
             LlcService (Mac.tmSdu l1) ch (Mac.m_tetraTime m) address]
    /\ again = false.
Proof.
  intros Hfit H1 Hne Hty Hb H2.
  pose proof (iteration_again tw ch l l1 m m1 Hfit H1) as (Hch & _).
  (* the first iteration *)
  unfold Mac.iteration in H1.
  match type of H1 with
  | bind ?c _ = _ => destruct c as [[la ma]|] eqn:Hd; cbn [bind] in H1; [|discriminate]
  end.
  cbn [Mac.pdu Mac.tmSdu Mac.bSendTmSduToLlc Mac.dissociatePduFlag
       Mac.pduSizeInMac Mac.fragmentedPacketFlag Mac.pduCount] in H1.
  destruct (_ <? 40); [apply Some3_eq in H1; destruct H1 as (_ & _ & H1); discriminate|].
  assert (Hflags : Mac.bSendTmSduToLlc la = true /\ Mac.dissociatePduFlag la = true).
  { apply Some3_eq in H1. destruct H1 as (_ & _ & H1).
    destruct (Mac.dissociatePduFlag la);
      cbn [Mac.bSendTmSduToLlc Mac.dissociatePduFlag] in H1;
      destruct (Mac.bSendTmSduToLlc la); cbn in H1; try discriminate; auto. }
  destruct Hflags as [Hsend Hdis]. rewrite Hsend, Hdis in H1.
  apply Some3_eq in H1. destruct H1 as (Hl1 & Hm1 & _).
  assert (Hsdu : Mac.tmSdu l1 = Mac.tmSdu la) by (rewrite Hl1; reflexivity).
  rewrite <- Hsdu in Hm1.
  destruct (Mac.tmSdu l1) as [|b sdu] eqn:Hs; [contradiction|].
  cbn [Pdu_isEmpty negb andb] in Hm1.
  apply dissect_dissociate in Hd; [|reflexivity|exact Hdis].
  destruct Hd as (_ & _ & s & size & Hres & _ & _).
  apply pduProcessResource_same in Hres.
  destruct Hres as (Htime & _ & _ & Hcalls & _).
  (* the second iteration *)
  unfold Mac.iteration in H2.
  match type of H2 with
  | bind ?c _ = _ => destruct c as [[lb mb]|] eqn:Hd2; cbn [bind] in H2; [|discriminate]
  end.
  apply dissect_access_define in Hd2; [|assumption..].
  cbn [Mac.pdu Mac.tmSdu Mac.bSendTmSduToLlc Mac.dissociatePduFlag
       Mac.pduSizeInMac Mac.fragmentedPacketFlag Mac.pduCount] in Hd2.
  destruct Hd2 as (-> & size2 & ->).
  cbn [Mac.pdu Mac.tmSdu Mac.bSendTmSduToLlc Mac.dissociatePduFlag
       Mac.pduSizeInMac Mac.fragmentedPacketFlag Mac.pduCount] in H2.
  rewrite Hs in H2. cbn [Pdu_isEmpty negb andb] in H2.
  assert (H2' : m2 = Mac.call (LlcService (b :: sdu) ch (Mac.m_tetraTime m1)
                                 (Mac.m_macAddress m1)) m1
                /\ again = false).
  { destruct (_ <? 40); apply Some3_eq in H2; destruct H2 as (_ & -> & ->); auto. }
  destruct H2' as (-> & ->).
  exists (Mac.m_macAddress ma). subst m1.
  cbn [Mac.call Mac.calls Mac.m_tetraTime Mac.m_macAddress].
  rewrite Hcalls, Htime, <- app_assoc. repeat split.
Qed.

Lemma tmSdu_served_again_witness :
  exists address,
    Mac.calls (snd (fst first_iteration))
    = Mac.calls (on_channel SCH_F mac0)
      ++ [LlcService (Mac.tmSdu (fst (fst first_iteration))) SCH_F
            (Mac.m_tetraTime (on_channel SCH_F mac0)) address]
    /\ Mac.calls (snd (fst second_iteration))
       = Mac.calls (on_channel SCH_F mac0)
         ++ [LlcService (Mac.tmSdu (fst (fst first_iteration))) SCH_F
               (Mac.m_tetraTime (on_channel SCH_F mac0)) address;
             LlcService (Mac.tmSdu (fst (fst first_iteration))) SCH_F
               (Mac.m_tetraTime (on_channel SCH_F mac0)) address]
    /\ snd second_iteration = false.
Proof.
  apply (tmSdu_served_again 16 SCH_F (locals0 resource_then_access_define)
           (fst (fst first_iteration)) (fst (fst second_iteration))
           (on_channel SCH_F mac0) (snd (fst first_iteration))
           (snd (fst second_iteration)) (snd second_iteration)).
  - vm_compute. reflexivity.
  - vm_compute. reflexivity.
  - vm_compute. discriminate.
  - vm_compute. reflexivity.
  - vm_compute. reflexivity.
  - vm_compute. reflexivity.
Defined.

(** The same on the whole block: one TM-SDU in, two calls to the LLC. *)
Example resource_then_access_define_sample :
  option_map (fun m => map delivered (Mac.calls m))
    (returned (Mac.serviceUpperMac 16 32 resource_then_access_define SCH_F mac0))
  = Some [Some ([true; false; true; true; false], 0);
          Some ([true; false; true; true; false], 0)].
Proof. vm_compute. reflexivity. Qed.

(** ** MAC-FRAG and MAC-END *)

Lemma dissect_frag_or_end (tw : Z) (ch : MacLogicalChannel) (l l' : Mac.Locals)
    (m m' : Mac.t) :
  signalling ch ->
  Pdu_getValue (Mac.pdu l) 0 2 = Some 1 ->
  Mac.dissect tw ch l m = Some (l', m') ->
  Mac.dissociatePduFlag l' = Mac.dissociatePduFlag l
  /\ ((Mac.pduProcessMacFrag (Mac.pdu l) m = Some m'
       /\ Mac.bSendTmSduToLlc l' = false)
      \/ (Mac.pduProcessMacEnd (Mac.pdu l) m = Some (Mac.tmSdu l', m'))).
Proof.
  intros Hch Hty. unfold Mac.dissect.
  destruct Hch as [-> | [-> | [-> | ->]]]; rewrite Hty; cbn [bind];
    change (uint8 1 =? 0) with false; change (uint8 1 =? 1) with true; cbv iota;
    intros H; bind_step H;
    (destruct (uint8 _ =? 0);
     [ destruct (Mac.pduProcessMacFrag (Mac.pdu l) m) as [mf|]; cbn [bind] in H;
       [|discriminate];
       apply Some2_eq in H; destruct H as (-> & ->); split; [reflexivity|];
       left; split; reflexivity
     | destruct (Mac.pduProcessMacEnd (Mac.pdu l) m) as [[sdu me]|]; cbn [bind] in H;
       [|discriminate];
       apply Some2_eq in H; destruct H as (-> & ->); split; [reflexivity|];
       right; reflexivity ]).
Qed.

Lemma append_stopped (sdu : Pdu) (a : MacAddress) (d : MacDefrag.t) :
  MacDefrag.b_stopped d = true -> MacDefrag.append sdu a d = d.
Proof. intros H. unfold MacDefrag.append. rewrite H. reflexivity. Qed.

(** X18.  A reassembled TM-SDU is delivered once.  The iteration of the
    loop of [serviceUpperMac] that dissects a MAC-FRAG or a MAC-END (PDU
    type 01 on a signalling channel) ends the loop; if it has called the
    LLC, the defragmenter is stopped afterwards; and if the defragmenter
    was stopped before, because no fragmentation was started or because
    a MAC-END has ended it, nothing is called and it stays stopped. *)
Theorem reassembly_delivered_once (tw : Z) (ch : MacLogicalChannel)
    (l l' : Mac.Locals) (m m' : Mac.t) (again : bool) :
  signalling ch ->
  Pdu_getValue (Mac.pdu l) 0 2 = Some 1 ->
  Mac.iteration tw ch l m = Some (l', m', again) ->
  again = false
  /\ (Mac.calls m' <> Mac.calls m ->
      MacDefrag.b_stopped (Mac.m_macDefrag m') = true)
  /\ (MacDefrag.b_stopped (Mac.m_macDefrag m) = true ->
      Mac.calls m' = Mac.calls m
      /\ MacDefrag.b_stopped (Mac.m_macDefrag m') = true).
Proof.
  intros Hch Hty H. unfold Mac.iteration in H.
  match type of H with
  | bind ?c _ = _ => destruct c as [[l1 m1]|] eqn:Hd; cbn [bind] in H; [|discriminate]
  end.
  apply dissect_frag_or_end in Hd; [|assumption..].
  cbn [Mac.pdu Mac.dissociatePduFlag] in Hd. destruct Hd as (Hdis & Hd).
  cbn [Mac.pdu Mac.tmSdu Mac.bSendTmSduToLlc Mac.dissociatePduFlag
       Mac.pduSizeInMac Mac.fragmentedPacketFlag Mac.pduCount] in H.
  rewrite Hdis in H.
  assert (H' : again = false
               /\ m' = (if negb (Pdu_isEmpty (Mac.tmSdu l1)) && Mac.bSendTmSduToLlc l1
                        then Mac.call (LlcService (Mac.tmSdu l1) ch (Mac.m_tetraTime m1)
                                         (Mac.m_macAddress m1)) m1
                        else m1)).
  { destruct (_ <? 40); apply Some3_eq in H; destruct H as (_ & -> & ->);
      [auto|]. rewrite andb_false_r. auto. }
  clear H. destruct H' as (-> & ->). split; [reflexivity|].
  destruct Hd as [(Hfrag & Hsend) | Hend].
  - rewrite Hsend, andb_false_r.
    apply pduProcessMacFrag_inv in Hfrag. destruct Hfrag as (sdu & ->).
    cbn [Mac.calls Mac.set_macDefrag Mac.m_macDefrag].
    split; [intros Hc; now contradiction Hc|].
    intros Hst. rewrite append_stopped by assumption. auto.
  - apply pduProcessMacEnd_inv in Hend.
    destruct Hend as [(Hs & ->) | (frag & Hs & Hdef & Hsame & _)].
    + rewrite Hs. cbn [Pdu_isEmpty negb andb].
      split; [intros Hc; now contradiction Hc|]. auto.
    + cbv zeta in Hs, Hdef.
      assert (Hst' : MacDefrag.b_stopped (Mac.m_macDefrag m1) = true)
        by (rewrite Hdef; reflexivity).
      destruct Hsame as (_ & _ & _ & Hcalls & _).
      split.
      * intros _. destruct (_ && _); exact Hst'.
      * intros Hst. rewrite append_stopped in Hs by assumption.
        unfold MacDefrag.getSdu in Hs. rewrite Hst in Hs. cbn [fst] in Hs.
        rewrite Hs. cbn [Pdu_isEmpty negb andb]. auto.
Qed.

Lemma reassembly_delivered_once_witness :
  snd after_mac_end = false
  /\ (Mac.calls (snd (fst after_mac_end)) <> Mac.calls before_mac_end ->
      MacDefrag.b_stopped (Mac.m_macDefrag (snd (fst after_mac_end))) = true)
  /\ (MacDefrag.b_stopped (Mac.m_macDefrag before_mac_end) = true ->
      Mac.calls (snd (fst after_mac_end)) = Mac.calls before_mac_end
      /\ MacDefrag.b_stopped (Mac.m_macDefrag (snd (fst after_mac_end))) = true).
Proof.
  apply (reassembly_delivered_once 16 SCH_HD mac_end_locals (fst (fst after_mac_end))
           before_mac_end (snd (fst after_mac_end)) (snd after_mac_end)).
  - unfold signalling. auto.
  - vm_compute. reflexivity.
  - vm_compute. reflexivity.
Defined.

(** ** MAC-D-BLCK *)

Lemma pduProcessDBlock_short (p : Pdu) (m : Mac.t) :
  Pdu_size p < 268 -> Mac.pduProcessDBlock p m = Some ([], 0, m).
Proof.
  intros H. unfold Mac.pduProcessDBlock.
  destruct (Z.geb_spec (Pdu_size p) 268); [lia|reflexivity].
Qed.

Lemma pduProcessDBlock_run (p : Pdu) (m : Mac.t) :
  268 <= Pdu_size p ->
  Pdu_getValue p 3 1 = Some 0 ->
  exists enc label grant,
    Pdu_getValue p 4 2 = Some enc
    /\ Pdu_getValue p 6 10 = Some label
    /\ Pdu_getValue p 17 1 = Some grant
    /\ Mac.pduProcessDBlock p m
       = Some (Pdu_from p (if grant =? 0 then 18 else 26), 268,
               Mac.set_macAddress
                 (set_eventLabel label (set_encryptionMode enc (Mac.m_macAddress m))) m).
Proof.
  intros Hs Hfill.
  destruct (Pdu_getValue_defined p 4 2) as [enc He]; [lia|].
  destruct (Pdu_getValue_defined p 6 10) as [label Hl]; [lia|].
  destruct (Pdu_getValue_defined p 17 1) as [grant Hg]; [lia|].
  pose proof (Pdu_getValue_range p 17 1 grant ltac:(lia) Hg) as Rg.
  exists enc, label, grant.
  split; [assumption|]. split; [assumption|]. split; [assumption|].
  unfold Mac.pduProcessDBlock.
  destruct (Z.geb_spec (Pdu_size p) 268) as [_|]; [|lia].
  rewrite Hfill. cbn [bind]. change (uint8 0 =? 0) with true. cbv iota. cbn [bind].
  change (3 + 1) with 4. rewrite He. cbn [bind].
  change (4 + 2) with 6. rewrite Hl. cbn [bind].
  change (6 + 10 + 1) with 17. rewrite Hg. cbn [bind].
  rewrite (uint8_zero 1 grant) by lia.
  destruct (grant =? 0); reflexivity.
Qed.

Lemma dissect_dblock (tw : Z) (ch : MacLogicalChannel) (l : Mac.Locals) (m : Mac.t) :
  signalling ch ->
  Pdu_getValue (Mac.pdu l) 0 2 = Some 3 ->
  3 <= Pdu_size (Mac.pdu l) ->
  Mac.dissect tw ch l m
  = match ch with
    | STCH | SCH_HD => Some (l, m)
    | _ =>
        '(sdu, size, m') <- Mac.pduProcessDBlock (Mac.pdu l) m ;;
        Some (Mac.mkLocals (Mac.pdu l) sdu (Mac.bSendTmSduToLlc l)
                (Mac.fragmentedPacketFlag l) (Mac.dissociatePduFlag l) size
                (Mac.pduCount l), m')
    end.
Proof.
  intros Hch Hty Hs. unfold Mac.dissect.
  destruct (Pdu_getValue_defined (Mac.pdu l) 2 1) as [sub Hsub]; [lia|].
  destruct Hch as [-> | [-> | [-> | ->]]]; rewrite Hty; cbn [bind];
    change (uint8 3 =? 0) with false; change (uint8 3 =? 1) with false;
    change (uint8 3 =? 2) with false; change (uint8 3 =? 3) with true; cbv iota;
    rewrite Hsub; reflexivity.
Qed.

(** X19.  A MAC-D-BLCK PDU (PDU type 11) of at least 3 bits is dissected
    in one pass of the loop.  On STCH and SCH/HD, and when it has fewer
    than 268 bits, nothing is called and only the logical channel of the
    MAC changes.  On BNCH and SCH/F, with at least 268 bits and no fill
    bits, the LLC receives all that follows the 18-bit header (26 bits
    with a slot granting element), under an address whose encryption
    mode is read from bits 4..5 and whose event label from bits 6..15. *)
Theorem serviceUpperMac_dblock (tw : Z) (fuel : nat) (data : Pdu)
    (ch : MacLogicalChannel) (m : Mac.t) :
  (1 <= fuel)%nat ->
  signalling ch ->
  Pdu_getValue data 0 2 = Some 3 ->
  3 <= Pdu_size data ->
  (ch = STCH \/ ch = SCH_HD \/ Pdu_size data < 268 ->
   Mac.serviceUpperMac tw fuel data ch m = (1%nat, Mac.Returned (on_channel ch m)))
  /\ (ch = BNCH \/ ch = SCH_F ->
      268 <= Pdu_size data ->
      Pdu_getValue data 3 1 = Some 0 ->
      exists enc label grant m',
        Pdu_getValue data 4 2 = Some enc
        /\ Pdu_getValue data 6 10 = Some label
        /\ Pdu_getValue data 17 1 = Some grant
        /\ Mac.serviceUpperMac tw fuel data ch m = (1%nat, Mac.Returned m')
        /\ Mac.calls m'
           = Mac.calls m
             ++ [LlcService (Pdu_from data (if grant =? 0 then 18 else 26)) ch
                   (Mac.m_tetraTime m)
                   (set_eventLabel label
                      (set_encryptionMode enc (Mac.m_macAddress m)))]).
Proof.
  intros Hfuel Hch Hty Hs3. destruct fuel as [|fuel]; [lia|].
  unfold Mac.serviceUpperMac. cbn [Mac.loop].
  fold (on_channel ch m). fold (locals0 data).
  split.
  - intros Hcase.
    destruct (iteration_last tw ch (locals0 data) (locals0 data)
                (on_channel ch m) (on_channel ch m)) as (l' & Hit & _).
    { rewrite dissect_dblock by assumption.
      destruct Hcase as [-> | [-> | Hshort]]; [reflexivity..|].
      cbn [locals0 Mac.pdu]. rewrite pduProcessDBlock_short by assumption.
      destruct ch; reflexivity. }
    { reflexivity. }
    rewrite Hit. reflexivity.
  - intros Hch2 Hs Hfill.
    destruct (pduProcessDBlock_run data (on_channel ch m) Hs Hfill)
      as (enc & label & grant & He & Hl & Hg & Hrun).
    set (sdu := Pdu_from data (if grant =? 0 then 18 else 26)) in *.
    assert (Hne : Pdu_isEmpty sdu = false).
    { assert (Hlen : 0 < Pdu_size sdu).
      { subst sdu. rewrite Pdu_from_size; destruct (grant =? 0); lia. }
      destruct sdu; [cbn in Hlen; lia|reflexivity]. }
    destruct (iteration_last tw ch (locals0 data)
                (Mac.mkLocals data sdu true false false 268 0)
                (on_channel ch m)
                (Mac.set_macAddress
                   (set_eventLabel label
                      (set_encryptionMode enc (Mac.m_macAddress (on_channel ch m))))
                   (on_channel ch m))) as (l' & Hit & _).
    { rewrite dissect_dblock by assumption.
      cbn [locals0 Mac.pdu]. rewrite Hrun.
      destruct Hch2 as [-> | ->]; reflexivity. }
    { reflexivity. }
    rewrite Hit. clear Hit. cbn [Mac.tmSdu Mac.bSendTmSduToLlc].
    rewrite Hne. cbn [negb andb].
    exists enc, label, grant. eexists.
    repeat split; try assumption.
Qed.

Lemma serviceUpperMac_dblock_witness :
  (SCH_F = STCH \/ SCH_F = SCH_HD \/ Pdu_size dblock_pdu < 268 ->
   Mac.serviceUpperMac 16 32 dblock_pdu SCH_F mac0
   = (1%nat, Mac.Returned (on_channel SCH_F mac0)))
  /\ (SCH_F = BNCH \/ SCH_F = SCH_F ->
      268 <= Pdu_size dblock_pdu ->
      Pdu_getValue dblock_pdu 3 1 = Some 0 ->
      exists enc label grant m',
        Pdu_getValue dblock_pdu 4 2 = Some enc
        /\ Pdu_getValue dblock_pdu 6 10 = Some label
        /\ Pdu_getValue dblock_pdu 17 1 = Some grant
        /\ Mac.serviceUpperMac 16 32 dblock_pdu SCH_F mac0 = (1%nat, Mac.Returned m')
        /\ Mac.calls m'
           = Mac.calls mac0
             ++ [LlcService (Pdu_from dblock_pdu (if grant =? 0 then 18 else 26)) SCH_F
                   (Mac.m_tetraTime mac0)
                   (set_eventLabel label
                      (set_encryptionMode enc (Mac.m_macAddress mac0)))]).
Proof.
  apply (serviceUpperMac_dblock 16 32 dblock_pdu SCH_F mac0).
  - lia.
  - unfold signalling. auto.
  - vm_compute. reflexivity.
  - vm_compute. discriminate.
Defined.

Example dblock_pdu_sample :
  option_map (fun m => map delivered (Mac.calls m))
    (returned (Mac.serviceUpperMac 16 32 dblock_pdu SCH_F mac0))
  = Some [Some (repeat true 250, 2)].
Proof. vm_compute. reflexivity. Qed.

(** ** Packed input *)

Lemma land_shiftr_bit (byte : Z) (k : nat) :
  Z.land (Z.shiftr byte (Z.of_nat k)) 1 = Z.b2z (Z.testbit byte (Z.of_nat k)).
Proof.
  change 1 with (Z.ones 1). rewrite Z.land_ones by lia.
  change (2 ^ 1) with 2. rewrite <- Z.bit0_mod.
  rewrite Z.shiftr_spec by lia. rewrite Z.add_0_l. reflexivity.
Qed.

Lemma byteSymbols_bits (byte : Z) :
  Main.byteSymbols true byte
  = map (fun k => Z.b2z (Z.testbit byte (Z.of_nat k))) (seq 0 8).
Proof.
  unfold Main.byteSymbols. cbn [map seq].
  rewrite <- !land_shiftr_bit. reflexivity.
Qed.

(** X20.  The input loop hands the decoder, with [RX_PACKED], eight
    symbols for each byte of the buffer, each 0 or 1, the least
    significant bit first: symbol 8 i + k is bit k of byte i.  Without
    [RX_PACKED] the symbols are the bytes themselves. *)
Theorem packed_input_lsb_first (rxBuf : list Z) :
  length (Main.bufferSymbols true rxBuf) = (8 * length rxBuf)%nat
  /\ binary (Main.bufferSymbols true rxBuf)
  /\ (forall i k : nat,
        (i < length rxBuf)%nat -> (k < 8)%nat ->
        nth (8 * i + k) (Main.bufferSymbols true rxBuf) 0
        = Z.b2z (Z.testbit (nth i rxBuf 0) (Z.of_nat k)))
  /\ Main.bufferSymbols false rxBuf = rxBuf.
Proof.
  unfold Main.bufferSymbols.
  induction rxBuf as [|byte rest (IHlen & IHbin & IHnth & IHraw)].
  { repeat split; [constructor | intros i k Hi; cbn in Hi; lia]. }
  cbn [flat_map]. rewrite byteSymbols_bits.
  split; [rewrite length_app, length_map, length_seq, IHlen; cbn [length]; lia|].
  split.
  { apply binary_app; [|exact IHbin].
    unfold binary. apply Forall_map, Forall_forall. intros k _.
    destruct (Z.testbit byte (Z.of_nat k)); cbn; auto. }
  split.
  - intros i k Hi Hk. destruct i as [|i].
    + rewrite app_nth1 by (rewrite length_map, length_seq; lia).
      cbn [nth]. replace (8 * 0 + k)%nat with k by lia.
      do 8 (destruct k as [|k]; [reflexivity|]). lia.
    + rewrite app_nth2 by (rewrite length_map, length_seq; lia).
      rewrite length_map, length_seq.
      replace (8 * S i + k - 8)%nat with (8 * i + k)%nat by lia.
      cbn [nth length] in *. apply IHnth; lia.
  - cbn [Main.byteSymbols app]. f_equal. exact IHraw.
Qed.

(** ** Indices of the table of encryption modes *)

Lemma resourceAddress_marker (p : Pdu) (pos pos' : Z) (m m' : Mac.t) :
  Mac.resourceAddress p pos m = Some (pos', m') ->
  0 <= usageMarker (Mac.m_macAddress m) <= 63 ->
  0 <= usageMarker (Mac.m_macAddress m') <= 63.
Proof.
  unfold Mac.resourceAddress. intros H Hm.
  destruct (addressType (Mac.m_macAddress m)) as [|a|a];
    [apply Some2_eq in H; destruct H as (_ & ->); exact Hm |
    | apply Some2_eq in H; destruct H as (_ & ->); exact Hm].
  destruct a as [[[a|a|]|[a|a|]|]|[[a|a|]|[a|a|]|]|];
    try (apply Some2_eq in H; destruct H as (_ & ->); exact Hm);
    repeat bind_step H; apply Some2_eq in H; destruct H as (_ & ->);
    cbn [Mac.m_macAddress Mac.set_macAddress Mac.set_usageMarkerEncryptionMode
         usageMarker set_ssi set_ussi set_smi set_eventLabel set_usageMarker];
    try exact Hm.
  match goal with
  | E : Pdu_getValue p ?q 6 = Some ?u |- 0 <= ?u <= 63 =>
      pose proof (Pdu_getValue_range p q 6 u ltac:(lia) E) as R;
      change (2 ^ 6) with 64 in R; lia
  end.
Qed.

Lemma pduProcessResource_markers (p : Pdu) (ch : MacLogicalChannel) (m : Mac.t)
    (sdu : Pdu) (frag : bool) (size : Z) (m' : Mac.t) :
  Mac.pduProcessResource p ch m = Some (sdu, frag, size, m') ->
  markers_in_range m -> markers_in_range m'.
Proof.
  intros H (Hlen & Haddr & Hdef & Hst).
  pose proof (pduProcessResource_same _ _ _ _ _ _ _ H) as (_ & Hs & _ & _ & Hl).
  unfold markers_in_range. rewrite Hl, Hs.
  split; [assumption|]. cut (0 <= usageMarker (Mac.m_macAddress m') <= 63
       /\ 0 <= usageMarker (MacDefrag.macAddress (Mac.m_macDefrag m')) <= 63);
    [tauto|].
  clear Hs Hl Hlen Hst.
  unfold Mac.pduProcessResource in H.
  bind_step H.
  destruct (uint8 _ =? 0).
  { apply Some4_eq in H. destruct H as (_ & _ & _ & ->). auto. }
  bind_step H. bind_step H. bind_step H. bind_step H.
  match type of H with
  | context [Mac.resourceAddress _ _ _] =>
      assert (Hpre : exists fragF m1,
                0 <= usageMarker (Mac.m_macAddress m1) <= 63
                /\ Mac.m_macDefrag m1 = Mac.m_macDefrag m
                /\ (if uint32 z2 =? 62
                    then (false,
                          Mac.set_secondSlotStolenFlag 1
                            (Mac.set_macAddress
                               (set_encryptionMode z1 (Mac.m_macAddress m)) m))
                    else if uint32 z2 =? 63
                         then (true,
                               Mac.set_secondSlotStolenFlag 0
                                 (Mac.set_macAddress
                                    (set_encryptionMode z1 (Mac.m_macAddress m)) m))
                         else (false,
                               Mac.set_macAddress
                                 (set_encryptionMode z1 (Mac.m_macAddress m)) m))
                   = (fragF, m1))
  end.
  { destruct (uint32 z2 =? 62); [|destruct (uint32 z2 =? 63)];
      do 2 eexists; (split; [|split; [|reflexivity]]); cbn; auto. }
  destruct Hpre as (fragF & m1 & Haddr1 & Hdef1 & Heq).
  rewrite Heq in H. clear Heq.
  bind_step H.
  match type of H with
  | bind ?c _ = _ => destruct c as [[pos1 m0]|] eqn:Hra; cbn [bind] in H; [|discriminate]
  end.
  pose proof (resourceAddress_frame _ _ _ _ _ Hra) as (_ & _ & Hdef0 & _).
  apply resourceAddress_marker in Hra; [|cbn; exact Haddr1].
  cbn [Mac.m_macDefrag Mac.set_macAddress] in Hdef0.
  bind_step H. parse_step H; bind_step H; parse_step H; bind_step H.
  all: match type of H with
       | bind ?c _ = _ => destruct c as [pos|]; cbn [bind] in H; [|discriminate]
       end.
  all: destruct (_ >? 0); [destruct fragF|];
       apply Some4_eq in H; destruct H as (_ & _ & _ & ->).
  all: cbn [Mac.m_macAddress Mac.m_macDefrag Mac.set_macDefrag].
  all: rewrite ?defrag_append_macAddress; cbn [MacDefrag.start MacDefrag.macAddress].
  all: rewrite ?Hdef0, ?Hdef1; auto.
Qed.

Lemma pduProcessMacFrag_markers (p : Pdu) (m m' : Mac.t) :
  Mac.pduProcessMacFrag p m = Some m' -> markers_in_range m -> markers_in_range m'.
Proof.
  intros H. apply pduProcessMacFrag_inv in H. destruct H as (sdu & ->).
  unfold markers_in_range. cbn. rewrite defrag_append_macAddress. auto.
Qed.

Lemma pduProcessMacEnd_markers (p : Pdu) (m : Mac.t) (sdu : Pdu) (m' : Mac.t) :
  Mac.pduProcessMacEnd p m = Some (sdu, m') -> markers_in_range m -> markers_in_range m'.
Proof.
  intros H. apply pduProcessMacEnd_inv in H.
  destruct H as [(_ & ->) | (frag & _ & Hdef & Hsame & _ & _ & Hum)]; [auto|].
  cbv zeta in Hdef. destruct Hsame as (_ & Hs & _ & _ & Hl).
  unfold markers_in_range. rewrite Hl, Hs, Hum, Hdef.
  cbn [MacDefrag.stop MacDefrag.macAddress]. rewrite defrag_append_macAddress. auto.
Qed.

Lemma pduProcessDBlock_markers (p : Pdu) (m : Mac.t) (sdu : Pdu) (size : Z) (m' : Mac.t) :
  Mac.pduProcessDBlock p m = Some (sdu, size, m') ->
  markers_in_range m -> markers_in_range m'.
Proof.
  unfold Mac.pduProcessDBlock. intros H.
  destruct (_ >=? _).
  - repeat bind_step H. apply Some3_eq in H. destruct H as (_ & _ & ->).
    unfold markers_in_range. cbn. auto.
  - apply Some3_eq in H. destruct H as (_ & _ & ->). auto.
Qed.

Lemma pduProcessSysinfo_markers (p : Pdu) (m : Mac.t) (sdu : Pdu) (size : Z) (m' : Mac.t) :
  Mac.pduProcessSysinfo p m = Some (sdu, size, m') ->
  markers_in_range m -> markers_in_range m'.
Proof.
  intros H. destruct (Z.ltb_spec (Pdu_size p) 82) as [Hs|Hs].
  - rewrite pduProcessSysinfo_short in H by assumption.
    apply Some3_eq in H. destruct H as (_ & _ & ->). auto.
  - destruct (pduProcessSysinfo_run p m Hs) as (c & b & o & _ & _ & _ & _ & Hrun).
    rewrite Hrun in H. apply Some3_eq in H. destruct H as (_ & _ & ->). auto.
Qed.

Lemma pduProcessSync_markers (tw : Z) (p : Pdu) (m : Mac.t) (sdu : Pdu) (m' : Mac.t) :
  Mac.pduProcessSync tw p m = Some (sdu, m') ->
  markers_in_range m -> markers_in_range m'.
Proof.
  intros H. destruct (Z.ltb_spec (Pdu_size p) 60) as [Hs|Hs].
  - rewrite pduProcessSync_short in H by assumption.
    apply Some2_eq in H. destruct H as (_ & ->). auto.
  - destruct (pduProcessSync_run tw p m Hs)
      as (cc & v1 & v2 & v3 & mcc & mnc & _ & _ & _ & Hrun).
    rewrite Hrun in H. apply Some2_eq in H. destruct H as (_ & ->). auto.
Qed.

Lemma pduProcessAach_markers (p : Pdu) (m m' : Mac.t) :
  Mac.pduProcessAach p m = Some m' -> markers_in_range m -> markers_in_range m'.
Proof.
  intros H (Hl & Ha & Hd & _). apply pduProcessAach_state in H.
  destruct H as (st & -> & _ & Htr & Hno).
  unfold markers_in_range. cbn. repeat split; try tauto; try lia.
  - destruct (downlinkUsage st) eqn:Hu; try (rewrite Hno by discriminate; lia).
    specialize (Htr eq_refl). lia.
  - destruct (downlinkUsage st) eqn:Hu; try (rewrite Hno by discriminate; lia).
    specialize (Htr eq_refl). lia.
Qed.

Lemma dissect_markers (tw : Z) (ch : MacLogicalChannel) (l l' : Mac.Locals)
    (m m' : Mac.t) :
  Mac.dissect tw ch l m = Some (l', m') -> markers_in_range m -> markers_in_range m'.
Proof.
  unfold Mac.dissect. intros H Hin.
  destruct ch; repeat step_dissector; try discriminate; try assumption;
    match goal with
    | E : Mac.pduProcessAach _ _ = Some _ |- _ =>
        exact (pduProcessAach_markers _ _ _ E Hin)
    | E : Mac.pduProcessSync _ _ _ = Some _ |- _ =>
        exact (pduProcessSync_markers _ _ _ _ _ E Hin)
    | E : Mac.pduProcessResource _ _ _ = Some _ |- _ =>
        exact (pduProcessResource_markers _ _ _ _ _ _ _ E Hin)
    | E : Mac.pduProcessMacFrag _ _ = Some _ |- _ =>
        exact (pduProcessMacFrag_markers _ _ _ E Hin)
    | E : Mac.pduProcessMacEnd _ _ = Some _ |- _ =>
        exact (pduProcessMacEnd_markers _ _ _ _ E Hin)
    | E : Mac.pduProcessDBlock _ _ = Some _ |- _ =>
        exact (pduProcessDBlock_markers _ _ _ _ _ E Hin)
    | E : Mac.pduProcessSysinfo _ _ = Some _ |- _ =>
        exact (pduProcessSysinfo_markers _ _ _ _ _ E Hin)
    | |- markers_in_range (Mac.call _ _) => exact Hin
    end.
Qed.

Lemma iteration_markers (tw : Z) (ch : MacLogicalChannel) (l l' : Mac.Locals)
    (m m' : Mac.t) (again : bool) :
  Mac.iteration tw ch l m = Some (l', m', again) ->
  markers_in_range m -> markers_in_range m'.
Proof.
  unfold Mac.iteration. intros H Hin.
  match type of H with
  | bind ?c _ = _ => destruct c as [[l1 m1]|] eqn:Hd; cbn [bind] in H; [|discriminate]
  end.
  apply dissect_markers in Hd; [|exact Hin].
  cbn [Mac.pdu Mac.tmSdu Mac.bSendTmSduToLlc Mac.dissociatePduFlag
       Mac.pduSizeInMac Mac.fragmentedPacketFlag Mac.pduCount] in H.
  assert (Hm' : m' = m1 \/ exists e, m' = Mac.call e m1).
  { destruct (_ <? 40); [|destruct (Mac.dissociatePduFlag l1)];
      apply Some3_eq in H; destruct H as (_ & -> & _);
      destruct (_ && _); eauto. }
  destruct Hm' as [-> | (e & ->)]; exact Hd.
Qed.

Lemma loop_markers (tw : Z) (ch : MacLogicalChannel) (fuel : nat) :
  forall (l : Mac.Locals) (m m' : Mac.t),
    returned (Mac.loop tw fuel ch l m) = Some m' ->
    markers_in_range m -> markers_in_range m'.
Proof.
  induction fuel as [|fuel IH]; intros l m m' H Hin; [discriminate|].
  cbn [Mac.loop] in H.
  destruct (Mac.iteration tw ch l m) as [[[l1 m1] [|]]|] eqn:Hit; [| |discriminate].
  - apply iteration_markers in Hit; [|exact Hin].
    destruct (Mac.loop tw fuel ch l1 m1) as [n r] eqn:Hloop.
    apply (IH l1 m1 m'); [|exact Hit]. rewrite Hloop. exact H.
  - apply iteration_markers in Hit; [|exact Hin].
    unfold returned in H. cbn in H. injection H as <-. exact Hit.
Qed.

(** X21.  The indices with which the MAC reads and writes its table of
    64 encryption modes stay within the table: if the usage marker of the
    address, that of the address of the defragmenter and the usage marker
    of the downlink are all between 0 and 63, as they are when the
    members that the constructors leave uninitialised are zero, they
    still are after any run of [serviceUpperMac] that returns, whatever
    the block and the channel, and the table still has 64 entries.  A
    traffic block then never raises: the read of the table is within
    bounds. *)
Theorem usage_markers_in_range (tw : Z) (fuel : nat) (data : Pdu)
    (ch : MacLogicalChannel) (m : Mac.t) :
  markers_in_range m ->
  (forall m',
     returned (Mac.serviceUpperMac tw fuel data ch m) = Some m' ->
     markers_in_range m')
  /\ (ch = TCH_S \/ ch = TCH ->
      (1 <= fuel)%nat ->
      exists m', Mac.serviceUpperMac tw fuel data ch m = (1%nat, Mac.Returned m')).
Proof.
  intros Hin. split.
  - intros m' H. unfold Mac.serviceUpperMac in H.
    apply loop_markers in H; [exact H|].
    destruct Hin as (Hl & Ha & Hd & Hs). unfold markers_in_range. cbn. auto.
  - intros Hch Hfuel. destruct fuel as [|fuel]; [lia|].
    destruct Hin as (Hl & _ & _ & Hs).
    unfold Mac.serviceUpperMac. cbn [Mac.loop].
    fold (on_channel ch m). fold (locals0 data).
    destruct (array_get_defined (Mac.m_usageMarkerEncryptionMode m)
                (downlinkUsageMarker (Mac.m_macState m))) as [enc Henc]; [lia|].
    destruct (iteration_last tw ch (locals0 data) (locals0 data) (on_channel ch m)
                (Mac.call (UPlaneService data ch (Mac.m_tetraTime m) (Mac.m_macAddress m)
                             (Mac.m_macState (on_channel ch m)) enc)
                   (on_channel ch m))) as (l' & Hit & _).
    { unfold Mac.dissect, locals0.
      cbn [Mac.pdu on_channel Mac.set_macState Mac.m_macState
           Mac.m_usageMarkerEncryptionMode downlinkUsageMarker downlinkUsage
           Mac.m_tetraTime Mac.m_macAddress].
      unfold uint8. rewrite (wrap_small_le 8 6) by (change (2 ^ 6) with 64; lia).
      destruct Hch as [-> | ->]; rewrite Henc; reflexivity. }
    { reflexivity. }
    rewrite Hit. cbn [locals0 Mac.tmSdu Pdu_isEmpty negb andb]. eauto.
Qed.

Lemma usage_markers_in_range_witness :
  (forall m',
     returned (Mac.serviceUpperMac 16 32 frag_start_pdu TCH mac0) = Some m' ->
     markers_in_range m')
  /\ (TCH = TCH_S \/ TCH = TCH ->
      (1 <= 32)%nat ->
      exists m', Mac.serviceUpperMac 16 32 frag_start_pdu TCH mac0
                 = (1%nat, Mac.Returned m')).
Proof.
  apply (usage_markers_in_range 16 32 frag_start_pdu TCH mac0).
  unfold markers_in_range. cbn. repeat split; lia.
Defined.

(** ** A MAC-RESOURCE that cannot raise *)

Lemma array_set_defined (a : list Z) (i v : Z) :
  0 <= i < Z.of_nat (length a) -> array_set a i v <> None.
Proof.
  intros H. unfold array_set.
  destruct (Z.leb_spec 0 i); [|lia].
  destruct (Z.ltb_spec i (Z.of_nat (length a))); [|lia].
  discriminate.
Qed.

Lemma resourceAddress_returns (p : Pdu) (pos : Z) (m : Mac.t) :
  pos + 34 <= Pdu_size p ->
  length (Mac.m_usageMarkerEncryptionMode m) = 64%nat ->
  Mac.resourceAddress p pos m <> None.
Proof.
  intros Hs Hl. unfold Mac.resourceAddress.
  destruct (addressType (Mac.m_macAddress m)) as [|a|a]; [discriminate| |discriminate].
  destruct a as [[[a|a|]|[a|a|]|]|[[a|a|]|[a|a|]|]|]; try discriminate;
    cbv zeta; repeat read_step; try discriminate.
  cbn [usageMarker set_usageMarker].
  match goal with
  | E : Pdu_getValue p ?q 6 = Some ?u |- _ =>
      pose proof (Pdu_getValue_range p q 6 u ltac:(lia) E) as R;
      change (2 ^ 6) with 64 in R
  end.
  match goal with
  | |- bind ?c _ <> None =>
      destruct c eqn:Hset; [discriminate|];
      exfalso; revert Hset; apply array_set_defined; lia
  end.
Qed.

Lemma resourceChannelAllocation_returns (p : Pdu) (pos : Z) (m : Mac.t) :
  pos + 115 <= Pdu_size p -> Mac.resourceChannelAllocation p pos m <> None.
Proof.
  intros Hs. unfold Mac.resourceChannelAllocation. cbv zeta.
  repeat (first [ read_step
                | match goal with
                  | |- (if ?c then _ else _) <> None => destruct c
                  end ]);
    discriminate.
Qed.

(** X22.  A MAC-RESOURCE PDU of at least 180 bits whose fill bits are
    not removed (fill-bit indication 0, or the option off) is dissected
    without raising, whatever it holds, when the table of encryption
    modes has its 64 entries: no field is read past the end of the PDU
    and the table is written within its bounds.  So is the first PDU of
    a block on a signalling channel by the loop of [serviceUpperMac]. *)
Theorem mac_resource_returns (tw : Z) (ch : MacLogicalChannel) (l : Mac.Locals)
    (m : Mac.t) :
  180 <= Pdu_size (Mac.pdu l) ->
  Pdu_getValue (Mac.pdu l) 2 1 = Some 0 \/ Mac.m_bRemoveFillBits m = false ->
  length (Mac.m_usageMarkerEncryptionMode m) = 64%nat ->
  (exists sdu frag size m',
     Mac.pduProcessResource (Mac.pdu l) ch m = Some (sdu, frag, size, m'))
  /\ (signalling ch ->
      Pdu_getValue (Mac.pdu l) 0 2 = Some 0 ->
      exists l' m' again, Mac.iteration tw ch l m = Some (l', m', again)).
Proof.
  intros Hs Hfill Hl.
  assert (Hres : Mac.pduProcessResource (Mac.pdu l) ch m <> None).
  { unfold Mac.pduProcessResource. set (p := Mac.pdu l) in *.
    read_step. destruct (uint8 v =? 0); [discriminate|].
    read_step.
    assert (Hp : (if uint8 v0 =? 0 then Some p
                  else Mac.removeFillBits (Mac.m_bRemoveFillBits m) p) = Some p).
    { destruct Hfill as [Hf | Hf].
      - apply Some_eq in Hf. subst v0. reflexivity.
      - rewrite Hf. unfold Mac.removeFillBits. destruct (uint8 v0 =? 0); reflexivity. }
    rewrite Hp. clear Hp. cbn [bind].
    read_step. read_step.
    destruct (uint32 v2 =? 62); [|destruct (uint32 v2 =? 63)].
    all: read_step.
    all: match goal with
         | |- bind ?c _ <> None =>
             destruct c as [[pos1 m0]|] eqn:Hra;
               [|exfalso; revert Hra; apply resourceAddress_returns; [lia|exact Hl]]
         end.
    all: apply resourceAddress_frame in Hra; destruct Hra as (Hpos1 & _).
    all: cbn [bind].
    all: repeat read_step.
    all: match goal with
         | |- bind ?c _ <> None =>
             destruct c as [pos|] eqn:Hca; cbn [bind];
               [|exfalso; revert Hca; destruct (uint8 _ =? 0);
                 [intros Hca; discriminate Hca|];
                 apply resourceChannelAllocation_returns; lia]
         end.
    all: destruct (_ >? 0); discriminate. }
  destruct (Mac.pduProcessResource (Mac.pdu l) ch m) as [[[[sdu frag] size] m']|] eqn:Hr;
    [|contradiction].
  split; [eauto|].
  intros Hch Hty. unfold Mac.iteration, Mac.dissect. cbn [Mac.pdu].
  destruct Hch as [-> | [-> | [-> | ->]]]; rewrite Hty; cbn [bind];
    change (uint8 0 =? 0) with true; cbv iota; rewrite Hr; cbn [bind];
    cbn [Mac.pdu Mac.tmSdu Mac.bSendTmSduToLlc Mac.dissociatePduFlag
         Mac.pduSizeInMac Mac.fragmentedPacketFlag Mac.pduCount];
    destruct (_ <? 40); eauto.
Qed.

Lemma mac_resource_returns_witness :
  (exists sdu frag size m',
     Mac.pduProcessResource (Mac.pdu (locals0 (repeat false 13 ++ repeat true 167)))
       SCH_F mac0 = Some (sdu, frag, size, m'))
  /\ (signalling SCH_F ->
      Pdu_getValue (Mac.pdu (locals0 (repeat false 13 ++ repeat true 167))) 0 2 = Some 0 ->
      exists l' m' again,
        Mac.iteration 16 SCH_F (locals0 (repeat false 13 ++ repeat true 167)) mac0
        = Some (l', m', again)).
Proof.
  apply (mac_resource_returns 16 SCH_F (locals0 (repeat false 13 ++ repeat true 167)) mac0).
  - vm_compute. discriminate.
  - left. vm_compute. reflexivity.
  - reflexivity.
Defined.

(** ** A MAC-FRAG and a MAC-END that cannot raise *)

(** X23.  A MAC-FRAG of at least 4 bits and a MAC-END of at least 56
    bits, whose fill bits are not removed (fill-bit indication 0, or the
    option off), are dissected without raising, whatever they hold, when
    the indices into the table of encryption modes are in range: no
    field is read past the end of the PDU, and the MAC-END records the
    encryption mode of the reassembled TM-SDU within the table. *)
Theorem mac_frag_end_return (p : Pdu) (m : Mac.t) :
  Pdu_getValue p 3 1 = Some 0 \/ Mac.m_bRemoveFillBits m = false ->
  markers_in_range m ->
  (4 <= Pdu_size p -> exists m', Mac.pduProcessMacFrag p m = Some m')
  /\ (56 <= Pdu_size p -> exists sdu m', Mac.pduProcessMacEnd p m = Some (sdu, m')).
Proof.
  intros Hfill (Hl & _ & Hd & _).
  assert (Hp : forall v, Pdu_getValue p 3 1 = Some v ->
                 (if uint8 v =? 0 then Some p
                  else Mac.removeFillBits (Mac.m_bRemoveFillBits m) p) = Some p).
  { intros v Hv. destruct Hfill as [Hf | Hf].
    - rewrite Hf in Hv. apply Some_eq in Hv. subst v. reflexivity.
    - rewrite Hf. unfold Mac.removeFillBits. destruct (uint8 v =? 0); reflexivity. }
  split; intros Hs.
  - unfold Mac.pduProcessMacFrag.
    destruct (Pdu_getValue_defined p 3 1) as [v Hv]; [lia|].
    rewrite Hv. cbn [bind]. rewrite (Hp v Hv). cbn [bind]. eauto.
  - assert (Hend : Mac.pduProcessMacEnd p m <> None).
    { unfold Mac.pduProcessMacEnd.
      read_step. rewrite (Hp v eq_refl). clear Hp. cbn [bind].
      read_step. destruct (_ || _); [discriminate|].
      read_step. cbv zeta. repeat read_step.
      all: match goal with
           | |- bind ?c _ <> None =>
               assert (Hc : c <> None)
                 by (destruct (uint8 _ =? 0); [discriminate|];
                     repeat read_step; discriminate);
               destruct c as [pos|]; [clear Hc|contradiction]; cbn [bind]
           end.
      all: set (d := MacDefrag.append _ _ _).
      all: assert (Hda : MacDefrag.macAddress d = MacDefrag.macAddress (Mac.m_macDefrag m))
             by apply defrag_append_macAddress.
      all: unfold MacDefrag.getSdu.
      all: destruct (MacDefrag.b_stopped d); cbn [Pdu_size length Z.of_nat Z.gtb Z.compare bind];
           [discriminate|].
      all: destruct (_ >? 0); cbn [bind]; [|discriminate].
      all: rewrite Hda.
      all: unfold uint8 at 2;
           rewrite (wrap_small_le 8 6 (usageMarker _)) by (change (2 ^ 6) with 64; lia).
      all: match goal with
           | |- context [array_set ?a ?i ?e] =>
               destruct (array_set a i e) eqn:Hset; [cbn [bind]; discriminate|];
               exfalso; revert Hset; apply array_set_defined; lia
           end. }
    destruct (Mac.pduProcessMacEnd p m) as [[sdu m']|]; [eauto|contradiction].
Qed.

Lemma mac_frag_end_return_witness :
  (4 <= Pdu_size mac_end_padded ->
   exists m', Mac.pduProcessMacFrag mac_end_padded before_mac_end = Some m')
  /\ (56 <= Pdu_size mac_end_padded ->
      exists sdu m', Mac.pduProcessMacEnd mac_end_padded before_mac_end = Some (sdu, m')).
Proof.
  apply (mac_frag_end_return mac_end_padded before_mac_end).
  - left. vm_compute. reflexivity.
  - unfold markers_in_range. cbn. repeat split; lia.
Defined.

(** ** Fill bits in the dissectors *)

Lemma Pdu_getValue_bit (p : Pdu) (pos v : Z) :
  0 <= pos -> Pdu_getValue p pos 1 = Some v ->
  exists b, nth_error p (Z.to_nat pos) = Some b /\ v = Z.b2z b.
Proof.
  unfold Pdu_getValue, Pdu_size. intros Hpos H.
  destruct (Z.leb_spec (pos + 1) (Z.of_nat (length p))) as [Hle|]; [|discriminate].
  apply Some_eq in H. subst v.
  destruct (nth_error p (Z.to_nat pos)) as [b|] eqn:Hn;
    [|apply nth_error_None in Hn; lia].
  exists b. split; [reflexivity|].
  apply nth_error_split in Hn. destruct Hn as (l1 & l2 & Hp & Hl).
  rewrite Hp, <- Hl, skipn_app, skipn_all, Nat.sub_diag. cbn.
  destruct b; reflexivity.
Qed.

(** A bit that is set lies at or before the last 1. *)
Lemma set_bit_before_last_one (q : Pdu) (k i : nat) :
  nth_error (q ++ true :: repeat false k) i = Some true -> (i <= length q)%nat.
Proof.
  intros H. destruct (Nat.le_gt_cases i (length q)) as [|Hgt]; [assumption|].
  rewrite nth_error_app2 in H by lia.
  destruct (i - length q)%nat as [|j] eqn:Hj; [lia|].
  cbn [nth_error] in H. apply nth_error_In, repeat_spec in H. discriminate.
Qed.

(** X24.  In the dissectors [removeFillBits] cannot read outside the
    PDU: it is called when the fill-bit indication of the PDU is set, so
    the PDU holds a 1, and what comes back is the PDU cut before its last
    1, which still holds all that precedes the indication.  A MAC-FRAG of
    at least 4 bits is therefore dissected without raising whatever it
    holds and whatever the fill-bit option: the fragment appended is what
    follows bit 4 of the PDU, cut before the last 1 when the indication is
    set and the option on. *)
Theorem fill_bits_in_dissectors (p : Pdu) (m : Mac.t) (pos v : Z) :
  Pdu_fits p ->
  0 <= pos ->
  Pdu_getValue p pos 1 = Some v ->
  (uint8 v <> 0 ->
   exists q k,
     p = q ++ true :: repeat false k
     /\ Mac.removeFillBits true p = Some q
     /\ pos <= Pdu_size q)
  /\ (pos = 3 ->
      exists q,
        Mac.pduProcessMacFrag p m
        = Some (Mac.set_macDefrag
                  (MacDefrag.append (Pdu_from q 4) (Mac.m_macAddress m)
                     (Mac.m_macDefrag m)) m)
        /\ (if negb (uint8 v =? 0) && Mac.m_bRemoveFillBits m
            then exists k, p = q ++ true :: repeat false k
            else q = p)).
Proof.
  intros Hfit Hpos Hv.
  assert (Hstrip : uint8 v <> 0 ->
            exists q k,
              p = q ++ true :: repeat false k
              /\ Mac.removeFillBits true p = Some q
              /\ pos <= Pdu_size q).
  { intros Hset.
    destruct (Pdu_getValue_bit p pos v Hpos Hv) as (b & Hb & ->).
    destruct b; [|now contradiction Hset].
    destruct (last_one_split p (nth_error_In _ _ Hb)) as (q & k & Hp).
    exists q, k. split; [exact Hp|]. subst p.
    split; [now apply removeFillBits_strips|].
    apply set_bit_before_last_one in Hb. unfold Pdu_size. lia. }
  split; [exact Hstrip|].
  intros ->. unfold Mac.pduProcessMacFrag. rewrite Hv. cbn [bind].
  destruct (Z.eqb_spec (uint8 v) 0) as [Hz|Hnz]; cbn [negb andb bind].
  - exists p. split; reflexivity.
  - destruct (Mac.m_bRemoveFillBits m).
    + destruct (Hstrip Hnz) as (q & k & Hp & Hrm & _).
      rewrite Hrm. cbn [bind]. exists q. split; [reflexivity|]. eauto.
    + exists p. split; reflexivity.
Qed.

Lemma fill_bits_in_dissectors_witness :
  (uint8 1 <> 0 ->
   exists q k,
     mac_frag_pdu = q ++ true :: repeat false k
     /\ Mac.removeFillBits true mac_frag_pdu = Some q
     /\ 3 <= Pdu_size q)
  /\ (3 = 3 ->
      exists q,
        Mac.pduProcessMacFrag mac_frag_pdu mac0
        = Some (Mac.set_macDefrag
                  (MacDefrag.append (Pdu_from q 4) (Mac.m_macAddress mac0)
                     (Mac.m_macDefrag mac0)) mac0)
        /\ (if negb (uint8 1 =? 0) && Mac.m_bRemoveFillBits mac0
            then exists k, mac_frag_pdu = q ++ true :: repeat false k
            else q = mac_frag_pdu)).
Proof.
  apply (fill_bits_in_dissectors mac_frag_pdu mac0 3 1).
  - vm_compute. reflexivity.
  - lia.
  - vm_compute. reflexivity.
Defined.

Example mac_frag_pdu_sample :
  Mac.removeFillBits true mac_frag_pdu
  = Some [false; true; false; true; true; false; true; true; false].
Proof. vm_compute. reflexivity. Qed.

(** ** The TDMA time counts the bursts processed *)




